(** * Autograd-zero specialisation of gradient graphs

    A shallow embedding of [specializeAutogradZero]
    (torch/csrc/jit/passes/specialize_autogradzero.cpp) and the properties
    of the pass: the zero-ness classification of values, the rewrites of
    [prim::AutogradAdd] nodes and of lowered GradOf blocks ([prim::If] nodes
    guarded by [prim::AutogradAnyNonZero]), the preservation of the
    defs-before-uses order and the behaviour of a second run. *)

From Stdlib Require Import ZArith.
From stdpp Require Import gmap list strings.

#[local] Set Warnings "-clear-no-such-hyp".

(** ** Classification *)

(** [enum class State { Nonzero, Zero, Unknown }], in declaration order:
    [Nonzero] is the enumerator with value 0. *)
Inductive State := Nonzero | Zero | Unknown.

#[global] Instance State_eq_dec : EqDecision State.
Proof. solve_decision. Defined.

(** The value-initialised [State()], which [std::unordered_map::operator[]]
    stores for a key that has no entry: the enumerator with value 0. *)
Definition State_value_init : State := Nonzero.

(** ** Types of values *)

(** Modelled from the spec: the type hierarchy is declared outside
    specialize_autogradzero.cpp.  A tensor type carries the optional
    "undefined" flag ([tt->undefined()], the structurally-absent flag of the
    spec: known true, known false or unknown); lists are homogeneous; the
    remaining constructors stand for the non-tensor types. *)
Inductive TypePtr :=
| TensorType (undefined : option bool)
| ListType (elem : TypePtr)
| IntType
| FloatType
| BoolType
| NoneType.

#[global] Instance TypePtr_eq_dec : EqDecision TypePtr.
Proof. solve_decision. Defined.

(** Modelled from the spec: [TensorType::get()] is declared outside
    specialize_autogradzero.cpp.  The type annotation of the spec "may
    optionally record" the flag; [TensorType::get()], which the source names
    without a refinement, is taken to be the tensor-like type that records
    nothing.  No classification depends on this choice: the subtype test
    below does not look at flags, and the pass classifies the values it
    creates by itself (lines 66 and 121), not by their type. *)
Definition TensorType_get : TypePtr := TensorType None.

(** Modelled from the spec: [ListType::ofTensors()] is declared outside
    specialize_autogradzero.cpp; it is the type of the homogeneous lists of
    tensor-like values. *)
Definition ListType_ofTensors : TypePtr := ListType TensorType_get.

(** [tp->cast<TensorType>()]: the tensor type itself, or null. *)
Definition cast_TensorType (tp : TypePtr) : option (option bool) :=
  match tp with
  | TensorType u => Some u
  | _ => None
  end.

(** Modelled from the spec: [isSubtypeOf] is declared outside
    specialize_autogradzero.cpp.  The spec lets the pass ask of a type
    annotation whether it is a tensor-like type and whether it is a
    homogeneous list of tensor-like values; the source asks both with
    [isSubtypeOf], against [TensorType::get()] and [ListType::ofTensors()].
    So a type is a subtype of another when both are tensor-like, whatever
    their flags, when both are lists and the element types are so related,
    or when they are the same type. *)
Fixpoint isSubtypeOf (tp rhs : TypePtr) : bool :=
  match tp, rhs with
  | TensorType _, TensorType _ => true
  | ListType elem, ListType elem' => isSubtypeOf elem elem'
  | _, _ => bool_decide (tp = rhs)
  end.

(** ** Values, nodes, blocks *)

(** A [Value*] is identified by its [unique()] number. *)
Definition Value := nat.

(** The node kinds the pass distinguishes; [other_kind] is the open-ended
    rest. *)
Inductive Symbol :=
| prim_AutogradAdd
| prim_AutogradZero
| prim_profile
| prim_BailOut
| prim_Guard
| prim_If
| prim_AutogradAnyNonZero
| prim_Constant
| prim_Param
| aten_add
| other_kind (name : string).

#[global] Instance Symbol_eq_dec : EqDecision Symbol.
Proof. solve_decision. Defined.

(** A node: its identity ([nid] stands for the address of the [Node]
    object), kind, input values, output values with their types, nested
    blocks, and the integer attribute of a constant.  A block: its nodes in
    program order and its return values ([block->outputs()]). *)
Inductive Node := mkNode {
  nid : nat;
  kind : Symbol;
  inputs : list Value;
  outputs : list (Value * TypePtr);
  blocks : list Block;
  ival : option Z }
with Block := mkBlock {
  bnodes : list Node;
  breturns : list Value }.

Definition out_values (n : Node) : list Value := (outputs n).*1.

(** All nodes of a node list, nested ones included, each node followed by
    the nodes of its blocks (pre-order). *)
Fixpoint flatten_node (n : Node) : list Node :=
  n :: concat (map (fun b => concat (map flatten_node (bnodes b))) (blocks n)).

Definition flatten (ns : list Node) : list Node := concat (map flatten_node ns).

(** The values defined by the nodes of a list, top level only, and nested
    ones included. *)
Definition defs (ns : list Node) : list Value := concat (map out_values ns).
Definition all_defs (ns : list Node) : list Value := defs (flatten ns).

(** ** The classification map *)

Abbreviation StateMap := (gmap Value State).

(** [state[v]] read as an rvalue: the stored classification, or, for a key
    without an entry, the value-initialised [State()] that [operator[]]
    inserts. *)
Definition classify (st : StateMap) (v : Value) : State :=
  default State_value_init (st !! v).

(** The map after the read [state[v]]: a missing key has been inserted. *)
Definition touch (st : StateMap) (v : Value) : StateMap :=
  match st !! v with
  | Some _ => st
  | None => <[v := State_value_init]> st
  end.

(** [std::all_of(vs.begin(), vs.end(), [&](Value* v) { return state[v] == s; })]:
    the result, and the map after the reads; the scan stops at the first
    value that fails the test. *)
Fixpoint all_of_state (s : State) (vs : list Value) (st : StateMap) : bool * StateMap :=
  match vs with
  | [] => (true, st)
  | v :: vs' =>
      if decide (classify st v = s) then all_of_state s vs' (touch st v)
      else (false, touch st v)
  end.

(** ** The Initializer *)

(** The classification the first loop gives to an input of type [tp]. *)
Definition input_state (tp : TypePtr) : State :=
  match cast_TensorType tp with
  | Some (Some true) => Zero
  | Some (Some false) => Nonzero
  | Some None => Unknown
  | None =>
      if isSubtypeOf tp TensorType_get || isSubtypeOf tp ListType_ofTensors
      then Nonzero else Unknown
  end.

(** [for (Value* input : g.inputs()) { ... state[input] = ...; }] *)
Definition init_state (ins : list (Value * TypePtr)) : StateMap :=
  foldl (fun st i => <[i.1 := input_state i.2]> st) ∅ ins.

(** The classification [prim::BailOut] and [prim::Guard] derive from the
    tensor type of their output. *)
Definition guard_state (undefined : option bool) : State :=
  match undefined with
  | Some true => Zero
  | Some false => Nonzero
  | None => Unknown
  end.

(** ** Graphs *)

(** A graph: its inputs with their types, its nodes in program order, its
    outputs, the number [Graph::next_unique_] gives to the next value, and
    the identity the next allocated node gets. *)
Record Graph := mkGraph {
  g_inputs : list (Value * TypePtr);
  g_nodes : list Node;
  g_outputs : list Value;
  next_unique : nat;
  next_nid : nat }.

(** The pass in the middle of its second loop: the classification map, and
    the graph split at the iterator [it]: [p_before] are the nodes before
    [*it], [p_after] is [*it] followed by the nodes after it. *)
Record Pass := mkPass {
  p_state : StateMap;
  p_inputs : list (Value * TypePtr);
  p_before : list Node;
  p_after : list Node;
  p_outputs : list Value;
  p_unique : nat;
  p_nid : nat }.

Definition p_nodes (p : Pass) : list Node := p_before p ++ p_after p.

Definition graph_of (p : Pass) : Graph :=
  mkGraph (p_inputs p) (p_nodes p) (p_outputs p) (p_unique p) (p_nid p).

(** ** The monad of the pass

    A computation reads and updates the [Pass], may throw (a failed
    [AT_ASSERT] or an out-of-range [at]), and records the graph after each
    mutation it performs, in the order of the mutations. *)
Definition M (A : Type) : Type := Pass -> option (A * Pass * list Pass).

Definition ret {A} (a : A) : M A := fun p => Some (a, p, []).

Definition bind {A B} (m : M A) (f : A -> M B) : M B :=
  fun p =>
    match m p with
    | None => None
    | Some (a, p1, l1) =>
        match f a p1 with
        | None => None
        | Some (b, p2, l2) => Some (b, p2, l1 ++ l2)
        end
    end.

Definition throw {A} : M A := fun _ => None.

Definition lift {A} (o : option A) : M A :=
  fun p => match o with Some a => Some (a, p, []) | None => None end.

(** A step that changes the classification map only. *)
Definition update_state (f : StateMap -> StateMap) : M unit :=
  fun p => Some (tt, mkPass (f (p_state p)) (p_inputs p) (p_before p) (p_after p)
                       (p_outputs p) (p_unique p) (p_nid p), []).

(** A graph mutation: the graph it leaves is recorded. *)
Definition mutate (f : Pass -> Pass) : M unit :=
  fun p => Some (tt, f p, [f p]).

Declare Scope pass_scope.
Delimit Scope pass_scope with pass.
Notation "'let*' x := m 'in' k" := (bind m (fun x => k))
  (at level 10, x name, m at level 100, k at level 200) : pass_scope.
Notation "m >> k" := (bind m (fun _ => k))
  (at level 100, k at level 200, right associativity) : pass_scope.
Open Scope pass_scope.

(** [for (x : xs) body(x)] *)
Fixpoint for_each {A} (xs : list A) (body : A -> M unit) : M unit :=
  match xs with
  | [] => ret tt
  | x :: xs' => body x >> for_each xs' body
  end.

(** ** Reads *)

(** [*it] *)
Definition current : M Node :=
  fun p => match p_after p with n :: _ => Some (n, p, []) | [] => None end.

(** [n->input(i)], [n->outputs().at(i)], [n->blocks().at(i)],
    [b->outputs().at(i)]: out of range throws. *)
Definition input (n : Node) (i : nat) : M Value := lift (inputs n !! i).
Definition output_at (n : Node) (i : nat) : M (Value * TypePtr) := lift (outputs n !! i).
Definition block_at (n : Node) (i : nat) : M Block := lift (blocks n !! i).
Definition return_at (b : Block) (i : nat) : M Value := lift (breturns b !! i).

(** [n->output()]: asserts that the node has exactly one output. *)
Definition output (n : Node) : M (Value * TypePtr) :=
  match outputs n with
  | [o] => ret o
  | _ => throw
  end.

(** [state[v]] read: yields the classification and leaves the entry. *)
Definition read_state (v : Value) : M State :=
  fun p => Some (classify (p_state p) v,
                 mkPass (touch (p_state p) v) (p_inputs p) (p_before p) (p_after p)
                        (p_outputs p) (p_unique p) (p_nid p), []).

(** [state[v] = s] *)
Definition set_state (v : Value) (s : State) : M unit :=
  update_state (fun st => <[v := s]> st).

Definition all_of (s : State) (vs : list Value) : M bool :=
  fun p => let r := all_of_state s vs (p_state p) in
    Some (r.1, mkPass r.2 (p_inputs p) (p_before p) (p_after p)
                      (p_outputs p) (p_unique p) (p_nid p), []).

(** [v->node()], as far as the pass looks at it: the kind and the inputs of
    the node that defines [v] (the [prim::Param] node for a graph input). *)
Definition producer_in (S0 : list Value) (ns : list Node) (v : Value)
    : option (Symbol * list Value) :=
  if bool_decide (v ∈ S0) then Some (prim_Param, [])
  else match find (fun m => bool_decide (v ∈ out_values m)) (flatten ns) with
       | Some m => Some (kind m, inputs m)
       | None => None
       end.

Definition producer (p : Pass) (v : Value) : option (Symbol * list Value) :=
  producer_in (p_inputs p).*1 (p_nodes p) v.

Definition value_node (v : Value) : M (Symbol * list Value) :=
  fun p => lift (producer p v) p.

(** ** Graph mutations *)

(** Modelled from the spec: the mutation primitives of the host graph
    ([replaceAllUsesWith], [destroyCurrent], [insertConstant], [create],
    [insertNode], [insertAfter], [addInput], [setType], [moveBefore]) are
    defined outside specialize_autogradzero.cpp.  The spec asks of them:
    insert-node-before/after a given node, replace-all-uses-of-value over
    every recorded consumer edge, move-node-before, delete-node,
    construct-constant-producer-node and construct-ordinary-op-node. *)

Definition subst_value (old new v : Value) : Value :=
  if decide (v = old) then new else v.

(** Every use of [old] in the node, as an input of the node or of a node
    nested in it or as a return value of one of its blocks, becomes [new]. *)
Fixpoint subst_node (old new : Value) (n : Node) : Node :=
  mkNode (nid n) (kind n) (map (subst_value old new) (inputs n)) (outputs n)
    (map (fun b => mkBlock (map (subst_node old new) (bnodes b))
                           (map (subst_value old new) (breturns b)))
         (blocks n))
    (ival n).

Definition subst_nodes (old new : Value) (ns : list Node) : list Node :=
  map (subst_node old new) ns.

(** The graph after [old->replaceAllUsesWith(new)]. *)
Definition rauw_pass (old new : Value) (p : Pass) : Pass :=
  mkPass (p_state p) (p_inputs p)
         (subst_nodes old new (p_before p)) (subst_nodes old new (p_after p))
         (map (subst_value old new) (p_outputs p)) (p_unique p) (p_nid p).

(** [old->replaceAllUsesWith(new)] *)
Definition replaceAllUsesWith (old new : Value) : M unit :=
  mutate (rauw_pass old new).

(** [it.destroyCurrent()]: the iterator steps back and the node it was on
    is destroyed; with the [++it] of the loop, the node that followed the
    destroyed one is the next to be visited. *)
Definition destroyCurrent : M unit :=
  mutate (fun p =>
    mkPass (p_state p) (p_inputs p) (p_before p) (tail (p_after p))
           (p_outputs p) (p_unique p) (p_nid p)).

(** The [++it] of the loop after a node that was kept. *)
Definition next : M unit :=
  fun p =>
    match p_after p with
    | n :: rest =>
        Some (tt, mkPass (p_state p) (p_inputs p) (p_before p ++ [n]) rest
                         (p_outputs p) (p_unique p) (p_nid p), [])
    | [] => None
    end.

(** [g->create(k, num_outputs)]: a new node of kind [k], without inputs,
    with [num_outputs] new values of the unrefined tensor type; it is not
    yet in the graph. *)
Definition create (k : Symbol) (num_outputs : nat) (attr : option Z) : M Node :=
  fun p =>
    Some (mkNode (p_nid p) k []
                 (map (fun v => (v, TensorType_get)) (seq (p_unique p) num_outputs))
                 [] attr,
          mkPass (p_state p) (p_inputs p) (p_before p) (p_after p) (p_outputs p)
                 (num_outputs + p_unique p) (S (p_nid p)), []).

(** [g->insertNode(m)] under [WithInsertPoint guard(n)] with [n] the current
    node: [m] is inserted just before the current node. *)
Definition insertNode (m : Node) : M unit :=
  mutate (fun p =>
    mkPass (p_state p) (p_inputs p) (p_before p ++ [m]) (p_after p)
           (p_outputs p) (p_unique p) (p_nid p)).

(** [m->insertAfter(n)] with [n] the current node. *)
Definition insertAfter (m : Node) : M unit :=
  mutate (fun p =>
    mkPass (p_state p) (p_inputs p) (p_before p)
           (match p_after p with n :: rest => n :: m :: rest | [] => [] end)
           (p_outputs p) (p_unique p) (p_nid p)).

Definition set_output_type (v : Value) (tp : TypePtr) (o : Value * TypePtr) : Value * TypePtr :=
  if decide (o.1 = v) then (v, tp) else o.

Definition modify_node (id : nat) (f : Node -> Node) (ns : list Node) : list Node :=
  map (fun m => if decide (nid m = id) then f m else m) ns.

Definition modify (id : nat) (f : Node -> Node) : M unit :=
  mutate (fun p =>
    mkPass (p_state p) (p_inputs p) (modify_node id f (p_before p))
           (modify_node id f (p_after p)) (p_outputs p) (p_unique p) (p_nid p)).

(** [m->addInput(v)], for a node [m] of the graph's top level. *)
Definition addInput (m : Node) (v : Value) : M unit :=
  modify (nid m) (fun m' =>
    mkNode (nid m') (kind m') (inputs m' ++ [v]) (outputs m') (blocks m') (ival m')).

(** [v->setType(tp)], for an output [v] of node [m] of the top level. *)
Definition setType (m : Node) (v : Value) (tp : TypePtr) : M unit :=
  modify (nid m) (fun m' =>
    mkNode (nid m') (kind m') (inputs m') (map (set_output_type v tp) (outputs m'))
           (blocks m') (ival m')).

(** [g->insertConstant(1)]: a constant node with an integer output, inserted
    at the insertion point; yields the output. *)
Definition insertConstant (c : Z) : M Value :=
  let* m := create prim_Constant 1 (Some c) in
  let* o := output m in
  let m' := mkNode (nid m) (kind m) (inputs m) [(o.1, IntType)] (blocks m) (ival m) in
  insertNode m' >> ret o.1.

(** [block_node->moveBefore(n)] for the first node of block 0 of the current
    node [n]: it leaves the block and is placed just before [n]. *)
Definition moveBefore_first : M unit :=
  fun p =>
    match p_after p with
    | n :: rest =>
        match blocks n with
        | b :: bs =>
            match bnodes b with
            | m :: ms =>
                let n' := mkNode (nid n) (kind n) (inputs n) (outputs n)
                                 (mkBlock ms (breturns b) :: bs) (ival n) in
                let p' := mkPass (p_state p) (p_inputs p) (p_before p ++ [m])
                                 (n' :: rest) (p_outputs p) (p_unique p) (p_nid p) in
                Some (tt, p', [p'])
            | [] => None
            end
        | [] => None
        end
    | [] => None
    end.

(** [for (auto it = body->nodes().begin(); it != body->nodes().end();)
      { auto block_node = *it++; block_node->moveBefore(n); }],
    for a body of [k] nodes. *)
Fixpoint hoist (k : nat) : M unit :=
  match k with
  | 0 => ret tt
  | S k' => moveBefore_first >> hoist k'
  end.

(** ** The Classifier/Dispatcher: one iteration of the second loop *)

(** [prim::AutogradAdd] *)
Definition visit_AutogradAdd (n : Node) : M unit :=
  let* a := input n 0 in
  let* b := input n 1 in
  let* sa := read_state a in
  if decide (sa = Zero) then
    let* o := output n in
    replaceAllUsesWith o.1 b >> destroyCurrent
  else
    let* sb := read_state b in
    if decide (sb = Zero) then
      let* o := output n in
      replaceAllUsesWith o.1 a >> destroyCurrent
    else
      let* both :=
        (let* sa' := read_state a in
         if decide (sa' = Nonzero) then
           let* sb' := read_state b in ret (bool_decide (sb' = Nonzero))
         else ret false) in
      if both then
        let* cOne := insertConstant 1 in
        let* add_node := create aten_add 1 None in
        insertNode add_node >>
        addInput add_node a >>
        addInput add_node b >>
        addInput add_node cOne >>
        let* add_output := output add_node in
        let* o := output n in
        setType add_node add_output.1 o.2 >>
        set_state add_output.1 Nonzero >>
        let* o' := output n in
        replaceAllUsesWith o'.1 add_output.1 >>
        destroyCurrent
      else
        let* o := output n in
        set_state o.1 Unknown >> next.

(** [prim::BailOut] and [prim::Guard]: [expect<TensorType>()] asserts that
    the output has a tensor type. *)
Definition visit_guard (n : Node) : M unit :=
  let* o := output n in
  match cast_TensorType o.2 with
  | Some u => set_state o.1 (guard_state u) >> next
  | None => throw
  end.

(** The loop [for (auto o : n->outputs()) state[o] = State::Unknown;] *)
Definition mark_outputs_Unknown (n : Node) : M unit :=
  for_each (out_values n) (fun o => set_state o Unknown).

(** The loop over [i < n->outputs().size()] of the all-nonzero case; [n] and
    its body are read from the graph at each iteration. *)
Definition replace_output_with_return (i : nat) : M unit :=
  let* n := current in
  let* body := block_at n 0 in
  let* o := output_at n i in
  let* r := return_at body i in
  replaceAllUsesWith o.1 r >>
  let* n' := current in
  let* body' := block_at n' 0 in
  let* r' := return_at body' i in
  set_state r' Nonzero.

(** The part of [case prim::If] that handles a lowered GradOf block; yields
    [true] when the case was left by one of its two [break]s. *)
Definition visit_GradOf (n : Node) (guards : list Value) : M bool :=
  let* all_zeros := all_of Zero guards in
  let* all_nonzeros := all_of Nonzero guards in
  if all_zeros then
    let* z := create prim_AutogradZero 1 None in
    insertAfter z >>
    let* zero := output z in
    set_state zero.1 Zero >>
    for_each (out_values n) (fun o => replaceAllUsesWith o zero.1) >>
    destroyCurrent >> ret true
  else if all_nonzeros then
    let* body := block_at n 0 in
    hoist (length (bnodes body)) >>
    for_each (seq 0 (length (outputs n))) replace_output_with_return >>
    destroyCurrent >> ret true
  else ret false.

(** [prim::If] *)
Definition visit_If (n : Node) : M unit :=
  let* c := input n 0 in
  let* if_input := value_node c in
  let* left :=
    (if decide (if_input.1 = prim_AutogradAnyNonZero)
     then visit_GradOf n if_input.2 else ret false) in
  if left then ret tt else mark_outputs_Unknown n >> next.

(** The body of the second loop together with its [++it]. *)
Definition visit : M unit :=
  let* n := current in
  match kind n with
  | prim_AutogradAdd => visit_AutogradAdd n
  | prim_AutogradZero =>
      let* o := output n in set_state o.1 Zero >> next
  | prim_profile =>
      match inputs n with
      | [] => next
      | _ :: _ => let* o := output n in set_state o.1 Unknown >> next
      end
  | prim_BailOut => visit_guard n
  | prim_Guard => visit_guard n
  | prim_If => visit_If n
  | _ => mark_outputs_Unknown n >> next
  end.

(** ** The pass *)

Inductive Outcome :=
| Finished (p : Pass) (log : list Pass)
| Raised
| OutOfFuel.

(** [for (auto it = g.nodes().begin(); it != g.nodes().end(); ++it)] *)
Fixpoint run (fuel : nat) (p : Pass) : Outcome :=
  match p_after p with
  | [] => Finished p []
  | _ :: _ =>
      match fuel with
      | 0 => OutOfFuel
      | S fuel' =>
          match visit p with
          | None => Raised
          | Some (_, p', l) =>
              match run fuel' p' with
              | Finished q l' => Finished q (l ++ l')
              | o => o
              end
          end
      end
  end.

(** The state of the pass when the second loop starts. *)
Definition start (g : Graph) : Pass :=
  mkPass (init_state (g_inputs g)) (g_inputs g) [] (g_nodes g) (g_outputs g)
         (next_unique g) (next_nid g).

(** A conditional may leave one node (the zero producer) in its place, to
    be visited next; no other node takes more than one iteration. *)
Definition weight (n : Node) : nat :=
  if decide (kind n = prim_If) then 2 else 1.

Definition iterations (ns : list Node) : nat := sum_list (map weight ns).

Definition specializeAutogradZero (g : Graph) : Outcome :=
  run (iterations (g_nodes g)) (start g).

Close Scope pass_scope.

(** ** The iterations of the loop *)

(** The pass [k] iterations of the loop after [p]: the state in which the
    loop begins its next iteration, or ends.  There is none when one of the
    [k] iterations throws, or when the loop has ended before. *)
Fixpoint iterate (k : nat) (p : Pass) : option Pass :=
  match k with
  | 0 => Some p
  | S k' =>
      match visit p with
      | Some (_, p', _) => iterate k' p'
      | None => None
      end
  end.

(** ** Uses, identities and well-formedness *)

(** The uses of values by the nodes of a list: the inputs of every node,
    nested ones included, and the return values of every block. *)
Definition node_uses (n : Node) : list Value :=
  inputs n ++ concat (map breturns (blocks n)).

Definition uses (ns : list Node) : list Value := concat (map node_uses (flatten ns)).

(** All uses in the graph: those of its nodes and its outputs. *)
Definition p_uses (p : Pass) : list Value := uses (p_nodes p) ++ p_outputs p.

(** The identities of all nodes of the graph. *)
Definition nids (ns : list Node) : list nat := map nid (flatten ns).

(** A sequence of nodes is scoped when every node uses only values of the
    scope it is in: the values defined before the sequence and by the nodes
    before it in the sequence; [check] examines one node in its scope and
    [rets] are the values read at the end of the sequence. *)
Fixpoint scoped_seq (check : list Value -> Node -> bool)
    (sc : list Value) (ns : list Node) (rets : list Value) : bool :=
  match ns with
  | [] => forallb (fun v => bool_decide (v ∈ sc)) rets
  | n :: ns' => check sc n && scoped_seq check (sc ++ out_values n) ns' rets
  end.

Fixpoint scoped_node (sc : list Value) (n : Node) : bool :=
  forallb (fun v => bool_decide (v ∈ sc)) (inputs n) &&
  forallb (fun b => scoped_seq scoped_node sc (bnodes b) (breturns b)) (blocks n).

(** Defs precede uses, in program order. *)
Definition scoped (p : Pass) : bool :=
  scoped_seq scoped_node (p_inputs p).*1 (p_nodes p) (p_outputs p).

(** Values and nodes are objects of the graph: no two definitions give the
    same value, no two nodes share an identity, and the numbers the graph
    hands out next are not in use. *)
Definition distinct (p : Pass) : bool :=
  bool_decide (NoDup ((p_inputs p).*1 ++ all_defs (p_nodes p))) &&
  bool_decide (NoDup (nids (p_nodes p))) &&
  forallb (fun v => bool_decide (v < p_unique p)) ((p_inputs p).*1 ++ all_defs (p_nodes p)) &&
  forallb (fun i => bool_decide (i < p_nid p)) (nids (p_nodes p)).

Definition well_formed (p : Pass) : bool := scoped p && distinct p.

(** ** Notions used in the statements and proofs *)

(** Induction over a node and the nodes nested in its blocks. *)
Section Node_nested_ind.
Variable P : Node -> Prop.
Hypothesis step : forall id k ins outs bs a,
  Forall (fun b => Forall P (bnodes b)) bs -> P (mkNode id k ins outs bs a).

Fixpoint Node_nested_ind (n : Node) : P n :=
  match n with
  | mkNode id k ins outs bs a =>
      step id k ins outs bs a
        ((fix blocks_ind (bs : list Block) : Forall (fun b => Forall P (bnodes b)) bs :=
            match bs with
            | [] => List.Forall_nil _
            | b :: bs' =>
                List.Forall_cons _ _ _
                  ((fix nodes_ind (ns : list Node) : Forall P ns :=
                      match ns with
                      | [] => List.Forall_nil _
                      | m :: ns' => List.Forall_cons _ _ _ (Node_nested_ind m) (nodes_ind ns')
                      end) (bnodes b))
                  (blocks_ind bs')
            end) bs)
  end.
End Node_nested_ind.

(** The nodes of the blocks of a node. *)
Definition nested (n : Node) : list Node := concat (map bnodes (blocks n)).

(** The conditions of [well_formed], for a graph given by its input values,
    nodes, outputs and counters. *)
Definition WF (S0 : list Value) (ns : list Node) (outs : list Value) (u i : nat) : Prop :=
  scoped_seq scoped_node S0 ns outs = true /\
  NoDup (S0 ++ all_defs ns) /\
  NoDup (nids ns) /\
  (forall v, v ∈ S0 ++ all_defs ns -> v < u) /\
  (forall j, j ∈ nids ns -> j < i).

(** [Kept c prod n os s]: with the classifications [c] and the defining
    nodes [prod], the iteration at node [n] leaves the graph as it is and
    gives the classification [s] to the values [os]. *)
Inductive Kept (c : Value -> State) (prod : Value -> option (Symbol * list Value))
    (n : Node) : list Value -> State -> Prop :=
| Kept_AutogradAdd a b more o ty :
    kind n = prim_AutogradAdd -> inputs n = a :: b :: more -> outputs n = [(o, ty)] ->
    c a <> Zero -> c b <> Zero -> ~ (c a = Nonzero /\ c b = Nonzero) ->
    Kept c prod n [o] Unknown
| Kept_AutogradZero o ty :
    kind n = prim_AutogradZero -> outputs n = [(o, ty)] ->
    Kept c prod n [o] Zero
| Kept_counter :
    kind n = prim_profile -> inputs n = [] ->
    Kept c prod n [] Unknown
| Kept_profile o ty :
    kind n = prim_profile -> inputs n <> [] -> outputs n = [(o, ty)] ->
    Kept c prod n [o] Unknown
| Kept_guard o undefined :
    kind n = prim_BailOut \/ kind n = prim_Guard ->
    outputs n = [(o, TensorType undefined)] ->
    Kept c prod n [o] (guard_state undefined)
| Kept_If_other cond more k gs :
    kind n = prim_If -> inputs n = cond :: more -> prod cond = Some (k, gs) ->
    k <> prim_AutogradAnyNonZero ->
    Kept c prod n (out_values n) Unknown
| Kept_If_mixed cond more gs :
    kind n = prim_If -> inputs n = cond :: more ->
    prod cond = Some (prim_AutogradAnyNonZero, gs) ->
    ~ Forall (fun v => c v = Zero) gs -> ~ Forall (fun v => c v = Nonzero) gs ->
    Kept c prod n (out_values n) Unknown
| Kept_other :
    kind n <> prim_AutogradAdd -> kind n <> prim_AutogradZero ->
    kind n <> prim_profile -> kind n <> prim_BailOut -> kind n <> prim_Guard ->
    kind n <> prim_If ->
    Kept c prod n (out_values n) Unknown.

(** The constant 1 and the [aten::add] node that the pass creates when the
    graph hands out the value number [u] and the node identity [i] next. *)
Definition cOne_node (u i : nat) : Node :=
  mkNode i prim_Constant [] [(u, IntType)] [] (Some 1%Z).

Definition add_node (u i : nat) (ins : list Value) (ty : TypePtr) : Node :=
  mkNode (S i) aten_add ins [(S u, ty)] [] None.

(** The replacements [o -> w] of the list [sigma], applied from left to
    right, on nodes, on values and on the graph of a pass. *)
Definition subst_seq_nodes (sigma : list (Value * Value)) (ns : list Node) : list Node :=
  foldl (fun ns ow => subst_nodes ow.1 ow.2 ns) ns sigma.

Definition subst_seq_values (sigma : list (Value * Value)) (vs : list Value) : list Value :=
  foldl (fun vs ow => map (subst_value ow.1 ow.2) vs) vs sigma.

Definition rauw_seq (sigma : list (Value * Value)) (p : Pass) : Pass :=
  foldl (fun q ow => rauw_pass ow.1 ow.2 q) p sigma.

(** The passes after each application of [f] to the elements of a list. *)
Fixpoint trace {A} (f : Pass -> A -> Pass) (p : Pass) (xs : list A) : list Pass :=
  match xs with
  | [] => []
  | x :: xs' => f p x :: trace f (f p x) xs'
  end.

(** The [prim::AutogradZero] node that the pass creates when the graph
    hands out the value number [u] and the node identity [i] next. *)
Definition zero_node (u i : nat) : Node :=
  mkNode i prim_AutogradZero [] [(u, TensorType_get)] [] None.

(** The graph after [it.destroyCurrent()]. *)
Definition without_current (p : Pass) : Pass :=
  mkPass (p_state p) (p_inputs p) (p_before p) (tail (p_after p))
         (p_outputs p) (p_unique p) (p_nid p).

(** Node [n] with the nodes of its first block exchanged for [ms]. *)
Definition with_body (n : Node) (ms : list Node) : Node :=
  mkNode (nid n) (kind n) (inputs n) (outputs n)
    (match blocks n with
     | b :: bs => mkBlock ms (breturns b) :: bs
     | [] => []
     end) (ival n).

(** The graphs after each [moveBefore] of the hoisting loop. *)
Fixpoint hoist_log (st : StateMap) (ins : list (Value * TypePtr)) (bef : list Node)
    (n : Node) (rest : list Node) (outs : list Value) (u i : nat)
    (ms : list Node) : list Pass :=
  match ms with
  | [] => []
  | m :: ms' =>
      mkPass st ins (bef ++ [m]) (with_body n ms' :: rest) outs u i ::
      hoist_log st ins (bef ++ [m]) n rest outs u i ms'
  end.

(** The graphs after each replacement of an output by a return value. *)
Fixpoint replace_log (st : StateMap) (ins : list (Value * TypePtr)) (bef : list Node)
    (n : Node) (rest : list Node) (outs : list Value) (u i : nat)
    (sigma : list (Value * Value)) : list Pass :=
  match sigma with
  | [] => []
  | ow :: sigma' =>
      mkPass st ins bef (n :: subst_nodes ow.1 ow.2 rest)
             (map (subst_value ow.1 ow.2) outs) u i ::
      replace_log (<[ow.2 := Nonzero]> st) ins bef n (subst_nodes ow.1 ow.2 rest)
                  (map (subst_value ow.1 ow.2) outs) u i sigma'
  end.

(** The pairs (output, return value) of the positions [j], ..., [j + k - 1]. *)
Definition pairs_from (n : Node) (rs : list Value) (j k : nat) : list (Value * Value) :=
  zip (take k (drop j (out_values n))) (take k (drop j rs)).

(** The graphs recorded by the downgrade of an add, see [visit_add]. *)
Definition add_log (st1 : StateMap) (ins : list (Value * TypePtr)) (bef : list Node)
    (n : Node) (rest : list Node) (outs : list Value) (u i : nat)
    (a b o : Value) (ty : TypePtr) : list Pass :=
  let st2 := <[S u := Nonzero]> st1 in
  let grown k := bef ++ [cOne_node u i; k] in
  let final := grown (add_node u i [a; b; u] ty) in
  [mkPass st1 ins (bef ++ [cOne_node u i]) (n :: rest) outs (S u) (S i);
   mkPass st1 ins (grown (add_node u i [] TensorType_get)) (n :: rest) outs
          (S (S u)) (S (S i));
   mkPass st1 ins (grown (add_node u i [a] TensorType_get)) (n :: rest) outs
          (S (S u)) (S (S i));
   mkPass st1 ins (grown (add_node u i [a; b] TensorType_get)) (n :: rest) outs
          (S (S u)) (S (S i));
   mkPass st1 ins (grown (add_node u i [a; b; u] TensorType_get)) (n :: rest) outs
          (S (S u)) (S (S i));
   mkPass st1 ins final (n :: rest) outs (S (S u)) (S (S i));
   mkPass st2 ins (subst_nodes o (S u) final) (subst_nodes o (S u) (n :: rest))
          (map (subst_value o (S u)) outs) (S (S u)) (S (S i));
   mkPass st2 ins (subst_nodes o (S u) final) (subst_nodes o (S u) rest)
          (map (subst_value o (S u)) outs) (S (S u)) (S (S i))].

(** [Step p p' log]: the iteration at [p] ends at [p'] after the mutations
    that leave the graphs [log].  The five outcomes: the node is kept; an
    add with a [Zero] operand is dropped; an add of two [Nonzero] operands
    becomes an ordinary add; a conditional whose guards are all [Zero]
    becomes one [prim::AutogradZero] node; a conditional whose guards are
    all [Nonzero] is replaced by its first block. *)
Inductive Step : Pass -> Pass -> list Pass -> Prop :=
| Step_kept st ins bef n rest outs u i os s st' :
    Kept (classify st) (producer (mkPass st ins bef (n :: rest) outs u i)) n os s ->
    (forall v, classify st' v = if decide (v ∈ os) then s else classify st v) ->
    Step (mkPass st ins bef (n :: rest) outs u i)
         (mkPass st' ins (bef ++ [n]) rest outs u i) []
| Step_forward st ins bef n rest outs u i a b more o ty w st' :
    kind n = prim_AutogradAdd -> inputs n = a :: b :: more -> outputs n = [(o, ty)] ->
    (classify st a = Zero /\ w = b) \/
    (classify st a <> Zero /\ classify st b = Zero /\ w = a) ->
    (forall v, classify st' v = classify st v) ->
    Step (mkPass st ins bef (n :: rest) outs u i)
         (mkPass st' ins (subst_nodes o w bef) (subst_nodes o w rest)
                 (map (subst_value o w) outs) u i)
         [mkPass st' ins (subst_nodes o w bef) (subst_nodes o w (n :: rest))
                 (map (subst_value o w) outs) u i;
          mkPass st' ins (subst_nodes o w bef) (subst_nodes o w rest)
                 (map (subst_value o w) outs) u i]
| Step_add st ins bef n rest outs u i a b more o ty st1 :
    kind n = prim_AutogradAdd -> inputs n = a :: b :: more -> outputs n = [(o, ty)] ->
    classify st a = Nonzero -> classify st b = Nonzero ->
    (forall v, classify st1 v = classify st v) ->
    Step (mkPass st ins bef (n :: rest) outs u i)
         (mkPass (<[S u := Nonzero]> st1) ins
                 (subst_nodes o (S u) (bef ++ [cOne_node u i; add_node u i [a; b; u] ty]))
                 (subst_nodes o (S u) rest)
                 (map (subst_value o (S u)) outs) (S (S u)) (S (S i)))
         (add_log st1 ins bef n rest outs u i a b o ty)
| Step_zeros st ins bef n rest outs u i cond more gs st1 :
    kind n = prim_If -> inputs n = cond :: more ->
    producer (mkPass st ins bef (n :: rest) outs u i) cond =
      Some (prim_AutogradAnyNonZero, gs) ->
    Forall (fun v => classify st v = Zero) gs ->
    (forall v, classify st1 v = classify st v) ->
    Step (mkPass st ins bef (n :: rest) outs u i)
         (without_current
            (rauw_seq (map (fun o => (o, u)) (out_values n))
               (mkPass (<[u := Zero]> st1) ins bef (n :: zero_node u i :: rest) outs
                       (S u) (S i))))
         (mkPass st1 ins bef (n :: zero_node u i :: rest) outs (S u) (S i) ::
          trace (fun q ow => rauw_pass ow.1 ow.2 q)
            (mkPass (<[u := Zero]> st1) ins bef (n :: zero_node u i :: rest) outs
                    (S u) (S i))
            (map (fun o => (o, u)) (out_values n)) ++
          [without_current
             (rauw_seq (map (fun o => (o, u)) (out_values n))
                (mkPass (<[u := Zero]> st1) ins bef (n :: zero_node u i :: rest) outs
                        (S u) (S i)))])
| Step_hoist st ins bef n rest outs u i cond more gs ms rs bs st1 :
    kind n = prim_If -> inputs n = cond :: more ->
    producer (mkPass st ins bef (n :: rest) outs u i) cond =
      Some (prim_AutogradAnyNonZero, gs) ->
    ~ Forall (fun v => classify st v = Zero) gs ->
    Forall (fun v => classify st v = Nonzero) gs ->
    blocks n = mkBlock ms rs :: bs ->
    length (outputs n) <= length rs ->
    (forall v, classify st1 v = classify st v) ->
    Step (mkPass st ins bef (n :: rest) outs u i)
         (mkPass (foldl (fun st ow => <[ow.2 := Nonzero]> st) st1
                    (pairs_from n rs 0 (length (outputs n))))
                 ins (bef ++ ms)
                 (subst_seq_nodes (pairs_from n rs 0 (length (outputs n))) rest)
                 (subst_seq_values (pairs_from n rs 0 (length (outputs n))) outs) u i)
         (hoist_log st1 ins bef n rest outs u i ms ++
          replace_log st1 ins (bef ++ ms) (with_body n []) rest outs u i
            (pairs_from n rs 0 (length (outputs n))) ++
          [mkPass (foldl (fun st ow => <[ow.2 := Nonzero]> st) st1
                     (pairs_from n rs 0 (length (outputs n))))
                  ins (bef ++ ms)
                  (subst_seq_nodes (pairs_from n rs 0 (length (outputs n))) rest)
                  (subst_seq_values (pairs_from n rs 0 (length (outputs n))) outs) u i]).

(** ** A second run: the shape of the conditionals *)

(** The nodes that the pass treats by its default case. *)
Definition inert (n : Node) : bool :=
  match kind n with
  | prim_AutogradAdd | prim_AutogradZero | prim_profile
  | prim_BailOut | prim_Guard | prim_If => false
  | _ => true
  end.

(** The spec speaks of a canonical input graph and does not say what it
    is.  The condition under which a second run is shown to mutate nothing
    is this one, on the nodes the pass has yet to visit: the first block of
    a conditional consists of nodes of the default case and returns only
    values that these nodes define.  The examples at the end of the file
    show a second run that mutates when a first block has a node of another
    kind, or returns a value from outside. *)
Definition canonical_node (n : Node) : bool :=
  match kind n with
  | prim_If =>
      match blocks n with
      | b :: _ =>
          forallb inert (bnodes b) &&
          forallb (fun r => bool_decide (r ∈ defs (bnodes b))) (breturns b)
      | [] => true
      end
  | _ => true
  end.

(** A well-formed graph whose conditionals have such first blocks, at the
    iterator. *)
Definition canonical (p : Pass) : bool :=
  well_formed p && forallb canonical_node (p_after p).

(** The values the pass has classified ahead of the iteration that defines
    them: the output of a [prim::AutogradZero] node at the iterator. *)
Definition pending (p : Pass) : list Value :=
  match p_after p with
  | n :: _ => if decide (kind n = prim_AutogradZero) then out_values n else []
  | [] => []
  end.

(** [Replay ins bef st2]: a traversal that starts from the inputs [ins]
    keeps each node of [bef], whatever nodes follow, and has the
    classifications of [st2] after them. *)
Inductive Replay (ins : list (Value * TypePtr)) : list Node -> StateMap -> Prop :=
| Replay_nil : Replay ins [] (init_state ins)
| Replay_snoc bef st2 n os s st2' :
    Replay ins bef st2 ->
    (forall ext, Kept (classify st2) (producer_in ins.*1 (bef ++ n :: ext)) n os s) ->
    (forall v, classify st2' v = if decide (v ∈ os) then s else classify st2 v) ->
    Replay ins (bef ++ [n]) st2'.

(** The classifications [st2] know no more than [st1], except perhaps
    about the values [pend]. *)
Definition refines (pend : list Value) (st2 st1 : StateMap) : Prop :=
  forall v, v ∉ pend -> classify st2 v = classify st1 v \/ classify st2 v = Unknown.

(** The graph has the shape above, the nodes before the iterator replay,
    and the replay knows no more than the pass. *)
Definition Inv (p : Pass) : Prop :=
  canonical p = true /\
  exists st2,
    Replay (p_inputs p) (p_before p) st2 /\
    refines (pending p) st2 (p_state p).

(** ** The nodes of the graph the pass leaves *)

(** The kinds of the nodes that the pass allocates with [g.create] and
    [insertConstant]. *)
Definition created (n : Node) : bool :=
  match kind n with
  | prim_Constant | aten_add | prim_AutogradZero => true
  | _ => false
  end.

(** Node [m] is one of the nodes [F0], with the identity, the kind and the
    outputs it has there, or it was allocated when the graph had handed out
    the node identities below [i0] and is of one of the kinds above. *)
Definition from_graph (F0 : list Node) (i0 : nat) (m : Node) : Prop :=
  (exists m0, m0 ∈ F0 /\ nid m0 = nid m /\ kind m0 = kind m /\ outputs m0 = outputs m) \/
  (i0 <= nid m /\ created m = true).

(** The node has the operands, the outputs and the block that the case of
    its kind reads: two operands and one output for a guarded add, one
    output for a zero producer and for a profiled value, one output of a
    tensor type for a guard, a condition and a first block with a return
    value for each output for a conditional. *)
Definition shaped (n : Node) : bool :=
  match kind n with
  | prim_AutogradAdd =>
      bool_decide (2 <= length (inputs n)) && bool_decide (length (outputs n) = 1)
  | prim_AutogradZero => bool_decide (length (outputs n) = 1)
  | prim_profile =>
      match inputs n with
      | [] => true
      | _ :: _ => bool_decide (length (outputs n) = 1)
      end
  | prim_BailOut | prim_Guard =>
      match outputs n with
      | [(_, TensorType _)] => true
      | _ => false
      end
  | prim_If =>
      bool_decide (1 <= length (inputs n)) &&
      match blocks n with
      | b :: _ => bool_decide (length (outputs n) <= length (breturns b))
      | [] => false
      end
  | _ => true
  end.

(** ** Example graphs *)

(** A graph with a structurally absent input 0, two present inputs 1 and 2
    and an input 3 about which nothing is known; [ex_pass a b] is at the
    guarded add of [a] and [b], whose sum is squared. *)
Definition ex_inputs : list (Value * TypePtr) :=
  [(0, TensorType (Some true)); (1, TensorType (Some false));
   (2, TensorType (Some false)); (3, TensorType None)].

Definition ex_add (a b : Value) : Node :=
  mkNode 0 prim_AutogradAdd [a; b] [(4, TensorType None)] [] None.

Definition ex_mul (v w : Value) : Node :=
  mkNode 1 (other_kind "aten::mul") [v; v] [(w, TensorType None)] [] None.

Definition ex_pass (a b : Value) : Pass :=
  mkPass (init_state ex_inputs) ex_inputs [] [ex_add a b; ex_mul 4 5] [5] 6 2.

(** [ex_cond_pass k gs] is at a conditional whose condition is computed from
    [gs] by a node of kind [k]; its first block negates input 1. *)
Definition ex_test (k : Symbol) (gs : list Value) : Node :=
  mkNode 2 k gs [(4, BoolType)] [] None.

Definition ex_neg : Node :=
  mkNode 4 (other_kind "aten::neg") [1] [(6, TensorType None)] [] None.

Definition ex_cond : Node :=
  mkNode 3 prim_If [4] [(5, TensorType None)]
    [mkBlock [ex_neg] [6];
     mkBlock [mkNode 5 prim_AutogradZero [] [(7, TensorType None)] [] None] [7]] None.

Definition ex_cond_pass (k : Symbol) (gs : list Value) : Pass :=
  mkPass (<[4 := Unknown]> (init_state ex_inputs)) ex_inputs [ex_test k gs]
         [ex_cond; mkNode 1 (other_kind "aten::mul") [5; 5] [(8, TensorType None)] [] None]
         [8] 9 6.

Definition ex_graph : Graph :=
  mkGraph ex_inputs
    [ex_test prim_AutogradAnyNonZero [1; 2]; ex_cond;
     mkNode 0 prim_AutogradAdd [5; 2] [(8, TensorType None)] [] None;
     mkNode 1 prim_AutogradAdd [8; 0] [(9, TensorType None)] [] None]
    [9] 10 6.

(** [ex_at n] is at a node [n] that takes the place of the guarded add;
    [ex_leaf k ins ty] is such a node of kind [k], with one output of type
    [ty]. *)
Definition ex_at (n : Node) : Pass :=
  mkPass (init_state ex_inputs) ex_inputs [] [n; ex_mul 4 5] [5] 6 2.

Definition ex_leaf (k : Symbol) (ins : list Value) (ty : TypePtr) : Node :=
  mkNode 0 k ins [(4, ty)] [] None.

(** A conditional whose first block returns nothing although the node has
    an output, and the pass at it. *)
Definition ex_short_cond : Node :=
  mkNode 3 prim_If [4] [(5, TensorType None)]
    [mkBlock [ex_neg] [];
     mkBlock [mkNode 5 prim_AutogradZero [] [(7, TensorType None)] [] None] [7]] None.

Definition ex_short_pass : Pass :=
  mkPass (<[4 := Unknown]> (init_state ex_inputs)) ex_inputs
         [ex_test prim_AutogradAnyNonZero [1; 2]]
         [ex_short_cond;
          mkNode 1 (other_kind "aten::mul") [5; 5] [(8, TensorType None)] [] None]
         [8] 9 6.

(** A graph of three nodes of the default case, the second with a guarded
    add in a block. *)
Definition ex_inert_graph : Graph :=
  mkGraph ex_inputs
    [mkNode 0 (other_kind "aten::mul") [1; 2] [(4, TensorType None)] [] None;
     mkNode 1 (other_kind "prim::Loop") [4] [(5, TensorType None)]
       [mkBlock [mkNode 2 prim_AutogradAdd [0; 1] [(6, TensorType None)] [] None] [6]] None;
     mkNode 3 (other_kind "aten::neg") [5] [(7, TensorType None)] [] None]
    [7] 8 4.

(** A graph on which the pass collapses a conditional (second node), keeps
    the conditional on a comparison (fourth node) and keeps the guarded add
    of two values about which nothing is known (last node). *)
Definition ex_kept_graph : Graph :=
  mkGraph ex_inputs
    [ex_test prim_AutogradAnyNonZero [0];
     ex_cond;
     mkNode 0 (other_kind "aten::gt") [1; 2] [(8, BoolType)] [] None;
     mkNode 1 prim_If [8] [(9, TensorType None)] [mkBlock [] [1]; mkBlock [] [2]] None;
     mkNode 6 prim_AutogradAdd [9; 3] [(10, TensorType None)] [] None]
    [10] 11 7.

(** * Properties *)

(** ** Reading the classification map *)

Lemma classify_touch st v w : classify (touch st v) w = classify st w.
Proof.
  unfold classify, touch. destruct (st !! v) eqn:E; [done|].
  destruct (decide (v = w)) as [->|Hne].
  - by rewrite lookup_insert_eq, E.
  - by rewrite lookup_insert_ne.
Qed.

Lemma classify_insert st v s : classify (<[v := s]> st) v = s.
Proof. unfold classify. by rewrite lookup_insert_eq. Qed.

Lemma classify_insert_ne st v w s : v <> w -> classify (<[v := s]> st) w = classify st w.
Proof. intros. unfold classify. by rewrite lookup_insert_ne. Qed.

Lemma classify_missing st v : st !! v = None -> classify st v = Nonzero.
Proof. unfold classify. by intros ->. Qed.

Lemma all_of_state_classify s vs st w :
  classify (all_of_state s vs st).2 w = classify st w.
Proof.
  revert st. induction vs as [|v vs IH]; intros st; simpl; [done|].
  destruct (decide (classify st v = s)); simpl.
  - by rewrite IH, classify_touch.
  - by rewrite classify_touch.
Qed.

Lemma all_of_state_true s vs st :
  (all_of_state s vs st).1 = true <-> Forall (fun v => classify st v = s) vs.
Proof.
  revert st. induction vs as [|v vs IH]; intros st; simpl.
  - split; [constructor | done].
  - destruct (decide (classify st v = s)) as [E|E]; simpl.
    + rewrite IH, Forall_cons. split.
      * intros H. split; [done|]. eapply Forall_impl; [exact H|].
        intros w. simpl. by rewrite classify_touch.
      * intros [_ H]. eapply Forall_impl; [exact H|].
        intros w. simpl. by rewrite classify_touch.
    + rewrite Forall_cons. split; [done | by intros [? _]].
Qed.

(** ** Replacing the uses of a value *)

Lemma subst_node_nid o w n : nid (subst_node o w n) = nid n.
Proof. by destruct n. Qed.

Lemma subst_node_kind o w n : kind (subst_node o w n) = kind n.
Proof. by destruct n. Qed.

Lemma subst_node_outputs o w n : outputs (subst_node o w n) = outputs n.
Proof. by destruct n. Qed.

Lemma subst_node_inputs o w n :
  inputs (subst_node o w n) = map (subst_value o w) (inputs n).
Proof. by destruct n. Qed.

Lemma subst_node_out_values o w n : out_values (subst_node o w n) = out_values n.
Proof. unfold out_values. by rewrite subst_node_outputs. Qed.

Lemma flatten_node_subst o w n :
  flatten_node (subst_node o w n) = map (subst_node o w) (flatten_node n).
Proof.
  induction n as [id k ins outs bs a IH] using Node_nested_ind.
  simpl. f_equal.
  induction IH as [|b bs Hb _ IHbs]; simpl; [done|].
  rewrite map_app, IHbs. f_equal.
  clear IHbs. induction Hb as [|m ms Hm _ IHms]; simpl; [done|].
  by rewrite map_app, Hm, IHms.
Qed.

Lemma flatten_subst o w ns :
  flatten (subst_nodes o w ns) = map (subst_node o w) (flatten ns).
Proof.
  unfold flatten, subst_nodes. induction ns as [|n ns IH]; simpl; [done|].
  by rewrite map_app, flatten_node_subst, IH.
Qed.

Lemma nids_subst o w ns : nids (subst_nodes o w ns) = nids ns.
Proof.
  unfold nids. rewrite flatten_subst, map_map.
  apply map_ext. intros n. apply subst_node_nid.
Qed.

Lemma all_defs_subst o w ns : all_defs (subst_nodes o w ns) = all_defs ns.
Proof.
  unfold all_defs, defs. rewrite flatten_subst, map_map. f_equal.
  apply map_ext. intros n. apply subst_node_out_values.
Qed.

Lemma defs_subst o w ns : defs (subst_nodes o w ns) = defs ns.
Proof.
  unfold defs, subst_nodes. rewrite map_map. f_equal.
  apply map_ext. intros n. apply subst_node_out_values.
Qed.

Lemma node_uses_subst o w n :
  node_uses (subst_node o w n) = map (subst_value o w) (node_uses n).
Proof.
  destruct n as [id k ins outs bs a]. unfold node_uses. simpl.
  rewrite map_app. f_equal.
  induction bs as [|b bs IH]; simpl; [done|].
  by rewrite map_app, IH.
Qed.

Lemma uses_subst o w ns :
  uses (subst_nodes o w ns) = map (subst_value o w) (uses ns).
Proof.
  unfold uses. rewrite flatten_subst.
  induction (flatten ns) as [|n l IH]; simpl; [done|].
  by rewrite map_app, node_uses_subst, IH.
Qed.

Lemma subst_value_gone o w (l : list Value) :
  w <> o -> o ∉ map (subst_value o w) l.
Proof.
  intros Hne Hin. apply list_elem_of_fmap in Hin as (v & Hv & _).
  unfold subst_value in Hv. destruct (decide (v = o)); congruence.
Qed.

Lemma subst_value_id o w (l : list Value) :
  o ∉ l -> map (subst_value o w) l = l.
Proof.
  induction l as [|v l IH]; simpl; [done|].
  intros Hnin. apply not_elem_of_cons in Hnin as [Hne Hnin].
  unfold subst_value at 1. destruct (decide (v = o)); [congruence|].
  by rewrite IH.
Qed.

Lemma flatten_app ns ms : flatten (ns ++ ms) = flatten ns ++ flatten ms.
Proof. unfold flatten. by rewrite map_app, concat_app. Qed.

Lemma nids_app ns ms : nids (ns ++ ms) = nids ns ++ nids ms.
Proof. unfold nids. by rewrite flatten_app, map_app. Qed.

Lemma uses_app ns ms : uses (ns ++ ms) = uses ns ++ uses ms.
Proof. unfold uses. by rewrite flatten_app, map_app, concat_app. Qed.

Lemma all_defs_app ns ms : all_defs (ns ++ ms) = all_defs ns ++ all_defs ms.
Proof. unfold all_defs, defs. by rewrite flatten_app, map_app, concat_app. Qed.

Lemma defs_app ns ms : defs (ns ++ ms) = defs ns ++ defs ms.
Proof. unfold defs. by rewrite map_app, concat_app. Qed.

(** ** Scopes *)

Lemma forallb_elem_of (sc : list Value) (vs : list Value) :
  forallb (fun v => bool_decide (v ∈ sc)) vs = true <-> (forall v, v ∈ vs -> v ∈ sc).
Proof.
  induction vs as [|v vs IH]; simpl.
  - split; [|done]. intros _ v Hv. by apply elem_of_nil in Hv.
  - rewrite andb_true_iff, IH, bool_decide_eq_true. split.
    + intros [Hv Hvs] w Hw. apply elem_of_cons in Hw as [->|Hw]; auto.
    + intros H. split; [apply H; left | intros w Hw; apply H; by right].
Qed.

Lemma scoped_seq_app chk sc xs ys rets :
  scoped_seq chk sc (xs ++ ys) rets =
  scoped_seq chk sc xs [] && scoped_seq chk (sc ++ defs xs) ys rets.
Proof.
  revert sc. induction xs as [|n xs IH]; intros sc; simpl.
  - unfold defs. simpl. by rewrite app_nil_r.
  - rewrite IH, andb_assoc. unfold defs. simpl. by rewrite app_assoc.
Qed.

Lemma scoped_seq_mono_aux ns :
  Forall (fun m => forall sc sc' : list Value, sc ⊆ sc' ->
            scoped_node sc m = true -> scoped_node sc' m = true) ns ->
  forall (sc sc' : list Value) rets, sc ⊆ sc' ->
    scoped_seq scoped_node sc ns rets = true ->
    scoped_seq scoped_node sc' ns rets = true.
Proof.
  induction 1 as [|m ns Hm _ IH]; intros sc sc' rets Hsub; simpl.
  - rewrite !forallb_elem_of. intros H v Hv. apply Hsub. auto.
  - rewrite !andb_true_iff. intros [H1 H2]. split; [by eapply Hm|].
    eapply IH; [|exact H2]. set_solver.
Qed.

Lemma scoped_node_mono n (sc sc' : list Value) :
  sc ⊆ sc' -> scoped_node sc n = true -> scoped_node sc' n = true.
Proof.
  revert sc sc'.
  induction n as [id k ins outs bs a IH] using Node_nested_ind.
  intros sc sc' Hsub. simpl. rewrite !andb_true_iff, !forallb_elem_of.
  intros [H1 H2]. split; [intros v Hv; apply Hsub; auto|].
  revert H2. induction IH as [|b bs Hb _ IHbs]; simpl; [done|].
  rewrite !andb_true_iff. intros [Hb1 Hb2]. split; [|by apply IHbs].
  by eapply scoped_seq_mono_aux.
Qed.

Lemma scoped_seq_mono ns (sc sc' : list Value) rets :
  sc ⊆ sc' ->
  scoped_seq scoped_node sc ns rets = true ->
  scoped_seq scoped_node sc' ns rets = true.
Proof.
  apply scoped_seq_mono_aux. apply Forall_forall. intros m _ s s'.
  apply scoped_node_mono.
Qed.

(** Replacing [o] by a value [w] of the scope keeps a sequence in scope,
    and [o] is no longer needed in the scope. *)
Lemma scoped_seq_subst_aux o w ns :
  Forall (fun m => forall sc1 sc2 : list Value, w ∈ sc2 ->
            (forall v, v ∈ sc1 -> v <> o -> v ∈ sc2) ->
            scoped_node sc1 m = true ->
            scoped_node sc2 (subst_node o w m) = true) ns ->
  forall (sc1 sc2 : list Value) rets, w ∈ sc2 ->
    (forall v, v ∈ sc1 -> v <> o -> v ∈ sc2) ->
    scoped_seq scoped_node sc1 ns rets = true ->
    scoped_seq scoped_node sc2 (subst_nodes o w ns) (map (subst_value o w) rets) = true.
Proof.
  induction 1 as [|m ns Hm _ IH]; intros sc1 sc2 rets Hw Hsc; simpl.
  - rewrite !forallb_elem_of. intros H v Hv.
    apply list_elem_of_fmap in Hv as (v' & -> & Hv').
    unfold subst_value. destruct (decide (v' = o)); auto.
  - rewrite !andb_true_iff. intros [H1 H2]. split; [by eapply Hm|].
    rewrite subst_node_out_values.
    eapply IH; [| |exact H2]; [set_solver|].
    intros v Hv Hne. apply elem_of_app in Hv as [Hv|Hv]; set_solver.
Qed.

Lemma scoped_node_subst o w n (sc1 sc2 : list Value) :
  w ∈ sc2 -> (forall v, v ∈ sc1 -> v <> o -> v ∈ sc2) ->
  scoped_node sc1 n = true -> scoped_node sc2 (subst_node o w n) = true.
Proof.
  revert sc1 sc2.
  induction n as [id k ins outs bs a IH] using Node_nested_ind.
  intros sc1 sc2 Hw Hsc. simpl. rewrite !andb_true_iff, !forallb_elem_of.
  intros [H1 H2]. split.
  - intros v Hv. apply list_elem_of_fmap in Hv as (v' & -> & Hv').
    unfold subst_value. destruct (decide (v' = o)); auto.
  - revert H2. induction IH as [|b bs Hb _ IHbs]; simpl; [done|].
    rewrite !andb_true_iff. intros [Hb1 Hb2]. split; [|by apply IHbs].
    by eapply (scoped_seq_subst_aux o w (bnodes b) Hb).
Qed.

Lemma scoped_seq_subst o w ns (sc1 sc2 : list Value) rets :
  w ∈ sc2 -> (forall v, v ∈ sc1 -> v <> o -> v ∈ sc2) ->
  scoped_seq scoped_node sc1 ns rets = true ->
  scoped_seq scoped_node sc2 (subst_nodes o w ns) (map (subst_value o w) rets) = true.
Proof.
  apply scoped_seq_subst_aux. apply Forall_forall. intros m _ s s'.
  apply scoped_node_subst.
Qed.

(** ** The nodes nested in a node *)

Lemma flatten_node_unfold n : flatten_node n = n :: flatten (nested n).
Proof.
  destruct n as [id k ins outs bs a]. unfold nested, flatten. simpl. f_equal.
  induction bs as [|b bs IH]; simpl; [done|].
  by rewrite map_app, concat_app, IH.
Qed.

Lemma flatten_cons n ns : flatten (n :: ns) = n :: flatten (nested n) ++ flatten ns.
Proof. unfold flatten at 1. simpl. by rewrite flatten_node_unfold. Qed.

Lemma uses_cons n ns : uses (n :: ns) = node_uses n ++ uses (nested n) ++ uses ns.
Proof.
  unfold uses. rewrite flatten_cons. simpl. by rewrite map_app, concat_app.
Qed.

Lemma all_defs_cons n ns :
  all_defs (n :: ns) = out_values n ++ all_defs (nested n) ++ all_defs ns.
Proof.
  unfold all_defs, defs. rewrite flatten_cons. simpl. by rewrite map_app, concat_app.
Qed.

Lemma nids_cons n ns : nids (n :: ns) = nid n :: nids (nested n) ++ nids ns.
Proof. unfold nids. rewrite flatten_cons. simpl. by rewrite map_app. Qed.

Lemma defs_cons n ns : defs (n :: ns) = out_values n ++ defs ns.
Proof. done. Qed.

Lemma defs_all_defs ns v : v ∈ defs ns -> v ∈ all_defs ns.
Proof.
  induction ns as [|n ns IH]; [done|].
  rewrite defs_cons, all_defs_cons, !elem_of_app. intros [?|?]; auto.
Qed.

Lemma nested_block b bs n :
  blocks n = b :: bs ->
  forall v, v ∈ all_defs (bnodes b) -> v ∈ all_defs (nested n).
Proof.
  intros Hb v Hv. unfold nested. rewrite Hb. simpl.
  rewrite all_defs_app, elem_of_app. by left.
Qed.

(** A value without uses is not touched by a replacement. *)
Lemma subst_node_id o w n : o ∉ uses [n] -> subst_node o w n = n.
Proof.
  induction n as [id k ins outs bs a IH] using Node_nested_ind.
  rewrite uses_cons. unfold node_uses, nested. simpl. rewrite app_nil_r.
  rewrite !not_elem_of_app. intros [[Hin Hret] Hnest].
  f_equal; [by apply subst_value_id|].
  induction IH as [|b bs Hb _ IHbs]; simpl in *; [done|].
  rewrite not_elem_of_app in Hret. destruct Hret as [Hret1 Hret2].
  rewrite uses_app, not_elem_of_app in Hnest. destruct Hnest as [Hn1 Hn2].
  rewrite IHbs by done. f_equal.
  destruct b as [ms rs]. simpl in *. f_equal; [|by apply subst_value_id].
  clear IHbs. induction Hb as [|m ms Hm _ IHms]; simpl; [done|].
  rewrite uses_cons, !not_elem_of_app in Hn1. destruct Hn1 as (? & ? & ?).
  rewrite IHms by done. f_equal. apply Hm.
  rewrite uses_cons, !not_elem_of_app. unfold uses at 2. simpl.
  split_and!; try done. apply not_elem_of_nil.
Qed.

Lemma subst_nodes_id o w ns : o ∉ uses ns -> subst_nodes o w ns = ns.
Proof.
  induction ns as [|n ns IH]; simpl; [done|].
  rewrite uses_cons, !not_elem_of_app. intros (? & ? & ?).
  rewrite IH by done. f_equal. apply subst_node_id.
  rewrite uses_cons, !not_elem_of_app. unfold uses at 2. simpl.
  split_and!; try done. apply not_elem_of_nil.
Qed.

(** In a scoped sequence every use is of a value of the scope or of a value
    defined in the sequence. *)
Lemma scoped_seq_uses_aux ns :
  Forall (fun m => forall sc : list Value, scoped_node sc m = true ->
            forall v, v ∈ node_uses m ++ uses (nested m) ->
                      v ∈ sc \/ v ∈ all_defs (nested m)) ns ->
  forall (sc : list Value) rets, scoped_seq scoped_node sc ns rets = true ->
    forall v, v ∈ uses ns ++ rets -> v ∈ sc \/ v ∈ all_defs ns.
Proof.
  induction 1 as [|m ns Hm _ IH]; intros sc rets; simpl.
  - rewrite forallb_elem_of. intros H v Hv. left. apply H.
    unfold uses in Hv. simpl in Hv. done.
  - rewrite andb_true_iff. intros [H1 H2] v.
    rewrite uses_cons, all_defs_cons, <- !app_assoc, app_assoc, elem_of_app.
    intros [Hv|Hv].
    + destruct (Hm sc H1 v Hv); [by left|]. right. set_solver.
    + destruct (IH _ _ H2 v Hv) as [Hs|Hs]; [|right; set_solver].
      apply elem_of_app in Hs as [Hs|Hs]; [by left|right; set_solver].
Qed.

Lemma scoped_node_uses n (sc : list Value) :
  scoped_node sc n = true ->
  forall v, v ∈ node_uses n ++ uses (nested n) -> v ∈ sc \/ v ∈ all_defs (nested n).
Proof.
  revert sc. induction n as [id k ins outs bs a IH] using Node_nested_ind.
  intros sc. simpl. rewrite andb_true_iff, forallb_elem_of.
  unfold node_uses, nested. simpl. intros [H1 H2] v.
  rewrite <- app_assoc, elem_of_app. intros [Hv|Hv]; [left; auto|].
  revert H2 Hv. induction IH as [|b bs Hb _ IHbs]; simpl.
  - intros _ Hv. unfold uses in Hv. simpl in Hv. by apply elem_of_nil in Hv.
  - rewrite andb_true_iff, uses_app, all_defs_app. intros [Hb1 Hb2] Hv.
    assert (v ∈ uses (bnodes b) ++ breturns b \/
            v ∈ concat (map breturns bs) ++ uses (concat (map bnodes bs))) as [Hv'|Hv']
      by set_solver.
    + destruct (scoped_seq_uses_aux _ Hb _ _ Hb1 v Hv'); [by left|right; set_solver].
    + destruct (IHbs Hb2 Hv'); [by left|right; set_solver].
Qed.

Lemma scoped_seq_uses ns (sc : list Value) rets :
  scoped_seq scoped_node sc ns rets = true ->
  forall v, v ∈ uses ns ++ rets -> v ∈ sc \/ v ∈ all_defs ns.
Proof.
  apply scoped_seq_uses_aux. apply Forall_forall. intros m _ s.
  apply scoped_node_uses.
Qed.

Lemma scoped_seq_restrict_aux ns :
  Forall (fun m => forall sc1 sc2 : list Value,
            (forall v, v ∈ sc1 -> v ∈ node_uses m ++ uses (nested m) -> v ∈ sc2) ->
            scoped_node sc1 m = true -> scoped_node sc2 m = true) ns ->
  forall (sc1 sc2 : list Value) rets,
    (forall v, v ∈ sc1 -> v ∈ uses ns ++ rets -> v ∈ sc2) ->
    scoped_seq scoped_node sc1 ns rets = true ->
    scoped_seq scoped_node sc2 ns rets = true.
Proof.
  induction 1 as [|m ns Hm _ IH]; intros sc1 sc2 rets Hsc; simpl.
  - rewrite !forallb_elem_of. intros H v Hv. apply Hsc; [by apply H|].
    unfold uses. simpl. done.
  - rewrite !andb_true_iff. intros [H1 H2]. split.
    + eapply Hm; [|exact H1]. intros v Hv Hu. apply Hsc; [done|].
      rewrite uses_cons. set_solver.
    + eapply IH; [|exact H2]. intros v Hv Hu.
      apply elem_of_app in Hv as [Hv|Hv]; [|set_solver].
      apply elem_of_app. left. apply Hsc; [done|].
      rewrite uses_cons. set_solver.
Qed.

Lemma scoped_node_restrict n (sc1 sc2 : list Value) :
  (forall v, v ∈ sc1 -> v ∈ node_uses n ++ uses (nested n) -> v ∈ sc2) ->
  scoped_node sc1 n = true -> scoped_node sc2 n = true.
Proof.
  revert sc1 sc2. induction n as [id k ins outs bs a IH] using Node_nested_ind.
  intros sc1 sc2. unfold node_uses, nested. simpl. intros Hsc.
  rewrite !andb_true_iff, !forallb_elem_of. intros [H1 H2]. split.
  - intros v Hv. apply Hsc; [auto|]. set_solver.
  - assert (forall v, v ∈ sc1 ->
              v ∈ concat (map breturns bs) ++ uses (concat (map bnodes bs)) ->
              v ∈ sc2) as Hsc' by set_solver.
    clear Hsc H1. revert H2 Hsc'.
    induction IH as [|b bs Hb _ IHbs]; simpl; [done|].
    rewrite !andb_true_iff, uses_app. intros [Hb1 Hb2] Hsc. split.
    + eapply scoped_seq_restrict_aux; [exact Hb| |exact Hb1].
      intros v Hv Hu. apply Hsc; [done|]. set_solver.
    + apply IHbs; [done|]. intros v Hv Hu. apply Hsc; [done|]. set_solver.
Qed.

(** A scope may lose the values that the sequence does not use. *)
Lemma scoped_seq_restrict ns (sc1 sc2 : list Value) rets :
  (forall v, v ∈ sc1 -> v ∈ uses ns ++ rets -> v ∈ sc2) ->
  scoped_seq scoped_node sc1 ns rets = true ->
  scoped_seq scoped_node sc2 ns rets = true.
Proof.
  apply scoped_seq_restrict_aux. apply Forall_forall. intros m _ s s'.
  apply scoped_node_restrict.
Qed.

(** ** Well-formed graphs *)

Lemma forallb_bool_decide {A} (P : A -> Prop) `{!forall x, Decision (P x)} (l : list A) :
  forallb (fun x => bool_decide (P x)) l = true <-> (forall x, x ∈ l -> P x).
Proof.
  induction l as [|x l IH]; simpl.
  - split; [|done]. intros _ y Hy. by apply elem_of_nil in Hy.
  - rewrite andb_true_iff, IH, bool_decide_eq_true. split.
    + intros [Hx Hl] y Hy. apply elem_of_cons in Hy as [->|Hy]; auto.
    + intros Hall. split; [apply Hall; left | intros y Hy; apply Hall; by right].
Qed.

Lemma well_formed_WF p :
  well_formed p = true <->
  WF (p_inputs p).*1 (p_nodes p) (p_outputs p) (p_unique p) (p_nid p).
Proof.
  unfold well_formed, scoped, distinct, WF.
  rewrite !andb_true_iff, !bool_decide_eq_true.
  rewrite (forallb_bool_decide (fun v => v < p_unique p)).
  rewrite (forallb_bool_decide (fun j => j < p_nid p)).
  tauto.
Qed.

Lemma all_defs_middle xs n ys :
  all_defs (xs ++ n :: ys) ≡ₚ out_values n ++ all_defs (nested n) ++ all_defs (xs ++ ys).
Proof.
  rewrite !all_defs_app, all_defs_cons. solve_Permutation.
Qed.

Lemma nids_middle xs n ys :
  nids (xs ++ n :: ys) ≡ₚ nid n :: nids (nested n) ++ nids (xs ++ ys).
Proof.
  rewrite !nids_app, nids_cons. solve_Permutation.
Qed.

Lemma WF_scoped_split S0 xs n ys outs u i :
  WF S0 (xs ++ n :: ys) outs u i ->
  scoped_seq scoped_node S0 xs [] = true /\
  scoped_node (S0 ++ defs xs) n = true /\
  scoped_seq scoped_node ((S0 ++ defs xs) ++ out_values n) ys outs = true.
Proof.
  intros (Hs & _). rewrite scoped_seq_app in Hs. simpl in Hs.
  rewrite !andb_true_iff in Hs. tauto.
Qed.

Lemma WF_counters S0 ns outs u i u' i' :
  WF S0 ns outs u i -> u <= u' -> i <= i' -> WF S0 ns outs u' i'.
Proof.
  intros (H1 & H2 & H3 & H4 & H5) Hu Hi. split_and!; try done.
  - intros v Hv. specialize (H4 v Hv). lia.
  - intros j Hj. specialize (H5 j Hj). lia.
Qed.

(** A node of the top level is exchanged for one with the same identity,
    outputs and blocks, whose inputs are in scope. *)
Lemma WF_replace S0 xs m m' ys outs u i :
  WF S0 (xs ++ m :: ys) outs u i ->
  nid m' = nid m -> out_values m' = out_values m -> blocks m' = blocks m ->
  (forall v, v ∈ inputs m' -> v ∈ S0 ++ defs xs) ->
  WF S0 (xs ++ m' :: ys) outs u i.
Proof.
  intros HWF Hid Hout Hbl Hin.
  destruct (WF_scoped_split _ _ _ _ _ _ _ HWF) as (Hs1 & Hs2 & Hs3).
  destruct HWF as (_ & H2 & H3 & H4 & H5).
  assert (nested m' = nested m) as Hnest by (unfold nested; by rewrite Hbl).
  assert (all_defs (xs ++ m' :: ys) = all_defs (xs ++ m :: ys)) as Hd.
  { by rewrite !all_defs_app, !all_defs_cons, Hout, Hnest. }
  assert (nids (xs ++ m' :: ys) = nids (xs ++ m :: ys)) as Hn.
  { by rewrite !nids_app, !nids_cons, Hid, Hnest. }
  unfold WF. rewrite Hd, Hn. split_and!; try done.
  rewrite scoped_seq_app. simpl. rewrite Hs1, Hout, Hs3. simpl.
  rewrite andb_true_r.
  destruct m as [? ? ? ? bs ?], m' as [? ? ins' ? bs' ?]. simpl in *. subst bs'.
  rewrite andb_true_iff in Hs2. destruct Hs2 as [_ ->]. rewrite andb_true_r.
  by apply forallb_elem_of.
Qed.

(** A new node without blocks, with one new output, is put in the graph. *)
Lemma WF_insert S0 xs m ys outs u i v u' i' :
  WF S0 (xs ++ ys) outs u i ->
  blocks m = [] -> (forall x, x ∈ inputs m -> x ∈ S0 ++ defs xs) ->
  out_values m = [v] -> u <= v < u' -> i <= nid m < i' ->
  WF S0 (xs ++ m :: ys) outs u' i'.
Proof.
  intros (H1 & H2 & H3 & H4 & H5) Hbl Hin Hout Hv Hi.
  assert (nested m = []) as Hnest by (unfold nested; by rewrite Hbl).
  rewrite scoped_seq_app, andb_true_iff in H1. destruct H1 as [Hs1 Hs2].
  unfold WF. split_and!.
  - rewrite scoped_seq_app. simpl. rewrite Hs1. simpl.
    apply andb_true_iff. split.
    + destruct m as [? ? ? ? bs ?]. simpl in *. subst bs. simpl.
      rewrite andb_true_r. by apply forallb_elem_of.
    + eapply scoped_seq_mono; [|exact Hs2]. set_solver.
  - rewrite all_defs_middle, Hout, Hnest.
    rewrite (Permutation_app_swap_app S0). simpl.
    apply NoDup_cons. split; [|done].
    intros Hx. specialize (H4 v Hx). lia.
  - rewrite nids_middle, Hnest. simpl. apply NoDup_cons. split; [|done].
    intros Hx. specialize (H5 _ Hx). lia.
  - intros x. rewrite all_defs_middle, Hout, Hnest.
    rewrite (Permutation_app_swap_app S0). simpl.
    rewrite elem_of_cons. intros [->|Hx]; [lia|]. specialize (H4 x Hx). lia.
  - intros j. rewrite nids_middle, Hnest. simpl.
    rewrite elem_of_cons. intros [->|Hj]; [lia|]. specialize (H5 j Hj). lia.
Qed.

(** An output of a node is used neither by the node nor before it. *)
Lemma WF_own_output S0 xs n ys outs u i o :
  WF S0 (xs ++ n :: ys) outs u i -> o ∈ out_values n ->
  (o ∉ S0 ++ defs xs) /\ (o ∉ uses (xs ++ [n])).
Proof.
  intros HWF Ho.
  destruct (WF_scoped_split _ _ _ _ _ _ _ HWF) as (Hs1 & Hs2 & _).
  destruct HWF as (_ & H2 & _).
  rewrite all_defs_middle, all_defs_app in H2.
  rewrite (Permutation_app_swap_app S0) in H2.
  apply NoDup_app in H2 as (_ & Hfresh & H2).
  specialize (Hfresh o Ho).
  assert (o ∉ S0 ++ defs xs) as Hsc.
  { intros Hx. apply Hfresh. apply elem_of_app in Hx as [Hx|Hx]; [set_solver|].
    apply defs_all_defs in Hx. set_solver. }
  split; [done|].
  rewrite uses_app, uses_cons. unfold uses at 3. simpl. rewrite app_nil_r.
  intros Hx. apply elem_of_app in Hx as [Hx|Hx].
  - destruct (scoped_seq_uses _ _ _ Hs1 o) as [?|?]; set_solver.
  - destruct (scoped_node_uses _ _ Hs2 o) as [?|?]; set_solver.
Qed.

Lemma subst_nodes_cons o w n ns :
  subst_nodes o w (n :: ns) = subst_node o w n :: subst_nodes o w ns.
Proof. done. Qed.

Lemma subst_nodes_app o w xs ys :
  subst_nodes o w (xs ++ ys) = subst_nodes o w xs ++ subst_nodes o w ys.
Proof. unfold subst_nodes. apply map_app. Qed.

(** [o->replaceAllUsesWith(w)], when [o] has no use in the nodes [xs] and
    [w] is defined by then. *)
Lemma WF_rauw S0 xs ys outs u i o w :
  WF S0 (xs ++ ys) outs u i ->
  o ∉ uses xs -> w ∈ S0 ++ defs xs ->
  WF S0 (xs ++ subst_nodes o w ys) (map (subst_value o w) outs) u i.
Proof.
  intros (H1 & H2 & H3 & H4 & H5) Ho Hw.
  rewrite scoped_seq_app, andb_true_iff in H1. destruct H1 as [Hs1 Hs2].
  unfold WF. rewrite all_defs_app, nids_app, all_defs_subst, nids_subst.
  rewrite <- all_defs_app, <- nids_app. split_and!; try done.
  rewrite scoped_seq_app, Hs1. simpl.
  by apply (scoped_seq_subst o w ys (S0 ++ defs xs)).
Qed.

(** A node whose outputs have no use is removed. *)
Lemma WF_destroy S0 xs n ys outs u i :
  WF S0 (xs ++ n :: ys) outs u i ->
  (forall o, o ∈ out_values n -> o ∉ uses ys ++ outs) ->
  WF S0 (xs ++ ys) outs u i.
Proof.
  intros HWF Hunused.
  destruct (WF_scoped_split _ _ _ _ _ _ _ HWF) as (Hs1 & Hs2 & Hs3).
  destruct HWF as (_ & H2 & H3 & H4 & H5).
  unfold WF. split_and!.
  - rewrite scoped_seq_app, Hs1. simpl.
    eapply scoped_seq_restrict; [|exact Hs3].
    intros v Hv Hu. apply elem_of_app in Hv as [Hv|Hv]; [done|].
    by destruct (Hunused v Hv).
  - rewrite all_defs_middle, (Permutation_app_swap_app S0) in H2.
    apply NoDup_app in H2 as (_ & _ & H2).
    rewrite (Permutation_app_swap_app S0) in H2.
    by apply NoDup_app in H2 as (_ & _ & H2).
  - rewrite nids_middle in H3. apply NoDup_cons in H3 as [_ H3].
    by apply NoDup_app in H3 as (_ & _ & H3).
  - intros v Hv. apply H4. rewrite all_defs_middle.
    rewrite !elem_of_app in *. tauto.
  - intros j Hj. apply H5. rewrite nids_middle.
    rewrite elem_of_cons, elem_of_app. tauto.
Qed.

Lemma scoped_blocks_mono bs (sc sc' : list Value) :
  sc ⊆ sc' ->
  forallb (fun b => scoped_seq scoped_node sc (bnodes b) (breturns b)) bs = true ->
  forallb (fun b => scoped_seq scoped_node sc' (bnodes b) (breturns b)) bs = true.
Proof.
  intros Hsub H.
  pose proof (scoped_node_mono (mkNode 0 prim_Param [] [] bs None) sc sc' Hsub) as Hm.
  simpl in Hm. by apply Hm.
Qed.

(** The first node of the first block of a node moves in front of it. *)
Lemma WF_hoist S0 xs n ys outs u i m ms rs bs :
  WF S0 (xs ++ n :: ys) outs u i ->
  blocks n = mkBlock (m :: ms) rs :: bs ->
  WF S0 (xs ++ m :: mkNode (nid n) (kind n) (inputs n) (outputs n)
                          (mkBlock ms rs :: bs) (ival n) :: ys) outs u i.
Proof.
  intros HWF Hbl.
  destruct (WF_scoped_split _ _ _ _ _ _ _ HWF) as (Hs1 & Hs2 & Hs3).
  destruct HWF as (_ & H2 & H3 & H4 & H5).
  destruct n as [id k ins os bs0 a]. simpl in *. subst bs0.
  set (n' := mkNode id k ins os (mkBlock ms rs :: bs) a).
  set (n := mkNode id k ins os (mkBlock (m :: ms) rs :: bs) a) in *.
  assert (all_defs (xs ++ m :: n' :: ys) ≡ₚ all_defs (xs ++ n :: ys)) as Hd.
  { rewrite !all_defs_app. apply Permutation_app_head.
    rewrite !all_defs_cons. unfold nested. simpl.
    rewrite !all_defs_app, all_defs_cons, all_defs_app.
    change (out_values n') with (out_values n). solve_Permutation. }
  assert (nids (xs ++ m :: n' :: ys) ≡ₚ nids (xs ++ n :: ys)) as Hn.
  { rewrite !nids_app. apply Permutation_app_head.
    rewrite !nids_cons. unfold nested. simpl.
    rewrite !nids_app, nids_cons, nids_app. simpl.
    change (nid n') with (nid n). solve_Permutation. }
  unfold WF. rewrite Hd, Hn. split_and!; try done; cycle 1.
  { intros v Hv. apply H4. by rewrite <- Hd. }
  { intros j Hj. apply H5. by rewrite <- Hn. }
  simpl in Hs2. rewrite !andb_true_iff in Hs2.
  destruct Hs2 as (Hi & (Hm & Hms) & Hbs).
  rewrite scoped_seq_app, Hs1. simpl. rewrite Hm, Hms. simpl.
  rewrite !andb_true_iff. split_and!.
  - rewrite forallb_elem_of in *. set_solver.
  - eapply scoped_blocks_mono; [|exact Hbs]. set_solver.
  - eapply scoped_seq_mono; [|exact Hs3]. unfold out_values. simpl. set_solver.
Qed.

(** ** The rewrites of [prim::AutogradAdd] *)

Lemma WF_nid_gone S0 xs n ys outs u i :
  WF S0 (xs ++ n :: ys) outs u i -> nid n ∉ nids (xs ++ ys).
Proof.
  intros (_ & _ & H3 & _). rewrite nids_middle in H3.
  apply NoDup_cons in H3 as [H3 _]. set_solver.
Qed.

Lemma WF_input_not_output S0 xs n ys outs u i o w :
  WF S0 (xs ++ n :: ys) outs u i -> o ∈ out_values n -> w ∈ inputs n -> w <> o.
Proof.
  intros HWF Ho Hw ->.
  destruct (WF_own_output _ _ _ _ _ _ _ _ HWF Ho) as [_ Hu].
  apply Hu. rewrite uses_app, uses_cons. unfold node_uses. set_solver.
Qed.

Lemma WF_input_scope S0 xs n ys outs u i w :
  WF S0 (xs ++ n :: ys) outs u i -> w ∈ inputs n -> w ∈ S0 ++ defs xs.
Proof.
  intros HWF Hw.
  destruct (WF_scoped_split _ _ _ _ _ _ _ HWF) as (_ & Hs2 & _).
  destruct n as [? ? ins ? ? ?]. simpl in *.
  apply andb_true_iff in Hs2 as [Hs2 _]. rewrite forallb_elem_of in Hs2. auto.
Qed.

Lemma WF_before_unused S0 xs n ys outs u i o w :
  WF S0 (xs ++ n :: ys) outs u i -> o ∈ out_values n ->
  subst_nodes o w xs = xs /\ subst_node o w n = n.
Proof.
  intros HWF Ho.
  destruct (WF_own_output _ _ _ _ _ _ _ _ HWF Ho) as [_ Hu].
  rewrite uses_app, not_elem_of_app in Hu. destruct Hu as [Hu1 Hu2].
  split; [by apply subst_nodes_id | by apply subst_node_id].
Qed.

Ltac unfold_pass :=
  unfold visit, visit_AutogradAdd, visit_guard, visit_If, visit_GradOf,
    mark_outputs_Unknown, insertConstant, addInput, setType, modify,
    replaceAllUsesWith, rauw_pass, destroyCurrent, insertNode, insertAfter, create,
    set_state, update_state, mutate, read_state, all_of, value_node,
    input, output, output_at, block_at, return_at, current, next,
    lift, throw, bind, ret.

(** The closed form of the iteration that drops an add with a [Zero]
    operand: the two mutations are the replacement and the destruction. *)
Lemma visit_forward st ins bef n rest outs u i a b more o ty w :
  kind n = prim_AutogradAdd ->
  inputs n = a :: b :: more ->
  outputs n = [(o, ty)] ->
  (classify st a = Zero /\ w = b) \/
  (classify st a <> Zero /\ classify st b = Zero /\ w = a) ->
  exists st',
    visit (mkPass st ins bef (n :: rest) outs u i) =
      Some (tt, mkPass st' ins (subst_nodes o w bef) (subst_nodes o w rest)
                       (map (subst_value o w) outs) u i,
            [mkPass st' ins (subst_nodes o w bef) (subst_nodes o w (n :: rest))
                    (map (subst_value o w) outs) u i;
             mkPass st' ins (subst_nodes o w bef) (subst_nodes o w rest)
                    (map (subst_value o w) outs) u i]) /\
    forall v, classify st' v = classify st v.
Proof.
  intros Hkind Hin Hout Hcase.
  unfold_pass. simpl. rewrite Hkind, Hin, Hout. simpl.
  destruct Hcase as [[Ha ->]|(Ha & Hb & ->)].
  - rewrite Ha. simpl. eexists. split; [reflexivity|].
    intros v. apply classify_touch.
  - destruct (decide (classify st a = Zero)) as [|_]; [done|]. simpl.
    rewrite classify_touch, Hb. simpl. eexists. split; [reflexivity|].
    intros v. by rewrite !classify_touch.
Qed.

(** When the traversal is at a [prim::AutogradAdd] node [n] with
    operands [a] and [b] and output [o] in a well-formed graph, and [a] is
    classified [Zero] (then [w = b]), or [a] is not and [b] is classified
    [Zero] (then [w = a]): the iteration succeeds, every use of [o] in the
    graph has become [w], the nodes before [n] are as they were, [n] is no
    longer in the graph, and no classification has changed. *)
Lemma iteration_forwards_zero_operand p n rest a b more o ty w :
  well_formed p = true ->
  p_after p = n :: rest ->
  kind n = prim_AutogradAdd ->
  inputs n = a :: b :: more ->
  outputs n = [(o, ty)] ->
  (classify (p_state p) a = Zero /\ w = b) \/
  (classify (p_state p) a <> Zero /\ classify (p_state p) b = Zero /\ w = a) ->
  exists p' log,
    visit p = Some (tt, p', log) /\
    p_inputs p' = p_inputs p /\
    p_before p' = p_before p /\
    p_after p' = subst_nodes o w rest /\
    p_outputs p' = map (subst_value o w) (p_outputs p) /\
    p_uses p' = map (subst_value o w) (uses (p_before p ++ rest) ++ p_outputs p) /\
    (o ∉ p_uses p') /\
    (nid n ∉ nids (p_nodes p')) /\
    (forall v, classify (p_state p') v = classify (p_state p) v).
Proof.
  intros HWF Hafter Hkind Hin Hout Hcase.
  apply well_formed_WF in HWF.
  destruct p as [st ins bef aft outs u i]. unfold p_nodes in HWF. simpl in *. subst aft.
  assert (o ∈ out_values n) as Ho by (unfold out_values; rewrite Hout; set_solver).
  assert (w ∈ inputs n) as Hw
    by (rewrite Hin; destruct Hcase as [[_ ->]|(_ & _ & ->)]; set_solver).
  pose proof (WF_input_not_output _ _ _ _ _ _ _ _ _ HWF Ho Hw) as Hne.
  destruct (WF_before_unused _ _ _ _ _ _ _ _ w HWF Ho) as [Hbef _].
  pose proof (WF_nid_gone _ _ _ _ _ _ _ HWF) as Hnid.
  destruct (visit_forward st ins bef n rest outs u i a b more o ty w
              Hkind Hin Hout Hcase) as (st' & Hv & Hst).
  set (log := [mkPass st' ins (subst_nodes o w bef) (subst_nodes o w (n :: rest))
                      (map (subst_value o w) outs) u i;
               mkPass st' ins (subst_nodes o w bef) (subst_nodes o w rest)
                      (map (subst_value o w) outs) u i]) in Hv.
  rewrite Hbef in Hv.
  exists (mkPass st' ins bef (subst_nodes o w rest)
                 (map (subst_value o w) outs) u i), log.
  unfold p_uses, p_nodes. simpl.
  assert (uses (bef ++ subst_nodes o w rest) ++ map (subst_value o w) outs =
          map (subst_value o w) (uses (bef ++ rest) ++ outs)) as Huses.
  { rewrite <- Hbef at 1. by rewrite <- subst_nodes_app, uses_subst, map_app. }
  split_and!; try done.
  - rewrite Huses. by apply subst_value_gone.
  - by rewrite nids_app, nids_subst, <- nids_app.
Qed.

#[global] Arguments modify_node : simpl never.

Lemma modify_node_fresh id f ns :
  (forall m, m ∈ ns -> nid m <> id) -> modify_node id f ns = ns.
Proof.
  intros H. unfold modify_node. induction ns as [|m ns IH]; simpl; [done|].
  destruct (decide (nid m = id)) as [E|_].
  - destruct (H m); [left|done].
  - rewrite IH; [done|]. intros m' Hm'. apply H. by right.
Qed.

Lemma modify_node_last id f xs x :
  (forall m, m ∈ xs -> nid m <> id) -> nid x = id ->
  modify_node id f (xs ++ [x]) = xs ++ [f x].
Proof.
  intros H Hx. unfold modify_node. rewrite map_app.
  fold (modify_node id f xs). rewrite modify_node_fresh by done. simpl.
  by destruct (decide (nid x = id)).
Qed.

Lemma nid_elem_of_nids m ns : m ∈ ns -> nid m ∈ nids ns.
Proof.
  intros Hm. apply list_elem_of_split in Hm as (xs & ys & ->).
  rewrite nids_app, nids_cons. set_solver.
Qed.

(** ** Nodes that the traversal keeps *)

Lemma for_each_set_state os s p :
  for_each os (fun o => set_state o s) p =
  Some (tt, mkPass (foldl (fun st o => <[o := s]> st) (p_state p) os)
                   (p_inputs p) (p_before p) (p_after p) (p_outputs p)
                   (p_unique p) (p_nid p), []).
Proof.
  revert p. induction os as [|o os IH]; intros p; simpl.
  - by destruct p.
  - unfold bind, set_state, update_state. rewrite IH. by simpl.
Qed.

Lemma classify_foldl_insert os s st v :
  classify (foldl (fun st o => <[o := s]> st) st os) v =
  if decide (v ∈ os) then s else classify st v.
Proof.
  revert st. induction os as [|o os IH]; intros st; simpl.
  - destruct (decide (v ∈ [])) as [H|_]; [by apply elem_of_nil in H|done].
  - rewrite IH. destruct (decide (v ∈ os)) as [Hin|Hnin].
    + rewrite decide_True; [done|by right].
    + destruct (decide (v = o)) as [->|Hne].
      * rewrite decide_True; [|by left]. apply classify_insert.
      * rewrite decide_False; [by apply classify_insert_ne|].
        intros Hx. apply elem_of_cons in Hx as [?|?]; done.
Qed.

Lemma classify_insert_single o s st v :
  classify (<[o := s]> st) v = if decide (v ∈ [o]) then s else classify st v.
Proof. apply (classify_foldl_insert [o]). Qed.

Lemma all_of_state_false s vs st :
  (all_of_state s vs st).1 = false <-> ~ Forall (fun v => classify st v = s) vs.
Proof.
  rewrite <- all_of_state_true. by destruct (all_of_state s vs st).1.
Qed.

(** A kept node: the iteration succeeds without mutation, the iterator
    moves on, and only the classifications of [os] change, to [s]. *)
Lemma visit_kept st ins bef n rest outs u i os s :
  Kept (classify st) (producer (mkPass st ins bef (n :: rest) outs u i)) n os s ->
  exists st',
    visit (mkPass st ins bef (n :: rest) outs u i) =
      Some (tt, mkPass st' ins (bef ++ [n]) rest outs u i, []) /\
    forall v, classify st' v = if decide (v ∈ os) then s else classify st v.
Proof.
  intros HK. unfold visit, bind, current. simpl.
  destruct HK as [a b more o ty Hk Hin Hout Ha Hb Hab | o ty Hk Hout | Hk Hin
    | o ty Hk Hin Hout | o f Hk Hout | cond more k gs Hk Hin Hp Hne
    | cond more gs Hk Hin Hp Hz Hnz | H1 H2 H3 H4 H5 H6].
  - rewrite Hk. unfold_pass. simpl. rewrite Hin, Hout. simpl.
    destruct (decide (classify st a = Zero)) as [|_]; [done|]. simpl.
    rewrite classify_touch.
    destruct (decide (classify st b = Zero)) as [|_]; [done|]. simpl.
    rewrite !classify_touch.
    destruct (decide (classify st a = Nonzero)) as [Ea|Ea]; simpl; eexists.
    + rewrite !classify_touch.
      rewrite bool_decide_eq_false_2 by (intros Eb; by apply Hab). simpl.
      split; [reflexivity|]. intros v.
      rewrite classify_insert_single.
      destruct (decide (v ∈ [o])); [done|]. by rewrite !classify_touch.
    + split; [reflexivity|]. intros v.
      rewrite classify_insert_single.
      destruct (decide (v ∈ [o])); [done|]. by rewrite !classify_touch.
  - rewrite Hk. unfold_pass. simpl. rewrite Hout. simpl.
    eexists. split; [reflexivity|]. intros v.
    by rewrite classify_insert_single.
  - rewrite Hk, Hin. unfold_pass. simpl.
    eexists. split; [reflexivity|]. intros v.
    destruct (decide (v ∈ [])) as [H|_]; [by apply elem_of_nil in H|done].
  - rewrite Hk. destruct (inputs n) as [|x xs]; [done|].
    unfold_pass. simpl. rewrite Hout. simpl.
    eexists. split; [reflexivity|]. intros v.
    by rewrite classify_insert_single.
  - assert (visit_guard n (mkPass st ins bef (n :: rest) outs u i) =
            Some (tt, mkPass (<[o := guard_state f]> st) ins (bef ++ [n]) rest outs u i, []))
      as Hg by (unfold_pass; simpl; rewrite Hout; by simpl).
    exists (<[o := guard_state f]> st).
    split; [destruct Hk as [Hk|Hk]; rewrite Hk, Hg; done|]. intros v.
    by rewrite classify_insert_single.
  - rewrite Hk. unfold visit_If, bind, input, lift, value_node. rewrite Hin. simpl.
    rewrite Hp. simpl. destruct (decide (k = prim_AutogradAnyNonZero)); [done|].
    unfold ret, mark_outputs_Unknown. rewrite for_each_set_state. simpl.
    eexists. split; [reflexivity|]. intros v. apply classify_foldl_insert.
  - rewrite Hk. unfold visit_If, bind, input, lift, value_node. rewrite Hin. simpl.
    rewrite Hp. simpl. unfold visit_GradOf, bind, all_of. simpl.
    apply all_of_state_false in Hz. rewrite Hz.
    assert ((all_of_state Nonzero gs (all_of_state Zero gs st).2).1 = false) as ->.
    { apply all_of_state_false. intros HF. apply Hnz.
      eapply Forall_impl; [exact HF|]. intros v. simpl.
      by rewrite all_of_state_classify. }
    unfold ret, mark_outputs_Unknown. simpl. rewrite for_each_set_state. simpl.
    eexists. split; [reflexivity|]. intros v. rewrite classify_foldl_insert.
    destruct (decide (v ∈ out_values n)); [done|].
    by rewrite !all_of_state_classify.
  - destruct (kind n); try done;
      unfold bind, mark_outputs_Unknown; rewrite for_each_set_state; simpl;
      (eexists; split; [reflexivity|]); intros v; apply classify_foldl_insert.
Qed.

(** ** The downgrade to an ordinary add *)

#[local] Opaque modify_node.

Lemma visit_add st ins bef n rest outs u i a b more o ty :
  kind n = prim_AutogradAdd ->
  inputs n = a :: b :: more ->
  outputs n = [(o, ty)] ->
  classify st a = Nonzero -> classify st b = Nonzero ->
  (forall m, m ∈ bef ++ n :: rest -> nid m < i) ->
  exists st1,
    (forall v, classify st1 v = classify st v) /\
    let st2 := <[S u := Nonzero]> st1 in
    let grown k := bef ++ [cOne_node u i; k] in
    let final := grown (add_node u i [a; b; u] ty) in
    visit (mkPass st ins bef (n :: rest) outs u i) =
      Some (tt, mkPass st2 ins (subst_nodes o (S u) final) (subst_nodes o (S u) rest)
                       (map (subst_value o (S u)) outs) (S (S u)) (S (S i)),
            [mkPass st1 ins (bef ++ [cOne_node u i]) (n :: rest) outs (S u) (S i);
             mkPass st1 ins (grown (add_node u i [] TensorType_get)) (n :: rest) outs
                    (S (S u)) (S (S i));
             mkPass st1 ins (grown (add_node u i [a] TensorType_get)) (n :: rest) outs
                    (S (S u)) (S (S i));
             mkPass st1 ins (grown (add_node u i [a; b] TensorType_get)) (n :: rest) outs
                    (S (S u)) (S (S i));
             mkPass st1 ins (grown (add_node u i [a; b; u] TensorType_get)) (n :: rest) outs
                    (S (S u)) (S (S i));
             mkPass st1 ins final (n :: rest) outs (S (S u)) (S (S i));
             mkPass st2 ins (subst_nodes o (S u) final) (subst_nodes o (S u) (n :: rest))
                    (map (subst_value o (S u)) outs) (S (S u)) (S (S i));
             mkPass st2 ins (subst_nodes o (S u) final) (subst_nodes o (S u) rest)
                    (map (subst_value o (S u)) outs) (S (S u)) (S (S i))]).
Proof.
  intros Hkind Hin Hout Ha Hb Hfresh.
  exists (touch (touch (touch (touch st a) b) a) b).
  split; [intros v; by rewrite !classify_touch|].
  assert (forall f x, nid x = S i ->
            modify_node (S i) f ((bef ++ [cOne_node u i]) ++ [x]) =
            (bef ++ [cOne_node u i]) ++ [f x]) as Hm1.
  { intros f x Hx. apply modify_node_last; [|done].
    intros m Hm. apply elem_of_app in Hm as [Hm|Hm].
    - assert (nid m < i) by (apply Hfresh; set_solver). lia.
    - apply list_elem_of_singleton in Hm as ->. simpl. lia. }
  assert (forall f, modify_node (S i) f (n :: rest) = n :: rest) as Hm2.
  { intros f. apply modify_node_fresh. intros m Hm.
    assert (nid m < i) by (apply Hfresh; set_solver). lia. }
  assert (forall f, modify_node (S i) f rest = rest) as Hm3.
  { intros f. apply modify_node_fresh. intros m Hm.
    assert (nid m < i) by (apply Hfresh; set_solver). lia. }
  unfold_pass. simpl. rewrite Hkind, Hin, Hout. simpl.
  rewrite Ha. simpl. rewrite classify_touch, Hb. simpl.
  rewrite !classify_touch, Ha. simpl. rewrite !classify_touch, Hb. simpl.
  fold (cOne_node u i).
  rewrite !Hm2. rewrite !Hm1 by done. simpl.
  unfold set_output_type. simpl. rewrite decide_True by done.
  rewrite <- !app_assoc. simpl. reflexivity.
Qed.

#[local] Transparent modify_node.

(** ** Sequences of replacements *)

Lemma rauw_seq_fields sigma p :
  rauw_seq sigma p =
  mkPass (p_state p) (p_inputs p)
         (subst_seq_nodes sigma (p_before p)) (subst_seq_nodes sigma (p_after p))
         (subst_seq_values sigma (p_outputs p)) (p_unique p) (p_nid p).
Proof.
  revert p. induction sigma as [|[o w] sigma IH]; intros p.
  - by destruct p.
  - unfold rauw_seq, subst_seq_nodes, subst_seq_values in *. simpl. by rewrite IH.
Qed.

Lemma trace_elem {A} (f : Pass -> A -> Pass) p xs q :
  q ∈ trace f p xs -> exists xs1 xs2, xs = xs1 ++ xs2 /\ q = foldl f p xs1.
Proof.
  revert p. induction xs as [|x xs IH]; intros p; simpl.
  - intros H. by apply elem_of_nil in H.
  - intros H. apply elem_of_cons in H as [->|H].
    + by exists [x], xs.
    + destruct (IH _ H) as (xs1 & xs2 & -> & ->). by exists (x :: xs1), xs2.
Qed.

Lemma for_each_rauw os w p :
  for_each os (fun o => replaceAllUsesWith o w) p =
  Some (tt, rauw_seq (map (fun o => (o, w)) os) p,
        trace (fun q ow => rauw_pass ow.1 ow.2 q) p (map (fun o => (o, w)) os)).
Proof.
  revert p. induction os as [|o os IH]; intros p; simpl; [done|].
  unfold bind, replaceAllUsesWith, mutate. by rewrite IH.
Qed.

(** ** The collapse of a conditional whose guards are all [Zero] *)

Lemma visit_zeros st ins bef n rest outs u i cond more gs :
  kind n = prim_If ->
  inputs n = cond :: more ->
  producer (mkPass st ins bef (n :: rest) outs u i) cond =
    Some (prim_AutogradAnyNonZero, gs) ->
  Forall (fun v => classify st v = Zero) gs ->
  exists st1,
    (forall v, classify st1 v = classify st v) /\
    let sigma := map (fun o => (o, u)) (out_values n) in
    let p1 := mkPass st1 ins bef (n :: zero_node u i :: rest) outs (S u) (S i) in
    let p2 := mkPass (<[u := Zero]> st1) ins bef (n :: zero_node u i :: rest) outs
                     (S u) (S i) in
    visit (mkPass st ins bef (n :: rest) outs u i) =
      Some (tt, without_current (rauw_seq sigma p2),
            p1 :: trace (fun q ow => rauw_pass ow.1 ow.2 q) p2 sigma ++
            [without_current (rauw_seq sigma p2)]).
Proof.
  intros Hk Hin Hp Hz.
  exists (all_of_state Nonzero gs (all_of_state Zero gs st).2).2.
  split; [intros v; by rewrite !all_of_state_classify|].
  unfold visit, bind, current. simpl. rewrite Hk.
  unfold visit_If, bind, input, lift, value_node. rewrite Hin. simpl.
  rewrite Hp. simpl. unfold visit_GradOf, bind, all_of. simpl.
  apply all_of_state_true in Hz. rewrite Hz.
  unfold create, insertAfter, mutate, output, ret, set_state, update_state. simpl.
  rewrite for_each_rauw. simpl. unfold destroyCurrent, mutate. simpl.
  fold (zero_node u i). rewrite app_nil_r. reflexivity.
Qed.

(** ** The inlining of a conditional whose guards are all [Nonzero] *)

Lemma with_body_idem n ms ms' : with_body (with_body n ms) ms' = with_body n ms'.
Proof. unfold with_body. simpl. by destruct (blocks n). Qed.

Lemma hoist_log_with_body st ins bef n rest outs u i ms ms' :
  hoist_log st ins bef (with_body n ms') rest outs u i ms =
  hoist_log st ins bef n rest outs u i ms.
Proof.
  revert bef. induction ms as [|m ms IH]; intros bef; simpl; [done|].
  by rewrite with_body_idem, IH.
Qed.

Lemma hoist_spec st ins bef n rest outs u i ms rs bs :
  blocks n = mkBlock ms rs :: bs ->
  hoist (length ms) (mkPass st ins bef (n :: rest) outs u i) =
  Some (tt, mkPass st ins (bef ++ ms) (with_body n [] :: rest) outs u i,
        hoist_log st ins bef n rest outs u i ms).
Proof.
  revert bef n. induction ms as [|m ms IH]; intros bef n Hbl; simpl.
  - unfold ret. rewrite app_nil_r. unfold with_body. rewrite Hbl.
    destruct n. simpl in *. by subst.
  - unfold bind, moveBefore_first. simpl. rewrite Hbl. simpl.
    change (mkNode (nid n) (kind n) (inputs n) (outputs n) (mkBlock ms rs :: bs) (ival n))
      with (mkNode (nid n) (kind n) (inputs n) (outputs n)
              (mkBlock ms (breturns (mkBlock (m :: ms) rs)) :: bs) (ival n)).
    replace (mkNode (nid n) (kind n) (inputs n) (outputs n)
               (mkBlock ms (breturns (mkBlock (m :: ms) rs)) :: bs) (ival n))
      with (with_body n ms) by (unfold with_body; by rewrite Hbl).
    rewrite (IH (bef ++ [m]) (with_body n ms)).
    + by rewrite with_body_idem, hoist_log_with_body, <- app_assoc.
    + unfold with_body. by rewrite Hbl.
Qed.

Lemma WF_returns_scope S0 xs n ys outs u i rs bs :
  WF S0 (xs ++ n :: ys) outs u i -> blocks n = mkBlock [] rs :: bs ->
  forall r, r ∈ rs -> r ∈ S0 ++ defs xs.
Proof.
  intros HWF Hbl.
  destruct (WF_scoped_split _ _ _ _ _ _ _ HWF) as (_ & Hs2 & _).
  destruct n as [? ? ? ? bs0 ?]. simpl in *. subst bs0. simpl in Hs2.
  rewrite !andb_true_iff in Hs2. destruct Hs2 as (_ & Hr & _).
  by apply forallb_elem_of.
Qed.

Lemma WF_rauw_current S0 xs n ys outs u i o w :
  WF S0 (xs ++ n :: ys) outs u i -> o ∈ out_values n -> w ∈ S0 ++ defs xs ->
  WF S0 (xs ++ n :: subst_nodes o w ys) (map (subst_value o w) outs) u i.
Proof.
  intros HWF Ho Hw.
  destruct (WF_own_output _ _ _ _ _ _ _ _ HWF Ho) as [_ Hu].
  pose proof (WF_rauw S0 (xs ++ [n]) ys outs u i o w) as H.
  rewrite <- !app_assoc in H. simpl in H. apply H; [done|done|].
  rewrite defs_app. set_solver.
Qed.

Lemma replace_output_spec st ins bef n rest outs u i j o ty r rs bs :
  WF ins.*1 (bef ++ n :: rest) outs u i ->
  blocks n = mkBlock [] rs :: bs ->
  outputs n !! j = Some (o, ty) -> rs !! j = Some r ->
  replace_output_with_return j (mkPass st ins bef (n :: rest) outs u i) =
  Some (tt, mkPass (<[r := Nonzero]> st) ins bef (n :: subst_nodes o r rest)
                   (map (subst_value o r) outs) u i,
        [mkPass st ins bef (n :: subst_nodes o r rest)
                (map (subst_value o r) outs) u i]).
Proof.
  intros HWF Hbl Ho Hr.
  assert (o ∈ out_values n) as Hon.
  { unfold out_values. apply list_elem_of_fmap. exists (o, ty). split; [done|].
    by eapply list_elem_of_lookup_2. }
  destruct (WF_before_unused _ _ _ _ _ _ _ _ r HWF Hon) as [Hbef Hn].
  unfold replace_output_with_return, bind, current, block_at, output_at,
    return_at, lift, replaceAllUsesWith, mutate, rauw_pass, set_state, update_state.
  simpl. rewrite Hbl. simpl. rewrite Ho. simpl. rewrite Hr.
  unfold subst_nodes in *. simpl. rewrite Hbef, Hn, Hbl. simpl. by rewrite Hr.
Qed.

Lemma replace_output_fails st ins bef n rest outs u i j rs bs :
  blocks n = mkBlock [] rs :: bs -> rs !! j = None ->
  replace_output_with_return j (mkPass st ins bef (n :: rest) outs u i) = None.
Proof.
  intros Hbl Hr.
  unfold replace_output_with_return, bind, current, block_at, output_at,
    return_at, lift. simpl. rewrite Hbl. simpl. rewrite Hr.
  by destruct (outputs n !! j).
Qed.

Lemma replace_loop ins bef n u i rs bs k : forall j st rest outs,
  blocks n = mkBlock [] rs :: bs ->
  j + k = length (outputs n) ->
  WF ins.*1 (bef ++ n :: rest) outs u i ->
  for_each (seq j k) replace_output_with_return (mkPass st ins bef (n :: rest) outs u i) =
  if bool_decide (k = 0 \/ j + k <= length rs) then
    Some (tt, mkPass (foldl (fun st ow => <[ow.2 := Nonzero]> st) st (pairs_from n rs j k))
                     ins bef (n :: subst_seq_nodes (pairs_from n rs j k) rest)
                     (subst_seq_values (pairs_from n rs j k) outs) u i,
          replace_log st ins bef n rest outs u i (pairs_from n rs j k))
  else None.
Proof.
  induction k as [|k IH]; intros j st rest outs Hbl Hlen HWF.
  - rewrite bool_decide_eq_true_2 by (by left). done.
  - simpl. unfold bind.
    assert (is_Some (outputs n !! j)) as [[o ty] Ho] by (apply lookup_lt_is_Some; lia).
    assert (out_values n !! j = Some o) as Hov
      by (unfold out_values; by rewrite list_lookup_fmap, Ho).
    destruct (rs !! j) as [r|] eqn:Hr.
    + rewrite (replace_output_spec st ins bef n rest outs u i j o ty r rs bs) by done.
      assert (r ∈ ins.*1 ++ defs bef) as Hrs.
      { eapply WF_returns_scope; [exact HWF|exact Hbl|].
        by eapply list_elem_of_lookup_2. }
      assert (o ∈ out_values n) as Hon by (by eapply list_elem_of_lookup_2).
      rewrite IH; [|done|lia|by apply WF_rauw_current].
      assert (pairs_from n rs j (S k) = (o, r) :: pairs_from n rs (S j) k) as ->.
      { unfold pairs_from. by rewrite (drop_S _ _ _ Hov), (drop_S _ _ _ Hr). }
      apply lookup_lt_Some in Hr.
      destruct (bool_decide (k = 0 \/ S j + k <= length rs)) eqn:E.
      * rewrite bool_decide_eq_true_2; [done|].
        apply bool_decide_eq_true in E. right. lia.
      * apply bool_decide_eq_false in E.
        rewrite bool_decide_eq_false_2; [done|]. lia.
    + rewrite (replace_output_fails _ _ _ _ _ _ _ _ _ rs bs) by done.
      apply lookup_ge_None in Hr.
      rewrite bool_decide_eq_false_2; [done|]. lia.
Qed.

Lemma visit_hoist st ins bef n rest outs u i cond more gs ms rs bs :
  kind n = prim_If ->
  inputs n = cond :: more ->
  producer (mkPass st ins bef (n :: rest) outs u i) cond =
    Some (prim_AutogradAnyNonZero, gs) ->
  ~ Forall (fun v => classify st v = Zero) gs ->
  Forall (fun v => classify st v = Nonzero) gs ->
  blocks n = mkBlock ms rs :: bs ->
  WF ins.*1 (bef ++ ms ++ with_body n [] :: rest) outs u i ->
  exists st1,
    (forall v, classify st1 v = classify st v) /\
    let sigma := pairs_from n rs 0 (length (outputs n)) in
    let final := mkPass (foldl (fun st ow => <[ow.2 := Nonzero]> st) st1 sigma) ins
                        (bef ++ ms) (subst_seq_nodes sigma rest)
                        (subst_seq_values sigma outs) u i in
    visit (mkPass st ins bef (n :: rest) outs u i) =
      if bool_decide (length (outputs n) <= length rs) then
        Some (tt, final,
              hoist_log st1 ins bef n rest outs u i ms ++
              replace_log st1 ins (bef ++ ms) (with_body n []) rest outs u i sigma ++
              [final])
      else None.
Proof.
  intros Hk Hin Hp Hz Hnz Hbl HWF.
  exists (all_of_state Nonzero gs (all_of_state Zero gs st).2).2.
  split; [intros v; by rewrite !all_of_state_classify|].
  unfold visit, bind, current. simpl. rewrite Hk.
  unfold visit_If, bind, input, lift, value_node. rewrite Hin. simpl.
  rewrite Hp. simpl. unfold visit_GradOf, bind, all_of. simpl.
  apply all_of_state_false in Hz. rewrite Hz.
  assert ((all_of_state Nonzero gs (all_of_state Zero gs st).2).1 = true) as ->.
  { apply all_of_state_true. eapply Forall_impl; [exact Hnz|].
    intros v. simpl. by rewrite all_of_state_classify. }
  unfold block_at, lift. rewrite Hbl. simpl.
  rewrite (hoist_spec _ _ _ _ _ _ _ _ _ rs bs Hbl).
  assert (blocks (with_body n []) = mkBlock [] rs :: bs) as Hbl'
    by (unfold with_body; by rewrite Hbl).
  rewrite (replace_loop ins (bef ++ ms) (with_body n []) u i rs bs
             (length (outputs n)) 0); [|done|done|by rewrite <- app_assoc].
  simpl. change (pairs_from (with_body n []) rs) with (pairs_from n rs).
  destruct (bool_decide (length (outputs n) = 0 \/ length (outputs n) <= length rs)) eqn:E.
  - rewrite bool_decide_eq_true_2
      by (apply bool_decide_eq_true in E; destruct E as [E|E]; lia).
    unfold destroyCurrent, mutate, ret. simpl. by rewrite app_nil_r.
  - rewrite bool_decide_eq_false_2; [done|].
    apply bool_decide_eq_false in E. intros H. apply E. by right.
Qed.

(** ** The five outcomes of an iteration *)

(** Hoisting keeps the graph well formed, at every move. *)
Lemma WF_hoist_all st ins bef n rest outs u i ms rs bs :
  WF ins.*1 (bef ++ n :: rest) outs u i ->
  blocks n = mkBlock ms rs :: bs ->
  WF ins.*1 (bef ++ ms ++ with_body n [] :: rest) outs u i /\
  Forall (fun q => well_formed q = true) (hoist_log st ins bef n rest outs u i ms).
Proof.
  revert bef n. induction ms as [|m ms IH]; intros bef n HWF Hbl.
  - split; [|constructor]. simpl.
    replace (with_body n []) with n; [done|].
    unfold with_body. rewrite Hbl. destruct n. simpl in *. by subst.
  - pose proof (WF_hoist _ _ _ _ _ _ _ _ _ _ _ HWF Hbl) as HWF'.
    replace (mkNode (nid n) (kind n) (inputs n) (outputs n) (mkBlock ms rs :: bs) (ival n))
      with (with_body n ms) in HWF' by (unfold with_body; by rewrite Hbl).
    destruct (IH (bef ++ [m]) (with_body n ms)) as [H1 H2].
    + by rewrite <- app_assoc.
    + unfold with_body. by rewrite Hbl.
    + rewrite with_body_idem, <- app_assoc in H1. simpl in H1. split; [done|].
      simpl. constructor.
      * apply well_formed_WF. unfold p_nodes. simpl. by rewrite <- app_assoc.
      * by rewrite hoist_log_with_body in H2.
Qed.

Lemma kept_Step st ins bef n rest outs u i os s p' l :
  Kept (classify st) (producer (mkPass st ins bef (n :: rest) outs u i)) n os s ->
  visit (mkPass st ins bef (n :: rest) outs u i) = Some (tt, p', l) ->
  Step (mkPass st ins bef (n :: rest) outs u i) p' l.
Proof.
  intros HK Hv. destruct (visit_kept _ _ _ _ _ _ _ _ _ _ HK) as (st' & Hv' & Hst).
  rewrite Hv' in Hv. injection Hv as <- <-. by eapply Step_kept.
Qed.

Ltac unfold_pass_in H :=
  unfold visit, visit_AutogradAdd, visit_guard, visit_If, visit_GradOf,
    mark_outputs_Unknown, insertConstant, addInput, setType, modify,
    replaceAllUsesWith, rauw_pass, destroyCurrent, insertNode, insertAfter, create,
    set_state, update_state, mutate, read_state, all_of, value_node,
    input, output, output_at, block_at, return_at, current, next,
    lift, throw, bind, ret in H.

Ltac case_decide_in H :=
  repeat (match type of H with
          | context [decide ?P] => destruct (decide P); simpl in H
          | context [bool_decide ?P] => destruct (bool_decide P); simpl in H
          end).

Lemma visit_AutogradAdd_shape st ins bef n rest outs u i r :
  kind n = prim_AutogradAdd ->
  visit (mkPass st ins bef (n :: rest) outs u i) = Some r ->
  exists a b more o ty, inputs n = a :: b :: more /\ outputs n = [(o, ty)].
Proof.
  intros Hk Hv. unfold_pass_in Hv. simpl in Hv. rewrite Hk in Hv.
  simpl in Hv.
  destruct (inputs n) as [|a [|b more]]; simpl in Hv; try done.
  destruct (outputs n) as [|[o ty] [|]]; simpl in Hv.
  - case_decide_in Hv; done.
  - by exists a, b, more, o, ty.
  - case_decide_in Hv; done.
Qed.

Lemma visit_single_output_shape st ins bef n rest outs u i r :
  kind n = prim_AutogradZero \/ kind n = prim_BailOut \/ kind n = prim_Guard \/
  (kind n = prim_profile /\ inputs n <> []) ->
  visit (mkPass st ins bef (n :: rest) outs u i) = Some r ->
  exists o ty, outputs n = [(o, ty)] /\
    (kind n = prim_BailOut \/ kind n = prim_Guard -> exists f, ty = TensorType f).
Proof.
  intros Hk Hv. unfold_pass_in Hv. simpl in Hv.
  destruct (outputs n) as [|[o ty] [|]] eqn:Ho.
  - destruct Hk as [Hk|[Hk|[Hk|[Hk Hi]]]]; rewrite Hk in Hv;
      simpl in Hv; rewrite ?Ho in Hv; try done.
    destruct (inputs n); done.
  - exists o, ty. split; [done|]. intros Hg.
    destruct ty; try (by eexists);
      destruct Hg as [Hg|Hg]; rewrite Hg in Hv; simpl in Hv; done.
  - destruct Hk as [Hk|[Hk|[Hk|[Hk Hi]]]]; rewrite Hk in Hv;
      simpl in Hv; rewrite ?Ho in Hv; try done.
    destruct (inputs n); done.
Qed.

Lemma WF_nids_fresh S0 ns outs u i m : WF S0 ns outs u i -> m ∈ ns -> nid m < i.
Proof.
  intros (_ & _ & _ & _ & H5) Hm. apply H5. by apply nid_elem_of_nids.
Qed.

(** Every successful iteration on a well-formed graph is one of the five
    outcomes. *)
Lemma visit_Step p p' l :
  well_formed p = true -> visit p = Some (tt, p', l) -> Step p p' l.
Proof.
  intros HWF Hv. apply well_formed_WF in HWF.
  destruct p as [st ins bef aft outs u i]. unfold p_nodes in HWF. simpl in HWF.
  destruct aft as [|n rest]; [done|].
  destruct (kind n) eqn:Hk.
  - destruct (visit_AutogradAdd_shape _ _ _ _ _ _ _ _ _ Hk Hv)
      as (a & b & more & o & ty & Hin & Hout).
    destruct (decide (classify st a = Zero)) as [Ha|Ha].
    { destruct (visit_forward st ins bef n rest outs u i a b more o ty b Hk Hin Hout)
        as (st' & Hv' & Hst); [by left|].
      rewrite Hv' in Hv. injection Hv as <- <-.
      eapply Step_forward; eauto. }
    destruct (decide (classify st b = Zero)) as [Hb|Hb].
    { destruct (visit_forward st ins bef n rest outs u i a b more o ty a Hk Hin Hout)
        as (st' & Hv' & Hst); [by right|].
      rewrite Hv' in Hv. injection Hv as <- <-.
      eapply Step_forward; eauto. }
    destruct (decide (classify st a = Nonzero /\ classify st b = Nonzero))
      as [[Ha' Hb']|Hab].
    { destruct (visit_add st ins bef n rest outs u i a b more o ty Hk Hin Hout Ha' Hb')
        as (st1 & Hst & Hv').
      { intros m Hm. by eapply WF_nids_fresh. }
      simpl in Hv'. rewrite Hv' in Hv. injection Hv as <- <-.
      by eapply Step_add. }
    eapply kept_Step; [|exact Hv]. by eapply Kept_AutogradAdd.
  - destruct (visit_single_output_shape _ _ _ _ _ _ _ _ _ (or_introl Hk) Hv)
      as (o & ty & Hout & _).
    eapply kept_Step; [|exact Hv]. by eapply Kept_AutogradZero.
  - destruct (inputs n) as [|x xs] eqn:Hin.
    + eapply kept_Step; [|exact Hv]. by eapply Kept_counter.
    + destruct (visit_single_output_shape st ins bef n rest outs u i (tt, p', l))
        as (o & ty & Hout & _); [|done|].
      { right. right. right. split; [done|]. by rewrite Hin. }
      eapply kept_Step; [|exact Hv]. eapply Kept_profile; eauto. by rewrite Hin.
  - destruct (visit_single_output_shape st ins bef n rest outs u i (tt, p', l))
      as (o & ty & Hout & Hty); [tauto|done|].
    destruct Hty as [f ->]; [by left|].
    eapply kept_Step; [|exact Hv]. eapply Kept_guard; eauto.
  - destruct (visit_single_output_shape st ins bef n rest outs u i (tt, p', l))
      as (o & ty & Hout & Hty); [tauto|done|].
    destruct Hty as [f ->]; [by right|].
    eapply kept_Step; [|exact Hv]. eapply Kept_guard; eauto.
  - destruct (inputs n) as [|cond more] eqn:Hin.
    { unfold visit, bind, current in Hv. simpl in Hv. rewrite Hk in Hv.
      unfold visit_If, bind, input, lift in Hv. by rewrite Hin in Hv. }
    destruct (producer (mkPass st ins bef (n :: rest) outs u i) cond)
      as [[k gs]|] eqn:Hp.
    2:{ unfold visit, bind, current in Hv. simpl in Hv. rewrite Hk in Hv.
        unfold visit_If, bind, input, lift, value_node in Hv.
        rewrite Hin in Hv. simpl in Hv. by rewrite Hp in Hv. }
    destruct (decide (k = prim_AutogradAnyNonZero)) as [->|Hne].
    2:{ eapply kept_Step; [|exact Hv]. by eapply Kept_If_other. }
    destruct (decide (Forall (fun v => classify st v = Zero) gs)) as [Hz|Hz].
    { destruct (visit_zeros st ins bef n rest outs u i cond more gs Hk Hin Hp Hz)
        as (st1 & Hst & Hv').
      simpl in Hv'. rewrite Hv' in Hv. injection Hv as <- <-.
      by eapply Step_zeros. }
    destruct (decide (Forall (fun v => classify st v = Nonzero) gs)) as [Hnz|Hnz].
    2:{ eapply kept_Step; [|exact Hv]. by eapply Kept_If_mixed. }
    destruct (blocks n) as [|[ms rs] bs] eqn:Hbl.
    { unfold visit, bind, current in Hv. simpl in Hv. rewrite Hk in Hv.
      unfold visit_If, bind, input, lift, value_node in Hv.
      rewrite Hin in Hv. simpl in Hv. rewrite Hp in Hv. simpl in Hv.
      unfold visit_GradOf, bind, all_of in Hv. simpl in Hv.
      apply all_of_state_false in Hz. rewrite Hz in Hv.
      unfold block_at, lift in Hv. rewrite Hbl in Hv. simpl in Hv.
      assert ((all_of_state Nonzero gs (all_of_state Zero gs st).2).1 = true) as E.
      { apply all_of_state_true. eapply Forall_impl; [exact Hnz|].
        intros v. simpl. by rewrite all_of_state_classify. }
      rewrite E in Hv. simpl in Hv. done. }
    destruct (WF_hoist_all st ins bef n rest outs u i ms rs bs HWF Hbl) as [HWF' _].
    destruct (visit_hoist st ins bef n rest outs u i cond more gs ms rs bs
                Hk Hin Hp Hz Hnz Hbl HWF') as (st1 & Hst & Hv').
    simpl in Hv'. rewrite Hv' in Hv.
    destruct (bool_decide (length (outputs n) <= length rs)) eqn:E; [|done].
    apply bool_decide_eq_true in E. injection Hv as <- <-.
    by eapply Step_hoist.
  - eapply kept_Step; [|exact Hv]. by eapply Kept_other; rewrite Hk.
  - eapply kept_Step; [|exact Hv]. by eapply Kept_other; rewrite Hk.
  - eapply kept_Step; [|exact Hv]. by eapply Kept_other; rewrite Hk.
  - eapply kept_Step; [|exact Hv]. by eapply Kept_other; rewrite Hk.
  - eapply kept_Step; [|exact Hv]. by eapply Kept_other; rewrite Hk.
Qed.

(** ** The order of definitions and uses is preserved *)

Lemma WF_out_ne S0 xs n zs ys outs u i o w :
  WF S0 (xs ++ n :: zs ++ ys) outs u i ->
  o ∈ out_values n -> w ∈ S0 ++ defs xs ++ defs zs -> w <> o.
Proof.
  intros (_ & H2 & _) Ho Hw ->.
  rewrite all_defs_middle, (Permutation_app_swap_app S0) in H2.
  apply NoDup_app in H2 as (_ & Hfresh & _).
  apply (Hfresh o Ho). rewrite !all_defs_app.
  rewrite !elem_of_app in Hw. rewrite !elem_of_app.
  destruct Hw as [?|[Hw|Hw]]; [tauto| |]; apply defs_all_defs in Hw; tauto.
Qed.

Lemma WF_rauw_step S0 xs n zs ys outs u i o w :
  WF S0 (xs ++ n :: zs ++ ys) outs u i ->
  (forall o, o ∈ out_values n -> o ∉ uses zs) ->
  o ∈ out_values n -> w ∈ S0 ++ defs xs ++ defs zs ->
  WF S0 (xs ++ n :: zs ++ subst_nodes o w ys) (map (subst_value o w) outs) u i /\
  subst_nodes o w xs = xs /\ subst_node o w n = n /\ subst_nodes o w zs = zs.
Proof.
  intros HWF Hzs Ho Hw.
  destruct (WF_own_output _ _ _ _ _ _ _ _ HWF Ho) as [_ Hu].
  destruct (WF_before_unused _ _ _ _ _ _ _ _ w HWF Ho) as [Hxs Hn].
  split_and!; try done; [|apply subst_nodes_id; auto].
  pose proof (WF_rauw S0 (xs ++ n :: zs) ys outs u i o w) as H.
  rewrite <- !app_assoc in H. simpl in H. apply H; [done| |].
  - replace (xs ++ n :: zs) with ((xs ++ [n]) ++ zs) by (by rewrite <- app_assoc).
    rewrite uses_app, not_elem_of_app. auto.
  - rewrite defs_app, defs_cons. set_solver.
Qed.

Lemma not_elem_of_subst o w x (l : list Value) :
  x ∉ l -> x <> w -> x ∉ map (subst_value o w) l.
Proof.
  intros Hx Hne Hin. apply list_elem_of_fmap in Hin as (v & Hv & Hvl).
  unfold subst_value in Hv. destruct (decide (v = o)); congruence.
Qed.

Lemma rauw_unused o w x ys (outs : list Value) :
  (x ∉ uses ys ++ outs) -> x <> w ->
  x ∉ uses (subst_nodes o w ys) ++ map (subst_value o w) outs.
Proof.
  intros Hx Hne. rewrite uses_subst, <- map_app. by apply not_elem_of_subst.
Qed.

Lemma rauw_gone o w ys (outs : list Value) :
  w <> o -> o ∉ uses (subst_nodes o w ys) ++ map (subst_value o w) outs.
Proof.
  intros Hne. rewrite uses_subst, <- map_app. by apply subst_value_gone.
Qed.

(** A sequence of replacements of outputs of the current node [n] by values
    defined before the nodes [ys]: the graph stays well formed at each
    replacement, the nodes up to [ys] are not touched, and in the end the
    replaced outputs have no use. *)
Lemma rauw_seq_inv st ins xs n zs u i sigma : forall ys outs (U : list Value),
  WF ins.*1 (xs ++ n :: zs ++ ys) outs u i ->
  (forall o, o ∈ out_values n -> o ∉ uses zs) ->
  Forall (fun ow => ow.1 ∈ out_values n /\ ow.2 ∈ ins.*1 ++ defs xs ++ defs zs) sigma ->
  (forall o, o ∈ U -> o ∈ out_values n /\ o ∉ uses ys ++ outs) ->
  rauw_seq sigma (mkPass st ins xs (n :: zs ++ ys) outs u i) =
    mkPass st ins xs (n :: zs ++ subst_seq_nodes sigma ys)
           (subst_seq_values sigma outs) u i /\
  WF ins.*1 (xs ++ n :: zs ++ subst_seq_nodes sigma ys) (subst_seq_values sigma outs) u i /\
  (forall o, o ∈ U ++ sigma.*1 ->
     o ∉ uses (subst_seq_nodes sigma ys) ++ subst_seq_values sigma outs) /\
  Forall (fun q => well_formed q = true)
    (trace (fun q ow => rauw_pass ow.1 ow.2 q)
       (mkPass st ins xs (n :: zs ++ ys) outs u i) sigma).
Proof.
  induction sigma as [|[o w] sigma IH]; intros ys outs U HWF Hzs Hsig HU.
  - simpl. split_and!; [done|done| |constructor].
    intros o. rewrite app_nil_r. intros Ho. by apply HU.
  - apply Forall_cons in Hsig as [[Ho Hw] Hsig]. simpl in Ho, Hw.
    destruct (WF_rauw_step _ _ _ _ _ _ _ _ _ _ HWF Hzs Ho Hw) as (HWF' & Hxs & Hn & Hz).
    assert (rauw_pass o w (mkPass st ins xs (n :: zs ++ ys) outs u i) =
            mkPass st ins xs (n :: zs ++ subst_nodes o w ys)
                   (map (subst_value o w) outs) u i) as Hstep.
    { unfold rauw_pass.
      cbn [p_state p_inputs p_before p_after p_outputs p_unique p_nid].
      by rewrite subst_nodes_cons, subst_nodes_app, Hxs, Hn, Hz. }
    destruct (IH (subst_nodes o w ys) (map (subst_value o w) outs) (U ++ [o])
                HWF' Hzs Hsig) as (H1 & H2 & H3 & H4).
    { intros x Hx. apply elem_of_app in Hx as [Hx|Hx].
      - destruct (HU x Hx) as [Hxo Hxu]. split; [done|].
        apply rauw_unused; [done|]. intros ->.
        by apply (WF_out_ne _ _ _ _ _ _ _ _ _ _ HWF Hxo Hw).
      - apply list_elem_of_singleton in Hx as ->. split; [done|].
        apply rauw_gone. by eapply WF_out_ne. }
    unfold rauw_seq, subst_seq_nodes, subst_seq_values in *. simpl.
    rewrite Hstep. split_and!; try done.
    + intros x Hx. apply H3. rewrite <- app_assoc. done.
    + constructor; [|done]. apply well_formed_WF. by unfold p_nodes.
Qed.

Lemma replace_log_WF ins bef n u i sigma : forall st rest outs,
  WF ins.*1 (bef ++ n :: rest) outs u i ->
  Forall (fun ow => ow.1 ∈ out_values n /\ ow.2 ∈ ins.*1 ++ defs bef) sigma ->
  Forall (fun q => well_formed q = true) (replace_log st ins bef n rest outs u i sigma).
Proof.
  induction sigma as [|[o w] sigma IH]; intros st rest outs HWF Hsig; simpl.
  - constructor.
  - apply Forall_cons in Hsig as [[Ho Hw] Hsig]. simpl in Ho, Hw.
    pose proof (WF_rauw_current _ _ _ _ _ _ _ _ _ HWF Ho Hw) as HWF'.
    constructor; [|by apply IH].
    apply well_formed_WF. by unfold p_nodes.
Qed.

Lemma pairs_from_elem n rs j k ow :
  ow ∈ pairs_from n rs j k -> ow.1 ∈ out_values n /\ ow.2 ∈ rs.
Proof.
  destruct ow as [o r]. unfold pairs_from. intros H. split.
  - apply elem_of_zip_l in H. by apply subseteq_take, subseteq_drop in H.
  - apply elem_of_zip_r in H. by apply subseteq_take, subseteq_drop in H.
Qed.

Lemma pairs_from_all n rs :
  length (outputs n) <= length rs ->
  (pairs_from n rs 0 (length (outputs n))).*1 = out_values n.
Proof.
  intros Hlen. unfold pairs_from. rewrite !drop_0.
  assert (length (out_values n) = length (outputs n)) as Hl
    by (unfold out_values; apply length_fmap).
  rewrite (take_ge (out_values n)) by lia.
  apply fst_zip. rewrite length_take. lia.
Qed.

Lemma uses_leaf m ys : inputs m = [] -> blocks m = [] -> uses (m :: ys) = uses ys.
Proof.
  intros Hi Hb. rewrite uses_cons. unfold node_uses, nested. rewrite Hi, Hb. done.
Qed.

Lemma Step_forward_WF (ins : list (Value * TypePtr)) bef n rest outs u i a b more o ty w :
  WF ins.*1 (bef ++ n :: rest) outs u i ->
  inputs n = a :: b :: more -> outputs n = [(o, ty)] -> w = a \/ w = b ->
  subst_nodes o w bef = bef /\ subst_node o w n = n /\
  WF ins.*1 (bef ++ n :: subst_nodes o w rest) (map (subst_value o w) outs) u i /\
  WF ins.*1 (bef ++ subst_nodes o w rest) (map (subst_value o w) outs) u i.
Proof.
  intros HWF Hin Hout Hw.
  assert (o ∈ out_values n) as Ho by (unfold out_values; rewrite Hout; set_solver).
  assert (w ∈ inputs n) as Hwi by (rewrite Hin; set_solver).
  pose proof (WF_input_scope _ _ _ _ _ _ _ _ HWF Hwi) as Hsc.
  destruct (WF_before_unused _ _ _ _ _ _ _ _ w HWF Ho) as [Hbef Hn].
  pose proof (WF_rauw_current _ _ _ _ _ _ _ _ _ HWF Ho Hsc) as HWF'.
  split_and!; try done.
  eapply WF_destroy; [exact HWF'|].
  intros o' Ho'. unfold out_values in Ho'. rewrite Hout in Ho'.
  apply list_elem_of_singleton in Ho' as ->. simpl.
  apply rauw_gone. by eapply WF_input_not_output.
Qed.

Lemma Step_add_WF st1 ins bef n rest outs u i a b more o ty :
  WF ins.*1 (bef ++ n :: rest) outs u i ->
  inputs n = a :: b :: more -> outputs n = [(o, ty)] ->
  Forall (fun q => well_formed q = true) (add_log st1 ins bef n rest outs u i a b o ty).
Proof.
  intros HWF Hin Hout.
  set (S0 := ins.*1) in *.
  assert (o ∈ out_values n) as Ho by (unfold out_values; rewrite Hout; set_solver).
  assert (a ∈ S0 ++ defs bef) as Ha
    by (eapply WF_input_scope; [exact HWF|rewrite Hin; set_solver]).
  assert (b ∈ S0 ++ defs bef) as Hb
    by (eapply WF_input_scope; [exact HWF|rewrite Hin; set_solver]).
  assert (forall k ys, (bef ++ [cOne_node u i; k]) ++ ys =
                       (bef ++ [cOne_node u i]) ++ k :: ys) as Hassoc
    by (intros; by rewrite <- !app_assoc).
  assert (WF S0 ((bef ++ [cOne_node u i]) ++ n :: rest) outs (S u) (S i)) as E1.
  { rewrite <- app_assoc. simpl.
    eapply (WF_insert S0 bef (cOne_node u i) (n :: rest) outs u i u); eauto; simpl;
      try lia. intros x Hx. by apply elem_of_nil in Hx. }
  assert (forall xs t, (forall x, x ∈ xs -> x ∈ S0 ++ defs (bef ++ [cOne_node u i])) ->
            WF S0 ((bef ++ [cOne_node u i]) ++ add_node u i xs t :: n :: rest) outs
               (S (S u)) (S (S i))) as E2.
  { intros xs t Hxs.
    eapply WF_replace with (m := add_node u i [] TensorType_get); try done.
    eapply (WF_insert S0 _ (add_node u i [] TensorType_get) (n :: rest) outs
              (S u) (S i) (S u)); eauto; simpl; try lia.
    intros x Hx. by apply elem_of_nil in Hx. }
  assert (forall x, x ∈ [a; b; u] -> x ∈ S0 ++ defs (bef ++ [cOne_node u i])) as Hsc.
  { intros x Hx. rewrite defs_app. unfold defs at 2. simpl.
    rewrite !elem_of_cons in Hx. destruct Hx as [->|[->|[->|Hx]]];
      [set_solver|set_solver|set_solver|by apply elem_of_nil in Hx]. }
  pose proof (E2 [a; b; u] ty Hsc) as E6. rewrite <- Hassoc in E6.
  destruct (WF_rauw_step S0 (bef ++ [cOne_node u i; add_node u i [a; b; u] ty]) n []
              rest outs (S (S u)) (S (S i)) o (S u)) as (E7 & Hxs & Hn & _); try done.
  { intros o' _. unfold uses. simpl. apply not_elem_of_nil. }
  { rewrite defs_app. unfold defs at 2 3. simpl. set_solver. }
  simpl in E7.
  unfold add_log. repeat apply Forall_cons_2; try apply Forall_nil_2;
    apply well_formed_WF; unfold p_nodes; simpl.
  - done.
  - rewrite Hassoc. apply E2. intros x Hx. by apply elem_of_nil in Hx.
  - rewrite Hassoc. apply E2. intros x Hx. apply Hsc. set_solver.
  - rewrite Hassoc. apply E2. intros x Hx. apply Hsc. set_solver.
  - rewrite Hassoc. by apply E2.
  - done.
  - by rewrite Hxs, Hn.
  - rewrite Hxs. eapply WF_destroy; [exact E7|].
    intros o' Ho'. unfold out_values in Ho'. rewrite Hout in Ho'.
    apply list_elem_of_singleton in Ho' as ->. simpl.
    apply rauw_gone. eapply (WF_out_ne S0 _ n [] rest); [exact E6|done|].
    rewrite defs_app. unfold defs at 2 3. simpl. set_solver.
Qed.

Lemma Step_zeros_WF st ins bef n rest outs u i :
  WF ins.*1 (bef ++ n :: rest) outs u i ->
  let sigma := map (fun o => (o, u)) (out_values n) in
  let p2 := mkPass st ins bef (n :: zero_node u i :: rest) outs (S u) (S i) in
  well_formed p2 = true /\
  without_current (rauw_seq sigma p2) =
    mkPass st ins bef (zero_node u i :: subst_seq_nodes sigma rest)
           (subst_seq_values sigma outs) (S u) (S i) /\
  well_formed (without_current (rauw_seq sigma p2)) = true /\
  Forall (fun q => well_formed q = true)
    (trace (fun q ow => rauw_pass ow.1 ow.2 q) p2 sigma) /\
  (forall o, o ∈ out_values n ->
     o ∉ uses (subst_seq_nodes sigma rest) ++ subst_seq_values sigma outs).
Proof.
  intros HWF sigma p2. set (S0 := ins.*1) in *.
  assert (WF S0 (bef ++ n :: [zero_node u i] ++ rest) outs (S u) (S i)) as E1.
  { replace (bef ++ n :: [zero_node u i] ++ rest)
      with ((bef ++ [n]) ++ zero_node u i :: rest) by (by rewrite <- app_assoc).
    eapply (WF_insert S0 (bef ++ [n]) (zero_node u i) rest outs u i u); eauto; simpl;
      try lia.
    - by rewrite <- app_assoc.
    - intros x Hx. by apply elem_of_nil in Hx. }
  destruct (rauw_seq_inv st ins bef n [zero_node u i] (S u) (S i) sigma rest outs [])
    as (H1 & H2 & H3 & H4); try done.
  { intros o _. unfold uses. simpl. apply not_elem_of_nil. }
  { apply Forall_forall. intros ow Hin. unfold sigma in Hin.
    apply list_elem_of_fmap in Hin as (o & -> & Ho). simpl. split; [done|].
    unfold defs at 2. simpl. set_solver. }
  { intros o Ho. by apply elem_of_nil in Ho. }
  simpl in H1, H2, H4. fold p2 in H1, H4.
  assert (forall o, o ∈ out_values n ->
            o ∉ uses (subst_seq_nodes sigma rest) ++ subst_seq_values sigma outs) as H5.
  { intros o Ho. apply H3. simpl.
    unfold sigma. rewrite <- list_fmap_compose. simpl.
    by rewrite list_fmap_id. }
  split_and!; try done.
  - by apply well_formed_WF.
  - by rewrite H1.
  - rewrite H1. apply well_formed_WF. unfold p_nodes, without_current. simpl.
    eapply WF_destroy; [exact H2|].
    intros o Ho. rewrite uses_leaf by done. by apply H5.
Qed.

Lemma Step_hoist_WF st ins bef n rest outs u i ms rs bs :
  WF ins.*1 (bef ++ n :: rest) outs u i ->
  blocks n = mkBlock ms rs :: bs ->
  length (outputs n) <= length rs ->
  let sigma := pairs_from n rs 0 (length (outputs n)) in
  WF ins.*1 (bef ++ ms ++ with_body n [] :: rest) outs u i /\
  WF ins.*1 ((bef ++ ms) ++ subst_seq_nodes sigma rest) (subst_seq_values sigma outs) u i /\
  Forall (fun q => well_formed q = true)
    (hoist_log st ins bef n rest outs u i ms ++
     replace_log st ins (bef ++ ms) (with_body n []) rest outs u i sigma) /\
  (forall o, o ∈ out_values n ->
     o ∉ uses (subst_seq_nodes sigma rest) ++ subst_seq_values sigma outs).
Proof.
  intros HWF Hbl Hlen sigma. set (S0 := ins.*1) in *.
  destruct (WF_hoist_all st ins bef n rest outs u i ms rs bs HWF Hbl) as [HWF' Hlog].
  assert (blocks (with_body n []) = mkBlock [] rs :: bs) as Hbl'
    by (unfold with_body; by rewrite Hbl).
  assert (Forall (fun ow => ow.1 ∈ out_values (with_body n []) /\
                            ow.2 ∈ S0 ++ defs (bef ++ ms)) sigma) as Hsig.
  { apply Forall_forall. intros ow How.
    apply pairs_from_elem in How as [Ho Hr]. split; [done|].
    eapply WF_returns_scope; [|exact Hbl'|exact Hr]. by rewrite <- app_assoc. }
  destruct (rauw_seq_inv st ins (bef ++ ms) (with_body n []) [] u i sigma rest outs [])
    as (H1 & H2 & H3 & H4); try done.
  { simpl. by rewrite <- app_assoc. }
  { intros o _. unfold uses. simpl. apply not_elem_of_nil. }
  { eapply Forall_impl; [exact Hsig|]. intros ow [? ?]. split; [done|].
    unfold defs at 2. simpl. by rewrite app_nil_r. }
  { intros o Ho. by apply elem_of_nil in Ho. }
  assert (forall o, o ∈ out_values n ->
            o ∉ uses (subst_seq_nodes sigma rest) ++ subst_seq_values sigma outs) as H5.
  { intros o Ho. apply H3. simpl. unfold sigma. by rewrite pairs_from_all. }
  split_and!; try done.
  - simpl in H2. eapply WF_destroy; [exact H2|]. done.
  - apply Forall_app. split; [done|].
    apply replace_log_WF; [by rewrite <- app_assoc|done].
Qed.

(** Each of the five outcomes leaves a well-formed graph, and so does each
    mutation on the way. *)
Lemma Step_WF p p' l :
  Step p p' l -> well_formed p = true ->
  well_formed p' = true /\ Forall (fun q => well_formed q = true) l.
Proof.
  intros HS HWF. apply well_formed_WF in HWF. unfold p_nodes in HWF.
  destruct HS as [st ins bef n rest outs u i os s st' HK Hst
    | st ins bef n rest outs u i a b more o ty w st' Hk Hin Hout Hcase Hst
    | st ins bef n rest outs u i a b more o ty st1 Hk Hin Hout Ha Hb Hst
    | st ins bef n rest outs u i cond more gs st1 Hk Hin Hp Hz Hst
    | st ins bef n rest outs u i cond more gs ms rs bs st1 Hk Hin Hp Hz Hnz Hbl Hlen Hst];
    simpl in HWF.
  - split; [|constructor]. apply well_formed_WF. unfold p_nodes. simpl.
    by rewrite <- app_assoc.
  - destruct (Step_forward_WF ins bef n rest outs u i a b more o ty w HWF Hin Hout)
      as (Hbef & Hn & E1 & E2).
    { destruct Hcase as [[_ ->]|(_ & _ & ->)]; auto. }
    rewrite subst_nodes_cons, Hbef, Hn.
    assert (well_formed (mkPass st' ins bef (subst_nodes o w rest)
                                (map (subst_value o w) outs) u i) = true) as HE2
      by (by apply well_formed_WF).
    split; [done|]. repeat constructor; [|done].
    by apply well_formed_WF.
  - pose proof (Step_add_WF st1 ins bef n rest outs u i a b more o ty HWF Hin Hout) as Hl.
    split; [|done]. unfold add_log in Hl.
    rewrite !Forall_cons in Hl. tauto.
  - destruct (Step_zeros_WF (<[u := Zero]> st1) ins bef n rest outs u i HWF)
      as (H1 & H2 & H3 & H4 & _).
    split; [done|]. constructor; [|apply Forall_app; split; [done|by constructor]].
    apply well_formed_WF. apply well_formed_WF in H1. done.
  - destruct (Step_hoist_WF st1 ins bef n rest outs u i ms rs bs HWF Hbl Hlen)
      as (H1 & H2 & H3 & _).
    assert (well_formed
              (mkPass (foldl (fun st ow => <[ow.2 := Nonzero]> st) st1
                         (pairs_from n rs 0 (length (outputs n))))
                      ins (bef ++ ms)
                      (subst_seq_nodes (pairs_from n rs 0 (length (outputs n))) rest)
                      (subst_seq_values (pairs_from n rs 0 (length (outputs n))) outs)
                      u i) = true) as HE by (by apply well_formed_WF).
    split; [done|]. rewrite app_assoc. apply Forall_app. split; [done|by constructor].
Qed.

(** ** The whole traversal *)

Lemma iterations_subst o w ns : iterations (subst_nodes o w ns) = iterations ns.
Proof.
  unfold iterations, subst_nodes. rewrite map_map. f_equal.
  apply map_ext. intros n. unfold weight. by rewrite subst_node_kind.
Qed.

Lemma iterations_subst_seq sigma ns :
  iterations (subst_seq_nodes sigma ns) = iterations ns.
Proof.
  revert ns. induction sigma as [|[o w] sigma IH]; intros ns; [done|].
  unfold subst_seq_nodes in *. simpl. by rewrite IH, iterations_subst.
Qed.

Lemma iterations_cons n ns : iterations (n :: ns) = weight n + iterations ns.
Proof. done. Qed.

Lemma weight_pos n : 1 <= weight n.
Proof. unfold weight. destruct (decide (kind n = prim_If)); lia. Qed.

(** Every iteration uses up at least one unit of the measure. *)
Lemma Step_iterations p p' l :
  Step p p' l -> well_formed p = true -> iterations (p_after p') < iterations (p_after p).
Proof.
  intros HS HWF. apply well_formed_WF in HWF. unfold p_nodes in HWF.
  destruct HS as [st ins bef n rest outs u i os s st' HK Hst
    | st ins bef n rest outs u i a b more o ty w st' Hk Hin Hout Hcase Hst
    | st ins bef n rest outs u i a b more o ty st1 Hk Hin Hout Ha Hb Hst
    | st ins bef n rest outs u i cond more gs st1 Hk Hin Hp Hz Hst
    | st ins bef n rest outs u i cond more gs ms rs bs st1 Hk Hin Hp Hz Hnz Hbl Hlen Hst];
    cbn [p_state p_inputs p_before p_after p_outputs p_unique p_nid] in *.
  - rewrite iterations_cons. pose proof (weight_pos n). lia.
  - rewrite iterations_cons, iterations_subst. pose proof (weight_pos n). lia.
  - rewrite iterations_cons, iterations_subst. pose proof (weight_pos n). lia.
  - destruct (Step_zeros_WF (<[u := Zero]> st1) ins bef n rest outs u i HWF)
      as (_ & -> & _).
    cbn [p_after]. rewrite !iterations_cons, iterations_subst_seq.
    unfold weight. rewrite Hk. simpl. lia.
  - rewrite iterations_cons, iterations_subst_seq. pose proof (weight_pos n). lia.
Qed.

(** With the fuel [specializeAutogradZero] gives it, the loop ends. *)
Lemma run_fuel fuel : forall p,
  well_formed p = true -> iterations (p_after p) <= fuel -> run fuel p <> OutOfFuel.
Proof.
  induction fuel as [|fuel IH]; intros p HWF Hfuel; simpl.
  - destruct (p_after p) as [|n rest] eqn:E; [done|].
    rewrite iterations_cons in Hfuel. pose proof (weight_pos n). lia.
  - destruct (p_after p) as [|n rest] eqn:E; [done|].
    destruct (visit p) as [[[[] p'] l]|] eqn:Hv; [|done].
    pose proof (visit_Step _ _ _ HWF Hv) as HS.
    destruct (Step_WF _ _ _ HS HWF) as [HWF' _].
    pose proof (Step_iterations _ _ _ HS HWF) as Hlt.
    specialize (IH p' HWF'). rewrite E in Hlt.
    destruct (run fuel p'); try done. apply IH. lia.
Qed.

Lemma run_WF fuel : forall p q l,
  well_formed p = true -> run fuel p = Finished q l ->
  well_formed q = true /\ p_after q = [] /\ Forall (fun r => well_formed r = true) l.
Proof.
  induction fuel as [|fuel IH]; intros p q l HWF Hrun; simpl in Hrun.
  - destruct (p_after p) as [|n rest] eqn:E; [|done].
    injection Hrun as <- <-. split_and!; try done.
  - destruct (p_after p) as [|n rest] eqn:E.
    { injection Hrun as <- <-. split_and!; try done. }
    destruct (visit p) as [[[[] p'] l1]|] eqn:Hv; [|done].
    pose proof (visit_Step _ _ _ HWF Hv) as HS.
    destruct (Step_WF _ _ _ HS HWF) as [HWF' Hl1].
    destruct (run fuel p') as [q' l2| |] eqn:Hr; try done.
    injection Hrun as <- <-.
    destruct (IH _ _ _ HWF' Hr) as (H1 & H2 & H3).
    split_and!; try done. by apply Forall_app.
Qed.

Lemma well_formed_scoped p : well_formed p = true -> scoped p = true.
Proof. unfold well_formed. rewrite andb_true_iff. tauto. Qed.

(** C9. When the pass runs on a well-formed graph (defs precede uses, every
    value and node is one object of the graph), it does not run out of
    iterations; and when it completes, every node that remains has all its
    inputs defined earlier in program order, and so has every node of the
    graph after each single mutation of the traversal. *)
Theorem ordering_preserved g :
  well_formed (start g) = true ->
  specializeAutogradZero g <> OutOfFuel /\
  forall p log, specializeAutogradZero g = Finished p log ->
    p_after p = [] /\
    scoped p = true /\
    Forall (fun q => scoped q = true) log.
Proof.
  intros HWF. split.
  - apply run_fuel; [done|]. simpl. lia.
  - intros p log Hrun. destruct (run_WF _ _ _ _ HWF Hrun) as (H1 & H2 & H3).
    split_and!; [done|by apply well_formed_scoped|].
    eapply Forall_impl; [exact H3|]. intros q. apply well_formed_scoped.
Qed.

(** ** Single iterations *)

Lemma classify_Zero_entry st v : classify st v = Zero -> st !! v = Some Zero.
Proof. unfold classify. destruct (st !! v) as [s|]; simpl; [by intros ->|done]. Qed.

(** C1, as the code has it. A value without an entry in the classification
    map reads as [Nonzero], the value-initialised [State], and the read
    leaves that entry in the map; so it is never taken for [Zero] or
    [Unknown], and a [prim::AutogradAdd] whose two operands have no entry is
    replaced by an ordinary add. *)
Theorem missing_entry_reads_Nonzero p v :
  p_state p !! v = None ->
  classify (p_state p) v = Nonzero /\
  read_state v p =
    Some (Nonzero, mkPass (<[v := Nonzero]> (p_state p)) (p_inputs p) (p_before p)
                          (p_after p) (p_outputs p) (p_unique p) (p_nid p), []) /\
  forall n rest a b more o ty,
    p_state p !! a = None -> p_state p !! b = None ->
    well_formed p = true ->
    p_after p = n :: rest -> kind n = prim_AutogradAdd ->
    inputs n = a :: b :: more -> outputs n = [(o, ty)] ->
    exists p' log,
      visit p = Some (tt, p', log) /\
      Step p p' log /\
      p_before p' =
        p_before p ++ [cOne_node (p_unique p) (p_nid p);
                       add_node (p_unique p) (p_nid p) [a; b; p_unique p] ty].
Proof.
  intros Hv. split_and!.
  - by apply classify_missing.
  - unfold read_state, classify, touch. by rewrite Hv.
  - intros n rest a b more o ty Ha Hb HWF Hafter Hk Hin Hout.
    destruct p as [st ins bef aft outs u i]. simpl in *. subst aft.
    apply classify_missing in Ha, Hb.
    pose proof HWF as HWF'. apply well_formed_WF in HWF'. unfold p_nodes in HWF'.
    simpl in HWF'.
    destruct (visit_add st ins bef n rest outs u i a b more o ty Hk Hin Hout Ha Hb)
      as (st1 & Hst & Hvisit).
    { intros m Hm. by eapply WF_nids_fresh. }
    simpl in Hvisit. eexists _, _. split; [exact Hvisit|].
    split; [by apply visit_Step|]. simpl.
    pose proof (Step_add_WF st1 ins bef n rest outs u i a b more o ty HWF' Hin Hout) as Hl.
    unfold add_log in Hl. rewrite !Forall_cons in Hl.
    destruct Hl as (_ & _ & _ & _ & _ & E6 & _).
    apply well_formed_WF in E6. unfold p_nodes in E6. simpl in E6.
    assert (o ∈ out_values n) as Ho by (unfold out_values; rewrite Hout; set_solver).
    by destruct (WF_before_unused _ _ _ _ _ _ _ _ (S u) E6 Ho) as [-> _].
Qed.

Lemma init_state_lookup ins v tp :
  NoDup ins.*1 -> (v, tp) ∈ ins -> init_state ins !! v = Some (input_state tp).
Proof.
  unfold init_state. generalize (∅ : StateMap).
  induction ins as [|[v' tp'] ins IH]; intros st Hnd Hin; simpl.
  - by apply elem_of_nil in Hin.
  - simpl in Hnd. apply NoDup_cons in Hnd as [Hfresh Hnd].
    apply elem_of_cons in Hin as [Heq|Hin].
    + injection Heq as <- <-. clear IH.
      assert (forall st : StateMap, st !! v = Some (input_state tp) ->
                foldl (fun st i => <[i.1 := input_state i.2]> st) st ins !! v =
                Some (input_state tp)) as Hkeep.
      { clear Hnd. induction ins as [|[w t] ins IH]; intros st' Hst'; simpl; [done|].
        apply IH.
        - intros Hx. apply Hfresh. simpl. by right.
        - rewrite lookup_insert_ne; [done|]. intros ->. apply Hfresh. simpl. by left. }
      apply Hkeep. by rewrite lookup_insert_eq.
    + by apply IH.
Qed.

(** C2, as the code has it. The Initializer classifies a graph input of a
    tensor-like type by the type's flag: known true gives [Zero], known
    false gives [Nonzero], and a flag that is not known gives [Unknown]; an
    input whose type is a homogeneous list of tensor-like values is
    classified [Nonzero], whatever the flag of the element type; an input of
    any other type is classified [Unknown].  The graph is the one the pass
    was given. *)
Theorem initializer_classification g v tp :
  NoDup (g_inputs g).*1 -> (v, tp) ∈ g_inputs g ->
  p_state (start g) !! v = Some (input_state tp) /\
  graph_of (start g) = g /\
  match tp with
  | TensorType (Some true) => input_state tp = Zero
  | TensorType (Some false) => input_state tp = Nonzero
  | TensorType None => input_state tp = Unknown
  | ListType (TensorType _) => input_state tp = Nonzero
  | _ => input_state tp = Unknown
  end.
Proof.
  intros Hnd Hin. split_and!.
  - simpl. by apply init_state_lookup.
  - by destruct g.
  - destruct tp as [[[|]|]|[[[|]|]| | | | |]| | | |]; reflexivity.
Qed.

(** C2 as the spec states it fails: a tensor input whose flag is not known
    is classified [Unknown], not [Nonzero]. *)
Lemma initializer_unknown_flag_counterexample :
  let g := mkGraph [(0, TensorType None)] [] [] 1 0 in
  p_state (start g) !! 0 = Some Unknown /\ p_state (start g) !! 0 <> Some Nonzero.
Proof. split; [reflexivity|discriminate]. Qed.

(** C1 as the spec states it fails.  The output of a [prim::profile] node
    without inputs gets no entry; an add of that value reads [Nonzero] for
    it and is rewritten to an ordinary add, a [Nonzero]-specific rewrite. *)
Lemma missing_entry_counterexample :
  let counter := mkNode 0 prim_profile [] [(0, TensorType None)] [] None in
  let add := mkNode 1 prim_AutogradAdd [0; 0] [(1, TensorType None)] [] None in
  let g := mkGraph [] [counter; add] [1] 2 2 in
  exists p1 p' log,
    visit (start g) = Some (tt, p1, []) /\
    p_after p1 = [add] /\
    p_state p1 !! 0 = None /\
    classify (p_state p1) 0 <> Unknown /\
    specializeAutogradZero g = Finished p' log /\
    map kind (p_nodes p') = [prim_profile; prim_Constant; aten_add] /\
    log <> [].
Proof.
  simpl. eexists _, _, _. split_and!.
  - vm_compute. reflexivity.
  - reflexivity.
  - reflexivity.
  - discriminate.
  - vm_compute. reflexivity.
  - reflexivity.
  - discriminate.
Qed.

(** When the traversal is at a [prim::AutogradAdd] node [n] with
    operands [a], [b] and output [o] in a well-formed graph, and both
    operands are classified [Nonzero]: the iteration puts, just before the
    place of [n], a constant 1 and an [aten::add] node whose inputs are
    exactly [a], [b] and that constant and whose output has the type of
    [o]; the new output is classified [Nonzero] and no other classification
    changes; every use of [o] has become the new output; [n] is no longer in
    the graph. *)
Lemma iteration_downgrades_add p n rest a b more o ty :
  well_formed p = true ->
  p_after p = n :: rest ->
  kind n = prim_AutogradAdd ->
  inputs n = a :: b :: more ->
  outputs n = [(o, ty)] ->
  classify (p_state p) a = Nonzero ->
  classify (p_state p) b = Nonzero ->
  let u := p_unique p in
  let i := p_nid p in
  exists p' log,
    visit p = Some (tt, p', log) /\
    p_inputs p' = p_inputs p /\
    p_before p' =
      p_before p ++
      [mkNode i prim_Constant [] [(u, IntType)] [] (Some 1%Z);
       mkNode (S i) aten_add [a; b; u] [(S u, ty)] [] None] /\
    p_after p' = subst_nodes o (S u) rest /\
    p_outputs p' = map (subst_value o (S u)) (p_outputs p) /\
    classify (p_state p') (S u) = Nonzero /\
    (forall v, v <> S u -> classify (p_state p') v = classify (p_state p) v) /\
    (o ∉ p_uses p') /\
    (nid n ∉ nids (p_nodes p')).
Proof.
  intros HWF Hafter Hk Hin Hout Ha Hb u i.
  destruct p as [st ins bef aft outs u0 i0]. simpl in *. subst aft u i.
  pose proof HWF as HWF'. apply well_formed_WF in HWF'. unfold p_nodes in HWF'.
  simpl in HWF'.
  destruct (visit_add st ins bef n rest outs u0 i0 a b more o ty Hk Hin Hout Ha Hb)
    as (st1 & Hst & Hvisit).
  { intros m Hm. by eapply WF_nids_fresh. }
  simpl in Hvisit.
  pose proof (Step_add_WF st1 ins bef n rest outs u0 i0 a b more o ty HWF' Hin Hout) as Hl.
  unfold add_log in Hl. rewrite !Forall_cons in Hl.
  destruct Hl as (_ & _ & _ & _ & _ & E6 & _ & E8 & _).
  apply well_formed_WF in E6, E8. unfold p_nodes in E6, E8. simpl in E6, E8.
  assert (o ∈ out_values n) as Ho by (unfold out_values; rewrite Hout; set_solver).
  destruct (WF_before_unused _ _ _ _ _ _ _ _ (S u0) E6 Ho) as [Hbef _].
  rewrite Hbef in Hvisit, E8.
  eexists _, _. split; [exact Hvisit|]. simpl.
  split_and!; try done.
  - apply classify_insert.
  - intros v Hne. by rewrite classify_insert_ne, Hst.
  - unfold p_uses, p_nodes. simpl.
    rewrite uses_app, <- !app_assoc, not_elem_of_app. split.
    + rewrite <- Hbef, uses_subst. apply subst_value_gone.
      eapply (WF_out_ne _ _ n [] rest); [exact E6|done|].
      rewrite defs_app. unfold defs at 2 3. simpl. set_solver.
    + apply rauw_gone. eapply (WF_out_ne _ _ n [] rest); [exact E6|done|].
      rewrite defs_app. unfold defs at 2 3. simpl. set_solver.
  - unfold p_nodes. simpl. rewrite nids_app, nids_subst, <- nids_app.
    by apply (WF_nid_gone _ _ _ _ _ _ _ E6).
Qed.

(** When the traversal is at a [prim::AutogradAdd] node [n] with
    operands [a], [b] and output [o], and neither operand is classified
    [Zero] and they are not both classified [Nonzero]: the iteration
    performs no mutation, the graph is as it was, [o] is classified
    [Unknown] and no other classification changes. *)
Lemma iteration_keeps_mixed_add p n rest a b more o ty :
  p_after p = n :: rest ->
  kind n = prim_AutogradAdd ->
  inputs n = a :: b :: more ->
  outputs n = [(o, ty)] ->
  classify (p_state p) a <> Zero ->
  classify (p_state p) b <> Zero ->
  ~ (classify (p_state p) a = Nonzero /\ classify (p_state p) b = Nonzero) ->
  exists p',
    visit p = Some (tt, p', []) /\
    graph_of p' = graph_of p /\
    p_before p' = p_before p ++ [n] /\
    p_after p' = rest /\
    classify (p_state p') o = Unknown /\
    (forall v, v <> o -> classify (p_state p') v = classify (p_state p) v).
Proof.
  intros Hafter Hk Hin Hout Ha Hb Hab.
  destruct p as [st ins bef aft outs u i]. simpl in *. subst aft.
  destruct (visit_kept st ins bef n rest outs u i [o] Unknown) as (st' & Hv & Hst).
  { by eapply Kept_AutogradAdd. }
  eexists. split; [exact Hv|]. unfold graph_of, p_nodes. simpl.
  split_and!; try done.
  - by rewrite <- app_assoc.
  - rewrite Hst. rewrite decide_True; [done|]. set_solver.
  - intros v Hne. rewrite Hst. rewrite decide_False; [done|]. set_solver.
Qed.

(** When the traversal is at a [prim::If] node [n] whose condition is
    defined by a node of another kind than [prim::AutogradAnyNonZero]: the
    iteration performs no mutation, the graph (the conditional and its
    blocks included) is as it was, every output of [n] is classified
    [Unknown] and no other classification changes. *)
Lemma iteration_keeps_other_conditional p n rest cond more k gs :
  p_after p = n :: rest ->
  kind n = prim_If ->
  inputs n = cond :: more ->
  producer p cond = Some (k, gs) ->
  k <> prim_AutogradAnyNonZero ->
  exists p',
    visit p = Some (tt, p', []) /\
    graph_of p' = graph_of p /\
    p_before p' = p_before p ++ [n] /\
    p_after p' = rest /\
    (forall o, o ∈ out_values n -> classify (p_state p') o = Unknown) /\
    (forall v, v ∉ out_values n -> classify (p_state p') v = classify (p_state p) v).
Proof.
  intros Hafter Hk Hin Hp Hne.
  destruct p as [st ins bef aft outs u i]. simpl in *. subst aft.
  destruct (visit_kept st ins bef n rest outs u i (out_values n) Unknown)
    as (st' & Hv & Hst).
  { by eapply Kept_If_other. }
  eexists. split; [exact Hv|]. unfold graph_of, p_nodes. simpl.
  split_and!; try done.
  - by rewrite <- app_assoc.
  - intros o Ho. rewrite Hst. by rewrite decide_True.
  - intros v Hv'. rewrite Hst. by rewrite decide_False.
Qed.

Lemma nids_subst_seq sigma ns : nids (subst_seq_nodes sigma ns) = nids ns.
Proof.
  revert ns. induction sigma as [|[o w] sigma IH]; intros ns; [done|].
  unfold subst_seq_nodes in *. simpl. by rewrite IH, nids_subst.
Qed.

(** When the traversal is at a [prim::If] node [n] of a well-formed
    graph whose condition is defined by a [prim::AutogradAnyNonZero] node
    all of whose operands are classified [Zero]: the iteration puts one
    [prim::AutogradZero] node at the place of [n], classifies its output
    [Zero] and changes no other classification; every use of every output
    of [n] has become that output; [n] is no longer in the graph. *)
Lemma iteration_collapses_conditional p n rest cond more gs :
  well_formed p = true ->
  p_after p = n :: rest ->
  kind n = prim_If ->
  inputs n = cond :: more ->
  producer p cond = Some (prim_AutogradAnyNonZero, gs) ->
  Forall (fun v => classify (p_state p) v = Zero) gs ->
  let u := p_unique p in
  let i := p_nid p in
  let sigma := map (fun o => (o, u)) (out_values n) in
  exists p' log,
    visit p = Some (tt, p', log) /\
    p_inputs p' = p_inputs p /\
    p_before p' = p_before p /\
    p_after p' =
      mkNode i prim_AutogradZero [] [(u, TensorType_get)] [] None ::
      subst_seq_nodes sigma rest /\
    p_outputs p' = subst_seq_values sigma (p_outputs p) /\
    classify (p_state p') u = Zero /\
    (forall v, v <> u -> classify (p_state p') v = classify (p_state p) v) /\
    (forall o, o ∈ out_values n -> o ∉ p_uses p') /\
    (nid n ∉ nids (p_nodes p')).
Proof.
  intros HWF Hafter Hk Hin Hp Hz u i sigma.
  destruct p as [st ins bef aft outs u0 i0]. simpl in *. subst aft u i.
  pose proof HWF as HWF'. apply well_formed_WF in HWF'. unfold p_nodes in HWF'.
  simpl in HWF'.
  destruct (visit_zeros st ins bef n rest outs u0 i0 cond more gs Hk Hin Hp Hz)
    as (st1 & Hst & Hvisit).
  simpl in Hvisit.
  destruct (Step_zeros_WF (<[u0 := Zero]> st1) ins bef n rest outs u0 i0 HWF')
    as (_ & Heq & _ & _ & Hunused).
  simpl in Heq. rewrite Heq in Hvisit.
  eexists _, _. split; [exact Hvisit|]. simpl.
  split_and!; try done.
  - apply classify_insert.
  - intros v Hne. by rewrite classify_insert_ne, Hst.
  - intros o Ho. unfold p_uses, p_nodes. simpl.
    rewrite uses_app, uses_leaf by done. rewrite <- app_assoc, not_elem_of_app.
    split; [|by apply Hunused].
    destruct (WF_own_output _ _ _ _ _ _ _ _ HWF' Ho) as [_ Hu].
    rewrite uses_app in Hu. set_solver.
  - unfold p_nodes. simpl. rewrite nids_app, nids_cons. simpl.
    fold sigma. rewrite nids_subst_seq.
    pose proof (WF_nid_gone _ _ _ _ _ _ _ HWF') as Hgone.
    rewrite nids_app in Hgone.
    assert (nid n < i0) by (eapply WF_nids_fresh; [exact HWF'|set_solver]).
    unfold nested. simpl. rewrite !not_elem_of_app in *.
    rewrite not_elem_of_cons. split_and!; try tauto. lia.
Qed.

(** When the traversal is at a [prim::If] node [n]
    of a well-formed graph whose condition is defined by a
    [prim::AutogradAnyNonZero] node that has at least one operand, all
    operands classified [Nonzero], and the first block of [n] has a return
    value for each output of [n]: the iteration moves the nodes of that
    block, in their order, to just before the place of [n]; every use of
    the output at each position has become the return value at that
    position, and that return value is classified [Nonzero]; [n] is no
    longer in the graph. *)
Lemma iteration_inlines_conditional p n rest cond more gs ms rs bs :
  well_formed p = true ->
  p_after p = n :: rest ->
  kind n = prim_If ->
  inputs n = cond :: more ->
  producer p cond = Some (prim_AutogradAnyNonZero, gs) ->
  gs <> [] ->
  Forall (fun v => classify (p_state p) v = Nonzero) gs ->
  blocks n = mkBlock ms rs :: bs ->
  length (outputs n) <= length rs ->
  let sigma := zip (out_values n) rs in
  exists p' log,
    visit p = Some (tt, p', log) /\
    p_inputs p' = p_inputs p /\
    p_before p' = p_before p ++ ms /\
    p_after p' = subst_seq_nodes sigma rest /\
    p_outputs p' = subst_seq_values sigma (p_outputs p) /\
    (forall r, r ∈ sigma.*2 -> classify (p_state p') r = Nonzero) /\
    (forall v, v ∉ sigma.*2 -> classify (p_state p') v = classify (p_state p) v) /\
    (forall o, o ∈ out_values n -> o ∉ p_uses p') /\
    (nid n ∉ nids (p_nodes p')).
Proof.
  intros HWF Hafter Hk Hin Hp Hgs Hnz Hbl Hlen sigma.
  destruct p as [st ins bef aft outs u i]. simpl in *. subst aft.
  pose proof HWF as HWF'. apply well_formed_WF in HWF'. unfold p_nodes in HWF'.
  simpl in HWF'.
  assert (~ Forall (fun v => classify st v = Zero) gs) as Hz.
  { destruct gs as [|g gs]; [done|]. intros HF.
    apply Forall_cons in HF as [HF _]. apply Forall_cons in Hnz as [Hnz _].
    congruence. }
  destruct (Step_hoist_WF st ins bef n rest outs u i ms rs bs HWF' Hbl Hlen)
    as (HWFh & HWFf & _ & Hunused).
  destruct (visit_hoist st ins bef n rest outs u i cond more gs ms rs bs
              Hk Hin Hp Hz Hnz Hbl HWFh) as (st1 & Hst & Hvisit).
  simpl in Hvisit. rewrite bool_decide_eq_true_2 in Hvisit by done.
  assert (pairs_from n rs 0 (length (outputs n)) = sigma) as Hsig.
  { unfold pairs_from, sigma. rewrite !drop_0.
    assert (length (out_values n) = length (outputs n)) as Hl
      by (unfold out_values; apply length_fmap).
    rewrite (take_ge (out_values n)) by lia.
    rewrite <- Hl. apply zip_with_take_r. }
  rewrite Hsig in *.
  eexists _, _. split; [exact Hvisit|]. simpl.
  assert (forall v, classify (foldl (fun st ow => <[ow.2 := Nonzero]> st) st1 sigma) v =
                    if decide (v ∈ sigma.*2) then Nonzero else classify st v) as Hcl.
  { intros v. rewrite <- Hst. clear. revert st1.
    induction sigma as [|[o r] sigma IH]; intros st1; simpl.
    - destruct (decide (v ∈ [])) as [H|_]; [by apply elem_of_nil in H|done].
    - rewrite IH. destruct (decide (v ∈ sigma.*2)) as [Hin|Hnin].
      + rewrite decide_True; [done|by right].
      + destruct (decide (v = r)) as [->|Hne].
        * rewrite decide_True; [|by left]. apply classify_insert.
        * rewrite decide_False; [by apply classify_insert_ne|].
          intros Hx. apply elem_of_cons in Hx as [?|?]; done. }
  split_and!; try done.
  - intros r Hr. rewrite Hcl. by rewrite decide_True.
  - intros v Hv. rewrite Hcl. by rewrite decide_False.
  - intros o Ho. unfold p_uses, p_nodes. simpl.
    rewrite uses_app, <- app_assoc, not_elem_of_app. split; [|by apply Hunused].
    assert (o ∈ out_values (with_body n [])) as Ho' by done.
    replace (bef ++ ms ++ with_body n [] :: rest)
      with ((bef ++ ms) ++ with_body n [] :: rest) in HWFh by (by rewrite <- app_assoc).
    destruct (WF_own_output _ _ _ _ _ _ _ _ HWFh Ho') as [_ Hu].
    rewrite uses_app in Hu. set_solver.
  - unfold p_nodes. simpl. rewrite nids_app, nids_subst_seq, <- nids_app.
    replace (bef ++ ms ++ with_body n [] :: rest)
      with ((bef ++ ms) ++ with_body n [] :: rest) in HWFh by (by rewrite <- app_assoc).
    apply (WF_nid_gone _ _ _ _ _ _ _ HWFh).
Qed.

(** ** The theorems at concrete graphs *)

Lemma missing_entry_reads_Nonzero_witness :
  classify (p_state (mkPass ∅ [] [] [] [] 0 0)) 7 = Nonzero.
Proof.
  exact (proj1 (missing_entry_reads_Nonzero (mkPass ∅ [] [] [] [] 0 0) 7 eq_refl)).
Defined.

Lemma initializer_classification_witness :
  p_state (start ex_graph) !! 0 = Some Zero.
Proof.
  refine (proj1 (initializer_classification ex_graph 0 (TensorType (Some true)) _ _)).
  - apply (bool_decide_unpack _). vm_compute. exact I.
  - apply (bool_decide_unpack _). vm_compute. exact I.
Defined.

Lemma ordering_preserved_witness :
  specializeAutogradZero ex_graph <> OutOfFuel /\
  forall p log, specializeAutogradZero ex_graph = Finished p log ->
    p_after p = [] /\ scoped p = true /\ Forall (fun q => scoped q = true) log.
Proof.
  apply (ordering_preserved ex_graph). vm_compute. reflexivity.
Defined.

(** ** A second run *)

Lemma inert_Kept c prod n : inert n = true -> Kept c prod n (out_values n) Unknown.
Proof.
  unfold inert. intros H. apply Kept_other; intros E; by rewrite E in H.
Qed.

(** A node that is kept under the classifications [c1] is kept under
    classifications [c2] that know no more than [c1] does. *)
Lemma Kept_refine c1 c2 prod1 prod2 n os s (S : list Value) :
  Kept c1 prod1 n os s ->
  (forall v, v ∈ S -> c2 v = c1 v \/ c2 v = Unknown) ->
  (forall v, v ∈ inputs n -> v ∈ S) ->
  (forall cond more k gs, inputs n = cond :: more -> prod1 cond = Some (k, gs) ->
     prod2 cond = Some (k, gs) /\ forall g, g ∈ gs -> g ∈ S) ->
  Kept c2 prod2 n os s.
Proof.
  intros HK HR Hin Hprod.
  destruct HK as [a b more o ty Hk Hi Hout Ha Hb Hab | o ty Hk Hout | Hk Hi
    | o ty Hk Hi Hout | o f Hk Hout | cond more k gs Hk Hi Hp Hne
    | cond more gs Hk Hi Hp Hz Hnz | H1 H2 H3 H4 H5 H6].
  - assert (a ∈ S) as HaS by (apply Hin; rewrite Hi; set_solver).
    assert (b ∈ S) as HbS by (apply Hin; rewrite Hi; set_solver).
    destruct (HR a HaS) as [Ea|Ea], (HR b HbS) as [Eb|Eb];
      eapply Kept_AutogradAdd; eauto; rewrite ?Ea, ?Eb; try done;
      intros [? ?]; congruence.
  - by eapply Kept_AutogradZero.
  - by eapply Kept_counter.
  - by eapply Kept_profile.
  - by eapply Kept_guard.
  - destruct (Hprod _ _ _ _ Hi Hp) as [Hp2 _]. by eapply Kept_If_other.
  - destruct (Hprod _ _ _ _ Hi Hp) as [Hp2 Hgs].
    eapply Kept_If_mixed; eauto.
    + intros HF. apply Hz. apply Forall_forall. intros g Hg.
      rewrite Forall_forall in HF. specialize (HF g Hg).
      destruct (HR g (Hgs g Hg)); congruence.
    + intros HF. apply Hnz. apply Forall_forall. intros g Hg.
      rewrite Forall_forall in HF. specialize (HF g Hg).
      destruct (HR g (Hgs g Hg)); congruence.
  - by eapply Kept_other.
Qed.

Lemma Kept_ext c c' prod n os s :
  (forall v, c' v = c v) -> Kept c prod n os s -> Kept c' prod n os s.
Proof.
  intros Hc HK.
  destruct HK as [a b more o ty Hk Hi Hout Ha Hb Hab | o ty Hk Hout | Hk Hi
    | o ty Hk Hi Hout | o f Hk Hout | cond more k gs Hk Hi Hp Hne
    | cond more gs Hk Hi Hp Hz Hnz | H1 H2 H3 H4 H5 H6].
  - eapply Kept_AutogradAdd; eauto; rewrite ?Hc; done.
  - by eapply Kept_AutogradZero.
  - by eapply Kept_counter.
  - by eapply Kept_profile.
  - by eapply Kept_guard.
  - by eapply Kept_If_other.
  - eapply Kept_If_mixed; eauto.
    + intros HF. apply Hz. eapply Forall_impl; [exact HF|]. intros g. simpl.
      by rewrite Hc.
    + intros HF. apply Hnz. eapply Forall_impl; [exact HF|]. intros g. simpl.
      by rewrite Hc.
  - by eapply Kept_other.
Qed.

(** *** The node that defines a value *)

Lemma find_skip {A} (f : A -> bool) (l1 l2 : list A) :
  (forall x, x ∈ l1 -> f x = false) -> find f (l1 ++ l2) = find f l2.
Proof.
  induction l1 as [|x l1 IH]; intros H; simpl; [done|].
  rewrite (H x) by (by left). apply IH. intros y Hy. apply H. by right.
Qed.

Lemma all_defs_elem m ns v : m ∈ flatten ns -> v ∈ out_values m -> v ∈ all_defs ns.
Proof.
  intros Hm Hv. unfold all_defs, defs.
  apply list_elem_of_split in Hm as (l1 & l2 & ->).
  rewrite map_app, concat_app. simpl. set_solver.
Qed.

Lemma producer_in_top S0 xs t ys v :
  v ∉ S0 -> v ∉ all_defs xs -> v ∈ out_values t ->
  producer_in S0 (xs ++ t :: ys) v = Some (kind t, inputs t).
Proof.
  intros HS Hxs Ht. unfold producer_in.
  rewrite bool_decide_eq_false_2 by done.
  rewrite flatten_app, flatten_cons, find_skip.
  - simpl. by rewrite bool_decide_eq_true_2.
  - intros m Hm. apply bool_decide_eq_false_2. intros Hv.
    apply Hxs. by eapply all_defs_elem.
Qed.

Lemma WF_output_fresh S0 xs t ys outs u i o :
  WF S0 (xs ++ t :: ys) outs u i -> o ∈ out_values t ->
  o ∉ S0 ++ all_defs (nested t) ++ all_defs (xs ++ ys).
Proof.
  intros (_ & H2 & _) Ho.
  rewrite all_defs_middle, (Permutation_app_swap_app S0) in H2.
  apply NoDup_app in H2 as (_ & Hfresh & _). by apply Hfresh.
Qed.

Lemma defs_elem ns v : v ∈ defs ns -> exists t, t ∈ ns /\ v ∈ out_values t.
Proof.
  unfold defs. induction ns as [|n ns IH]; simpl.
  - intros H. by apply elem_of_nil in H.
  - intros H. apply elem_of_app in H as [H|H].
    + exists n. split; [by left|done].
    + destruct (IH H) as (t & Ht & Hv). exists t. split; [by right|done].
Qed.

(** The node that defines an input of the current node is before it, its
    own inputs are in scope, and it is found whatever follows. *)
Lemma producer_scope S0 bef n rest outs u i cond k gs :
  WF S0 (bef ++ n :: rest) outs u i ->
  cond ∈ inputs n ->
  producer_in S0 (bef ++ n :: rest) cond = Some (k, gs) ->
  (forall ext, producer_in S0 (bef ++ ext) cond = Some (k, gs)) /\
  (forall g, g ∈ gs -> g ∈ S0 ++ defs bef).
Proof.
  intros HWF Hc Hp.
  pose proof (WF_input_scope _ _ _ _ _ _ _ _ HWF Hc) as Hsc.
  destruct (decide (cond ∈ S0)) as [HS|HS].
  - unfold producer_in in *. rewrite bool_decide_eq_true_2 in * by done.
    injection Hp as <- <-. split; [done|]. intros g Hg. by apply elem_of_nil in Hg.
  - apply elem_of_app in Hsc as [?|Hd]; [done|].
    apply defs_elem in Hd as (t & Ht & Hv).
    apply list_elem_of_split in Ht as (xs & ys & ->).
    rewrite <- app_assoc in HWF, Hp. simpl in HWF, Hp.
    pose proof (WF_output_fresh _ _ _ _ _ _ _ _ HWF Hv) as Hfresh.
    assert (cond ∉ all_defs xs) as Hxs.
    { intros Hx. apply Hfresh. rewrite all_defs_app. set_solver. }
    rewrite (producer_in_top S0 xs t _ cond HS Hxs Hv) in Hp.
    injection Hp as <- <-. split.
    + intros ext. rewrite <- app_assoc. simpl. by apply producer_in_top.
    + intros g Hg. pose proof (WF_input_scope _ _ _ _ _ _ _ _ HWF Hg) as Hgs.
      rewrite defs_app. set_solver.
Qed.

(** *** Replaying the kept nodes *)

Lemma replay_run ins bef st2 :
  Replay ins bef st2 ->
  forall ext outs u i fuel,
  exists st2a,
    (forall v, classify st2a v = classify st2 v) /\
    run (length bef + fuel) (mkPass (init_state ins) ins [] (bef ++ ext) outs u i) =
    run fuel (mkPass st2a ins bef ext outs u i).
Proof.
  induction 1 as [|bef st2 n os s st2' HR IH HK Hst2']; intros ext outs u i fuel.
  - by exists (init_state ins).
  - destruct (IH (n :: ext) outs u i (S fuel)) as (st2a & Hcl & Hrun).
    assert (Kept (classify st2a) (producer (mkPass st2a ins bef (n :: ext) outs u i)) n os s)
      as HK'.
    { eapply Kept_ext; [exact Hcl|]. apply HK. }
    destruct (visit_kept _ _ _ _ _ _ _ _ _ _ HK') as (st' & Hv & Hst').
    exists st'. split.
    + intros v. by rewrite Hst', Hst2', Hcl.
    + rewrite length_app. simpl.
      replace (length bef + 1 + fuel) with (length bef + S fuel) by lia.
      rewrite <- app_assoc. simpl. rewrite Hrun.
      change (run (S fuel) (mkPass st2a ins bef (n :: ext) outs u i))
        with (match visit (mkPass st2a ins bef (n :: ext) outs u i) with
              | None => Raised
              | Some (_, p', l) =>
                  match run fuel p' with
                  | Finished q l' => Finished q (l ++ l')
                  | o => o
                  end
              end).
      rewrite Hv. simpl. by destruct (run fuel _).
Qed.

Lemma length_le_iterations ns : length ns <= iterations ns.
Proof.
  induction ns as [|n ns IH]; [done|].
  rewrite iterations_cons. simpl. pose proof (weight_pos n). lia.
Qed.


Lemma Replay_inert ins ms : forall bef st2,
  Replay ins bef st2 -> forallb inert ms = true ->
  Replay ins (bef ++ ms) (foldl (fun st o => <[o := Unknown]> st) st2 (defs ms)).
Proof.
  induction ms as [|m ms IH]; intros bef st2 HR Hin; simpl in *.
  - by rewrite app_nil_r.
  - apply andb_true_iff in Hin as [Hm Hms].
    rewrite defs_cons, foldl_app.
    replace (bef ++ m :: ms) with ((bef ++ [m]) ++ ms) by (by rewrite <- app_assoc).
    apply IH; [|done].
    eapply Replay_snoc; [exact HR| |].
    + intros ext. by apply inert_Kept.
    + intros v. apply classify_foldl_insert.
Qed.

(** *** The canonical shape is kept by the replacements *)

Lemma forallb_inert_subst o w ms :
  forallb inert (map (subst_node o w) ms) = forallb inert ms.
Proof.
  induction ms as [|m ms IH]; simpl; [done|].
  rewrite IH. f_equal. unfold inert. by rewrite subst_node_kind.
Qed.

Lemma canonical_node_subst o w n :
  canonical_node n = true -> o ∉ all_defs (nested n) ->
  canonical_node (subst_node o w n) = true.
Proof.
  destruct n as [id k ins outs bs a]. unfold canonical_node, nested. simpl.
  destruct k; try done.
  destruct bs as [|[ms rs] bs]; simpl; [done|].
  rewrite all_defs_app, not_elem_of_app, andb_true_iff.
  intros [Hin Hrs] [Ho _].
  rewrite forallb_elem_of in Hrs.
  assert (o ∉ rs) as Hors.
  { intros Hx. apply Ho. apply defs_all_defs. auto. }
  rewrite forallb_inert_subst, Hin, subst_value_id by done. simpl.
  fold (subst_nodes o w ms). rewrite defs_subst. by apply forallb_elem_of.
Qed.

Lemma canonical_subst o w ns :
  forallb canonical_node ns = true -> o ∉ all_defs ns ->
  forallb canonical_node (subst_nodes o w ns) = true.
Proof.
  induction ns as [|n ns IH]; simpl; [done|].
  rewrite all_defs_cons, !not_elem_of_app, !andb_true_iff.
  intros [Hn Hns] (_ & Hnest & Hrest). split; [|by apply IH].
  by apply canonical_node_subst.
Qed.

Lemma all_defs_subst_seq sigma ns : all_defs (subst_seq_nodes sigma ns) = all_defs ns.
Proof.
  revert ns. induction sigma as [|[o w] sigma IH]; intros ns; [done|].
  unfold subst_seq_nodes in *. simpl. by rewrite IH, all_defs_subst.
Qed.

Lemma canonical_subst_seq sigma ns :
  forallb canonical_node ns = true ->
  (forall o, o ∈ sigma.*1 -> o ∉ all_defs ns) ->
  forallb canonical_node (subst_seq_nodes sigma ns) = true.
Proof.
  revert ns. induction sigma as [|[o w] sigma IH]; intros ns Hc Hs; [done|].
  unfold subst_seq_nodes in *. simpl. apply IH.
  - apply canonical_subst; [done|]. apply Hs. simpl. by left.
  - intros o' Ho'. rewrite all_defs_subst. apply Hs. simpl. by right.
Qed.

(** *** The invariant of the first run *)

Lemma Kept_zero_outputs c prod n os s :
  Kept c prod n os s -> kind n = prim_AutogradZero -> os = out_values n.
Proof.
  intros HK Hz. unfold out_values.
  destruct HK as [a b more o ty Hk Hi Hout Ha Hb Hab | o ty Hk Hout | Hk Hi
    | o ty Hk Hi Hout | o f Hk Hout | cond more k gs Hk Hi Hp Hne
    | cond more gs Hk Hi Hp Hz' Hnz | H1 H2 H3 H4 H5 H6];
    rewrite ?Hout; try done; try congruence.
Qed.

Lemma WF_scope_bound S0 xs ys outs u i v :
  WF S0 (xs ++ ys) outs u i -> v ∈ S0 ++ defs xs -> v < u.
Proof.
  intros (_ & _ & _ & H4 & _) Hv. apply H4. rewrite all_defs_app.
  apply elem_of_app in Hv as [Hv|Hv]; [set_solver|].
  apply defs_all_defs in Hv. set_solver.
Qed.

Lemma canonical_split p :
  canonical p = true <->
  well_formed p = true /\ forallb canonical_node (p_after p) = true.
Proof. unfold canonical. by rewrite andb_true_iff. Qed.

Lemma Step_Inv_kept st ins bef n rest outs u i os s st' :
  Kept (classify st) (producer (mkPass st ins bef (n :: rest) outs u i)) n os s ->
  (forall v, classify st' v = if decide (v ∈ os) then s else classify st v) ->
  Inv (mkPass st ins bef (n :: rest) outs u i) ->
  well_formed (mkPass st' ins (bef ++ [n]) rest outs u i) = true ->
  Inv (mkPass st' ins (bef ++ [n]) rest outs u i).
Proof.
  intros HK Hst (Hcan & st2 & HR & Href) HWF'. unfold pending in Href. simpl in *.
  apply canonical_split in Hcan as [HWF Hcan]. simpl in Hcan.
  apply andb_true_iff in Hcan as [Hcn Hcr].
  apply well_formed_WF in HWF. unfold p_nodes in HWF. simpl in HWF.
  split; [apply canonical_split; by split|].
  exists (foldl (fun st o => <[o := s]> st) st2 os). simpl. split.
  - eapply Replay_snoc; [exact HR| |intros v; apply classify_foldl_insert].
    intros ext. eapply (Kept_refine _ _ _ _ _ _ _ (ins.*1 ++ defs bef)); [exact HK| | |].
    + intros v Hv. apply Href.
      destruct (decide (kind n = prim_AutogradZero)); [|apply not_elem_of_nil].
      intros Ho. by destruct (WF_own_output _ _ _ _ _ _ _ _ HWF Ho) as [Hsc _].
    + intros v Hv. by eapply WF_input_scope.
    + intros cond more k gs Hi Hp.
      destruct (producer_scope _ _ _ _ _ _ _ cond k gs HWF) as [H1 H2];
        [rewrite Hi; set_solver|exact Hp|].
      split; [apply H1|exact H2].
  - intros v _. rewrite classify_foldl_insert, Hst.
    destruct (decide (v ∈ os)) as [|Hn]; [by left|].
    apply Href.
    destruct (decide (kind n = prim_AutogradZero)) as [Hz|]; [|apply not_elem_of_nil].
    by rewrite <- (Kept_zero_outputs _ _ _ _ _ HK Hz).
Qed.

Lemma Step_Inv p p' l : Step p p' l -> Inv p -> Inv p'.
Proof.
  intros HS HI. pose proof HI as (Hcan & st2 & HR & Href).
  apply canonical_split in Hcan as [HWF Hcan].
  destruct (Step_WF _ _ _ HS HWF) as [HWF' _].
  apply well_formed_WF in HWF. unfold p_nodes in HWF. unfold pending in Href.
  destruct HS as [st ins bef n rest outs u i os s st' HK Hst
    | st ins bef n rest outs u i a b more o ty w st' Hk Hin Hout Hcase Hst
    | st ins bef n rest outs u i a b more o ty st1 Hk Hin Hout Ha Hb Hst
    | st ins bef n rest outs u i cond more gs st1 Hk Hin Hp Hz Hst
    | st ins bef n rest outs u i cond more gs ms rs bs st1 Hk Hin Hp Hz Hnz Hbl Hlen Hst];
    cbn [p_state p_inputs p_before p_after p_outputs p_unique p_nid] in *.
  - by eapply Step_Inv_kept.
  - rewrite Hk in Href. simpl in Href.
    destruct (Step_forward_WF ins bef n rest outs u i a b more o ty w HWF Hin Hout)
      as (Hbef & _).
    { destruct Hcase as [[_ ->]|(_ & _ & ->)]; auto. }
    rewrite Hbef in *. simpl in Hcan. apply andb_true_iff in Hcan as [_ Hcr].
    split.
    + apply canonical_split. split; [done|]. simpl.
      apply canonical_subst; [done|].
      assert (o ∈ out_values n) as Ho by (unfold out_values; rewrite Hout; set_solver).
      pose proof (WF_output_fresh _ _ _ _ _ _ _ _ HWF Ho) as Hf.
      rewrite all_defs_app in Hf. set_solver.
    + exists st2. simpl. split; [done|].
      intros v _. rewrite Hst. apply Href, not_elem_of_nil.
  - rewrite Hk in Href. simpl in Href.
    pose proof (Step_add_WF st1 ins bef n rest outs u i a b more o ty HWF Hin Hout) as Hl.
    unfold add_log in Hl. rewrite !Forall_cons in Hl.
    destruct Hl as (_ & _ & _ & _ & _ & E6 & _).
    apply well_formed_WF in E6. unfold p_nodes in E6. simpl in E6.
    assert (o ∈ out_values n) as Ho by (unfold out_values; rewrite Hout; set_solver).
    destruct (WF_before_unused _ _ _ _ _ _ _ _ (S u) E6 Ho) as [Hbef _].
    rewrite Hbef in *. simpl in Hcan. apply andb_true_iff in Hcan as [_ Hcr].
    split.
    + apply canonical_split. split; [done|]. simpl.
      apply canonical_subst; [done|].
      pose proof (WF_output_fresh _ _ _ _ _ _ _ _ HWF Ho) as Hf.
      rewrite all_defs_app in Hf. set_solver.
    + exists (foldl (fun st o => <[o := Unknown]> st) st2
                (defs [cOne_node u i; add_node u i [a; b; u] ty])).
      split;
        [exact (Replay_inert ins [cOne_node u i; add_node u i [a; b; u] ty]
                  bef st2 HR eq_refl)|].
      cbn [p_state p_inputs p_before].
      intros v _. rewrite classify_foldl_insert.
      destruct (decide (v ∈ defs [cOne_node u i; add_node u i [a; b; u] ty]))
        as [|Hn]; [by right|].
      assert (S u <> v) as Hne.
      { intros <-. apply Hn. unfold defs. simpl. set_solver. }
      rewrite classify_insert_ne by done. rewrite Hst. apply Href, not_elem_of_nil.
  - rewrite Hk in Href. simpl in Href.
    destruct (Step_zeros_WF (<[u := Zero]> st1) ins bef n rest outs u i HWF)
      as (_ & Heq & _).
    simpl in Heq. rewrite Heq in *. clear Heq.
    simpl in Hcan. apply andb_true_iff in Hcan as [_ Hcr].
    split.
    + apply canonical_split. split; [done|]. simpl.
      apply canonical_subst_seq; [done|].
      intros o Ho. rewrite <- list_fmap_compose in Ho. simpl in Ho.
      rewrite list_fmap_id in Ho.
      pose proof (WF_output_fresh _ _ _ _ _ _ _ _ HWF Ho) as Hf.
      rewrite all_defs_app in Hf. set_solver.
    + exists st2. simpl. split; [done|].
      unfold pending. simpl. intros v Hv.
      assert (u <> v) as Hne.
      { intros <-. apply Hv. unfold zero_node, out_values. simpl. set_solver. }
      rewrite classify_insert_ne by done. rewrite Hst. apply Href, not_elem_of_nil.
  - rewrite Hk in Href. simpl in Href.
    simpl in Hcan. apply andb_true_iff in Hcan as [Hcn Hcr].
    unfold canonical_node in Hcn. rewrite Hk, Hbl in Hcn. simpl in Hcn.
    apply andb_true_iff in Hcn as [Hinert Hrets].
    rewrite forallb_elem_of in Hrets.
    split.
    + apply canonical_split. split; [done|]. simpl.
      apply canonical_subst_seq; [done|].
      intros o Ho. rewrite pairs_from_all in Ho by done.
      pose proof (WF_output_fresh _ _ _ _ _ _ _ _ HWF Ho) as Hf.
      rewrite all_defs_app in Hf. set_solver.
    + exists (foldl (fun st o => <[o := Unknown]> st) st2 (defs ms)).
      simpl. split; [by apply Replay_inert|].
      intros v _. rewrite classify_foldl_insert.
      destruct (decide (v ∈ defs ms)) as [|Hn]; [by right|].
      assert (classify (foldl (fun st ow => <[ow.2 := Nonzero]> st) st1
                          (pairs_from n rs 0 (length (outputs n)))) v =
              classify st1 v) as ->.
      { assert (forall ow, ow ∈ pairs_from n rs 0 (length (outputs n)) -> ow.2 <> v)
          as Hne.
        { intros ow How Heq. apply pairs_from_elem in How as [_ Hr].
          rewrite Heq in Hr. auto. }
        revert Hne. generalize (pairs_from n rs 0 (length (outputs n))). clear.
        intros sigma. revert st1.
        induction sigma as [|ow sigma IH]; intros st1 Hne; simpl; [done|].
        rewrite IH by (intros; apply Hne; by right).
        apply classify_insert_ne. apply Hne. by left. }
      rewrite Hst. apply Href, not_elem_of_nil.
Qed.

Lemma run_Inv fuel : forall p q l,
  Inv p -> run fuel p = Finished q l -> Inv q /\ p_after q = [].
Proof.
  induction fuel as [|fuel IH]; intros p q l HI Hrun; simpl in Hrun.
  - destruct (p_after p) as [|n rest] eqn:E; [|done].
    by injection Hrun as <- <-.
  - destruct (p_after p) as [|n rest] eqn:E.
    { by injection Hrun as <- <-. }
    destruct (visit p) as [[[[] p'] l1]|] eqn:Hv; [|done].
    pose proof HI as (Hcan & _). apply canonical_split in Hcan as [HWF _].
    pose proof (visit_Step _ _ _ HWF Hv) as HS.
    pose proof (Step_Inv _ _ _ HS HI) as HI'.
    destruct (run fuel p') as [q' l2| |] eqn:Hr; try done.
    injection Hrun as <- <-. by eapply IH.
Qed.

Lemma Inv_start g : canonical (start g) = true -> Inv (start g).
Proof.
  intros Hc. split; [done|]. exists (init_state (g_inputs g)). simpl.
  split; [constructor|]. intros v _. by left.
Qed.



(** ** The other cases of the dispatch *)

Lemma kept_summary p n rest os s :
  p_after p = n :: rest ->
  Kept (classify (p_state p)) (producer p) n os s ->
  exists p',
    visit p = Some (tt, p', []) /\
    graph_of p' = graph_of p /\
    p_before p' = p_before p ++ [n] /\
    p_after p' = rest /\
    (forall v, v ∈ os -> classify (p_state p') v = s) /\
    (forall v, v ∉ os -> classify (p_state p') v = classify (p_state p) v).
Proof.
  intros Hafter HK.
  destruct p as [st ins bef aft outs u i]. simpl in *. subst aft.
  destruct (visit_kept st ins bef n rest outs u i os s HK) as (st' & Hv & Hst).
  eexists. split; [exact Hv|]. unfold graph_of, p_nodes. simpl.
  split_and!; try done.
  - by rewrite <- app_assoc.
  - intros v Hin. rewrite Hst. by rewrite decide_True.
  - intros v Hin. rewrite Hst. by rewrite decide_False.
Qed.

(** X1. At a [prim::AutogradZero] node with one output the iteration
    performs no mutation, leaves the graph as it is, classifies the output
    [Zero] and changes no other classification. *)
Theorem AutogradZero_classified_Zero p n rest o ty :
  p_after p = n :: rest ->
  kind n = prim_AutogradZero ->
  outputs n = [(o, ty)] ->
  exists p',
    visit p = Some (tt, p', []) /\
    graph_of p' = graph_of p /\
    p_before p' = p_before p ++ [n] /\
    p_after p' = rest /\
    classify (p_state p') o = Zero /\
    (forall v, v <> o -> classify (p_state p') v = classify (p_state p) v).
Proof.
  intros Hafter Hk Hout.
  destruct (kept_summary p n rest [o] Zero Hafter) as (p' & Hv & Hg & Hb & Ha & Ho & Hrest).
  { by eapply Kept_AutogradZero. }
  exists p'. split_and!; try done.
  - apply Ho. set_solver.
  - intros v Hne. apply Hrest. set_solver.
Qed.

(** X2. At a [prim::profile] node that has an input and one output the
    iteration performs no mutation and classifies the output [Unknown];
    at a [prim::profile] node without input (a counter) it changes no
    classification at all, whatever outputs the node has. *)
Theorem profile_classification p n rest :
  p_after p = n :: rest ->
  kind n = prim_profile ->
  (inputs n = [] \/ exists o ty, outputs n = [(o, ty)]) ->
  exists p',
    visit p = Some (tt, p', []) /\
    graph_of p' = graph_of p /\
    p_before p' = p_before p ++ [n] /\
    p_after p' = rest /\
    (inputs n = [] ->
       forall v, classify (p_state p') v = classify (p_state p) v) /\
    (inputs n <> [] ->
       forall v, classify (p_state p') v =
                 if decide (v ∈ out_values n) then Unknown else classify (p_state p) v).
Proof.
  intros Hafter Hk Hshape.
  destruct (inputs n) as [|x xs] eqn:Hin.
  - destruct (kept_summary p n rest [] Unknown Hafter)
      as (p' & Hv & Hg & Hb & Ha & _ & Hrest).
    { by eapply Kept_counter. }
    exists p'. split_and!; try done.
    intros _ v. apply Hrest. apply not_elem_of_nil.
  - destruct Hshape as [?|(o & ty & Hout)]; [done|].
    destruct (kept_summary p n rest [o] Unknown Hafter)
      as (p' & Hv & Hg & Hb & Ha & Ho & Hrest).
    { eapply Kept_profile; eauto. by rewrite Hin. }
    exists p'. split_and!; try done.
    intros _ v. unfold out_values. rewrite Hout. simpl.
    destruct (decide (v ∈ [o])); auto.
Qed.

(** X3. At a [prim::BailOut] or [prim::Guard] node whose one output has a
    tensor type the iteration performs no mutation and classifies the
    output by the flag of that type: known true gives [Zero], known false
    gives [Nonzero], not known gives [Unknown]. *)
Theorem guard_classified_by_type p n rest o undefined :
  p_after p = n :: rest ->
  kind n = prim_BailOut \/ kind n = prim_Guard ->
  outputs n = [(o, TensorType undefined)] ->
  exists p',
    visit p = Some (tt, p', []) /\
    graph_of p' = graph_of p /\
    p_before p' = p_before p ++ [n] /\
    p_after p' = rest /\
    classify (p_state p') o =
      match undefined with
      | Some true => Zero
      | Some false => Nonzero
      | None => Unknown
      end /\
    (forall v, v <> o -> classify (p_state p') v = classify (p_state p) v).
Proof.
  intros Hafter Hk Hout.
  destruct (kept_summary p n rest [o] (guard_state undefined) Hafter)
    as (p' & Hv & Hg & Hb & Ha & Ho & Hrest).
  { by eapply Kept_guard. }
  exists p'. split_and!; try done.
  - rewrite Ho by set_solver. by destruct undefined as [[|]|].
  - intros v Hne. apply Hrest. set_solver.
Qed.

(** X4. At a [prim::BailOut] or [prim::Guard] node that does not have
    exactly one output, of a tensor type, the iteration throws:
    [n->output()] and [expect<TensorType>()] assert. *)
Theorem guard_of_other_type_throws p n rest :
  p_after p = n :: rest ->
  kind n = prim_BailOut \/ kind n = prim_Guard ->
  (forall o undefined, outputs n <> [(o, TensorType undefined)]) ->
  visit p = None.
Proof.
  intros Hafter Hk Hshape.
  destruct p as [st ins bef aft outs u i]. simpl in *. subst aft.
  destruct (visit (mkPass st ins bef (n :: rest) outs u i)) as [r|] eqn:Hv; [|done].
  destruct (visit_single_output_shape st ins bef n rest outs u i r) as (o & ty & Hout & Hty);
    [tauto|done|].
  destruct (Hty Hk) as [f ->]. by destruct (Hshape o f).
Qed.

(** X5. At a node of any kind that the switch does not name, the iteration
    performs no mutation and classifies every output of the node
    [Unknown], changing no other classification. *)
Theorem default_case_marks_Unknown p n rest :
  p_after p = n :: rest ->
  inert n = true ->
  exists p',
    visit p = Some (tt, p', []) /\
    graph_of p' = graph_of p /\
    p_before p' = p_before p ++ [n] /\
    p_after p' = rest /\
    (forall o, o ∈ out_values n -> classify (p_state p') o = Unknown) /\
    (forall v, v ∉ out_values n -> classify (p_state p') v = classify (p_state p) v).
Proof.
  intros Hafter Hin. apply kept_summary; [done|]. by apply inert_Kept.
Qed.

(** X6. At a [prim::If] node whose condition is defined by a
    [prim::AutogradAnyNonZero] node whose operands are neither all
    classified [Zero] nor all classified [Nonzero], the iteration performs
    no mutation and classifies every output of the conditional [Unknown]. *)
Theorem If_mixed_guards_kept p n rest cond more gs :
  p_after p = n :: rest ->
  kind n = prim_If ->
  inputs n = cond :: more ->
  producer p cond = Some (prim_AutogradAnyNonZero, gs) ->
  ~ Forall (fun v => classify (p_state p) v = Zero) gs ->
  ~ Forall (fun v => classify (p_state p) v = Nonzero) gs ->
  exists p',
    visit p = Some (tt, p', []) /\
    graph_of p' = graph_of p /\
    p_before p' = p_before p ++ [n] /\
    p_after p' = rest /\
    (forall o, o ∈ out_values n -> classify (p_state p') o = Unknown) /\
    (forall v, v ∉ out_values n -> classify (p_state p') v = classify (p_state p) v).
Proof.
  intros Hafter Hk Hin Hp Hz Hnz. apply kept_summary; [done|].
  by eapply Kept_If_mixed.
Qed.

(** X7. At a [prim::AutogradAdd] node that has fewer than two inputs or
    not exactly one output, the iteration throws ([n->input(1)] is out of
    range, [n->output()] asserts), whatever the classifications are. *)
Theorem AutogradAdd_of_other_shape_throws p n rest :
  p_after p = n :: rest ->
  kind n = prim_AutogradAdd ->
  length (inputs n) < 2 \/ length (outputs n) <> 1 ->
  visit p = None.
Proof.
  intros Hafter Hk Hshape.
  destruct p as [st ins bef aft outs u i]. simpl in *. subst aft.
  destruct (visit (mkPass st ins bef (n :: rest) outs u i)) as [r|] eqn:Hv; [|done].
  destruct (visit_AutogradAdd_shape st ins bef n rest outs u i r Hk Hv)
    as (a & b & more & o & ty & Hin & Hout).
  rewrite Hin, Hout in Hshape. simpl in Hshape. lia.
Qed.

(** X8. At a [prim::If] node whose guards are all classified [Nonzero]
    (and not all [Zero]), the iteration throws when the node has no block,
    or when its first block returns fewer values than the node has
    outputs: [n->blocks().at(0)] and [body->outputs().at(i)] are out of
    range. *)
Theorem If_all_Nonzero_short_body_throws p n rest cond more gs :
  well_formed p = true ->
  p_after p = n :: rest ->
  kind n = prim_If ->
  inputs n = cond :: more ->
  producer p cond = Some (prim_AutogradAnyNonZero, gs) ->
  ~ Forall (fun v => classify (p_state p) v = Zero) gs ->
  Forall (fun v => classify (p_state p) v = Nonzero) gs ->
  (blocks n = [] \/
   exists ms rs bs, blocks n = mkBlock ms rs :: bs /\ length rs < length (outputs n)) ->
  visit p = None.
Proof.
  intros HWF Hafter Hk Hin Hp Hz Hnz Hshape.
  apply well_formed_WF in HWF.
  destruct p as [st ins bef aft outs u i]. unfold p_nodes in HWF. simpl in *. subst aft.
  destruct Hshape as [Hbl|(ms & rs & bs & Hbl & Hlen)].
  - unfold visit, bind, current. simpl. rewrite Hk.
    unfold visit_If, bind, input, lift, value_node. rewrite Hin. simpl.
    rewrite Hp. simpl. unfold visit_GradOf, bind, all_of. simpl.
    apply all_of_state_false in Hz. rewrite Hz.
    assert ((all_of_state Nonzero gs (all_of_state Zero gs st).2).1 = true) as ->.
    { apply all_of_state_true. eapply Forall_impl; [exact Hnz|].
      intros v. simpl. by rewrite all_of_state_classify. }
    unfold block_at, lift. by rewrite Hbl.
  - destruct (WF_hoist_all st ins bef n rest outs u i ms rs bs HWF Hbl) as [HWF' _].
    destruct (visit_hoist st ins bef n rest outs u i cond more gs ms rs bs
                Hk Hin Hp Hz Hnz Hbl HWF') as (st1 & Hst & Hv).
    simpl in Hv. rewrite Hv. rewrite bool_decide_eq_false_2; [done|lia].
Qed.

(** X9. The [prim::AutogradZero] node that takes the place of a conditional
    whose guards are all [Zero] is the node the next iteration visits:
    that iteration keeps it, mutates nothing, classifies its output [Zero]
    again and moves on to the node that followed the conditional. *)
Theorem collapsed_zero_visited_next p n rest cond more gs :
  well_formed p = true ->
  p_after p = n :: rest ->
  kind n = prim_If ->
  inputs n = cond :: more ->
  producer p cond = Some (prim_AutogradAnyNonZero, gs) ->
  Forall (fun v => classify (p_state p) v = Zero) gs ->
  exists p' log p'',
    visit p = Some (tt, p', log) /\
    visit p' = Some (tt, p'', []) /\
    graph_of p'' = graph_of p' /\
    p_before p'' = p_before p ++ [zero_node (p_unique p) (p_nid p)] /\
    p_after p'' =
      subst_seq_nodes (map (fun o => (o, p_unique p)) (out_values n)) rest /\
    classify (p_state p'') (p_unique p) = Zero.
Proof.
  intros HWF Hafter Hk Hin Hp Hz.
  apply well_formed_WF in HWF.
  destruct p as [st ins bef aft outs u i]. unfold p_nodes in HWF. simpl in *. subst aft.
  destruct (visit_zeros st ins bef n rest outs u i cond more gs Hk Hin Hp Hz)
    as (st1 & Hst & Hv). simpl in Hv.
  destruct (Step_zeros_WF (<[u := Zero]> st1) ins bef n rest outs u i HWF)
    as (_ & Heq & _). simpl in Heq. rewrite Heq in Hv.
  set (sigma := map (fun o => (o, u)) (out_values n)) in *.
  set (p' := mkPass (<[u := Zero]> st1) ins bef
               (zero_node u i :: subst_seq_nodes sigma rest)
               (subst_seq_values sigma outs) (S u) (S i)) in *.
  destruct (kept_summary p' (zero_node u i) (subst_seq_nodes sigma rest) [u] Zero eq_refl)
    as (p'' & Hv' & Hg & Hb & Ha & Ho & _).
  { by eapply Kept_AutogradZero. }
  eexists p', _, p''. split; [exact Hv|].
  split_and!; try done. apply Ho. set_solver.
Qed.

Lemma AutogradZero_classified_Zero_witness :
  exists p',
    visit (ex_at (ex_leaf prim_AutogradZero [] (TensorType None))) = Some (tt, p', []) /\
    classify (p_state p') 4 = Zero.
Proof.
  destruct (AutogradZero_classified_Zero
              (ex_at (ex_leaf prim_AutogradZero [] (TensorType None)))
              (ex_leaf prim_AutogradZero [] (TensorType None)) [ex_mul 4 5]
              4 (TensorType None)) as (p' & Hv & _ & _ & _ & Ho & _).
  - reflexivity.
  - reflexivity.
  - reflexivity.
  - exists p'. split; [exact Hv|exact Ho].
Defined.

Lemma profile_classification_witness :
  exists p',
    visit (ex_at (ex_leaf prim_profile [1] (TensorType (Some false)))) = Some (tt, p', []) /\
    classify (p_state p') 4 = Unknown.
Proof.
  destruct (profile_classification
              (ex_at (ex_leaf prim_profile [1] (TensorType (Some false))))
              (ex_leaf prim_profile [1] (TensorType (Some false))) [ex_mul 4 5])
    as (p' & Hv & _ & _ & _ & _ & Ho).
  - reflexivity.
  - reflexivity.
  - right. exists 4, (TensorType (Some false)). reflexivity.
  - exists p'. split; [exact Hv|]. rewrite Ho; [reflexivity|discriminate].
Defined.

Lemma guard_classified_by_type_witness :
  exists p',
    visit (ex_at (ex_leaf prim_Guard [3] (TensorType (Some true)))) = Some (tt, p', []) /\
    classify (p_state p') 4 = Zero.
Proof.
  destruct (guard_classified_by_type
              (ex_at (ex_leaf prim_Guard [3] (TensorType (Some true))))
              (ex_leaf prim_Guard [3] (TensorType (Some true))) [ex_mul 4 5]
              4 (Some true)) as (p' & Hv & _ & _ & _ & Ho & _).
  - reflexivity.
  - right. reflexivity.
  - reflexivity.
  - exists p'. split; [exact Hv|exact Ho].
Defined.

Lemma guard_of_other_type_throws_witness :
  visit (ex_at (ex_leaf prim_BailOut [3] IntType)) = None.
Proof.
  apply (guard_of_other_type_throws (ex_at (ex_leaf prim_BailOut [3] IntType))
           (ex_leaf prim_BailOut [3] IntType) [ex_mul 4 5]).
  - reflexivity.
  - left. reflexivity.
  - intros o f. discriminate.
Defined.

Lemma default_case_marks_Unknown_witness :
  exists p',
    visit (ex_at (ex_leaf (other_kind "aten::relu") [1] (TensorType (Some false)))) =
      Some (tt, p', []) /\
    classify (p_state p') 4 = Unknown.
Proof.
  destruct (default_case_marks_Unknown
              (ex_at (ex_leaf (other_kind "aten::relu") [1] (TensorType (Some false))))
              (ex_leaf (other_kind "aten::relu") [1] (TensorType (Some false)))
              [ex_mul 4 5]) as (p' & Hv & _ & _ & _ & Ho & _).
  - reflexivity.
  - reflexivity.
  - exists p'. split; [exact Hv|]. apply Ho. vm_compute. left.
Defined.

Lemma If_mixed_guards_kept_witness :
  exists p',
    visit (ex_cond_pass prim_AutogradAnyNonZero [0; 1]) = Some (tt, p', []) /\
    classify (p_state p') 5 = Unknown.
Proof.
  destruct (If_mixed_guards_kept (ex_cond_pass prim_AutogradAnyNonZero [0; 1]) ex_cond
              [mkNode 1 (other_kind "aten::mul") [5; 5] [(8, TensorType None)] [] None]
              4 [] [0; 1]) as (p' & Hv & _ & _ & _ & Ho & _).
  - reflexivity.
  - reflexivity.
  - reflexivity.
  - reflexivity.
  - intros H. apply Forall_cons_1 in H as [_ H]. apply Forall_cons_1 in H as [H _].
    discriminate H.
  - intros H. apply Forall_cons_1 in H as [H _]. discriminate H.
  - exists p'. split; [exact Hv|]. apply Ho. vm_compute. left.
Defined.

Lemma AutogradAdd_of_other_shape_throws_witness :
  visit (ex_at (ex_leaf prim_AutogradAdd [1] (TensorType None))) = None.
Proof.
  apply (AutogradAdd_of_other_shape_throws
           (ex_at (ex_leaf prim_AutogradAdd [1] (TensorType None)))
           (ex_leaf prim_AutogradAdd [1] (TensorType None)) [ex_mul 4 5]).
  - reflexivity.
  - reflexivity.
  - left. simpl. lia.
Defined.

Lemma If_all_Nonzero_short_body_throws_witness :
  visit ex_short_pass = None.
Proof.
  apply (If_all_Nonzero_short_body_throws ex_short_pass ex_short_cond
           [mkNode 1 (other_kind "aten::mul") [5; 5] [(8, TensorType None)] [] None]
           4 [] [1; 2]).
  - vm_compute. reflexivity.
  - reflexivity.
  - reflexivity.
  - reflexivity.
  - reflexivity.
  - intros H. apply Forall_cons_1 in H as [H _]. discriminate H.
  - repeat constructor.
  - right. eexists _, _, _. split; [reflexivity|]. simpl. lia.
Defined.

Lemma collapsed_zero_visited_next_witness :
  exists p' log p'',
    visit (ex_cond_pass prim_AutogradAnyNonZero [0]) = Some (tt, p', log) /\
    visit p' = Some (tt, p'', []) /\
    classify (p_state p'') 9 = Zero.
Proof.
  destruct (collapsed_zero_visited_next (ex_cond_pass prim_AutogradAnyNonZero [0]) ex_cond
              [mkNode 1 (other_kind "aten::mul") [5; 5] [(8, TensorType None)] [] None]
              4 [] [0]) as (p' & log & p'' & Hv & Hv' & _ & _ & _ & Ho).
  - vm_compute. reflexivity.
  - reflexivity.
  - reflexivity.
  - reflexivity.
  - reflexivity.
  - repeat constructor.
  - exists p', log, p''. split; [exact Hv|]. split; [exact Hv'|exact Ho].
Defined.

(** ** Reads of the map, and the map before the node loop *)

Lemma touch_subseteq (st : StateMap) v : st ⊆ touch st v.
Proof.
  unfold touch. destruct (st !! v) eqn:E; [done|]. by apply insert_subseteq.
Qed.

Lemma all_of_state_subseteq s vs : forall st : StateMap, st ⊆ (all_of_state s vs st).2.
Proof.
  induction vs as [|v vs IH]; intros st; simpl; [done|].
  destruct (decide (classify st v = s)); simpl.
  - etrans; [apply touch_subseteq|apply IH].
  - apply touch_subseteq.
Qed.

(** X10. The test [std::all_of(..., state[v] == s)] mutates no graph and
    changes only the map: it yields true exactly when every operand reads
    as [s] (so it yields true for an empty operand list, whatever [s] is),
    every entry the map had is still there with its classification, and
    no value reads differently afterwards, although the reads may have
    inserted entries. *)
Theorem all_of_reads_only s vs p :
  exists b st',
    all_of s vs p =
      Some (b, mkPass st' (p_inputs p) (p_before p) (p_after p) (p_outputs p)
                      (p_unique p) (p_nid p), []) /\
    (b = true <-> Forall (fun v => classify (p_state p) v = s) vs) /\
    (vs = [] -> b = true) /\
    p_state p ⊆ st' /\
    (forall v, classify st' v = classify (p_state p) v).
Proof.
  exists (all_of_state s vs (p_state p)).1, (all_of_state s vs (p_state p)).2.
  split_and!.
  - done.
  - apply all_of_state_true.
  - by intros ->.
  - apply all_of_state_subseteq.
  - intros v. apply all_of_state_classify.
Qed.

Lemma foldl_insert_is_Some (ins : list (Value * TypePtr)) v : forall st : StateMap,
  is_Some (foldl (fun st i => <[i.1 := input_state i.2]> st) st ins !! v) <->
  is_Some (st !! v) \/ v ∈ ins.*1.
Proof.
  induction ins as [|[w tp] ins IH]; intros st; simpl.
  - rewrite elem_of_nil. tauto.
  - rewrite IH, elem_of_cons. destruct (decide (w = v)) as [->|Hne].
    + rewrite lookup_insert_eq. split; [intros _|intros _; left; eauto].
      right. by left.
    + rewrite lookup_insert_ne by done. split; [tauto|].
      intros [?|[?|?]]; [tauto|congruence|tauto].
Qed.

(** X11. When the node loop starts, the map has an entry for each graph
    input and for no other value; a value that is not a graph input
    therefore reads as [Nonzero] at that point. *)
Theorem initializer_domain g v :
  (is_Some (p_state (start g) !! v) <-> v ∈ (g_inputs g).*1) /\
  (v ∉ (g_inputs g).*1 -> classify (p_state (start g)) v = Nonzero).
Proof.
  assert (is_Some (p_state (start g) !! v) <-> v ∈ (g_inputs g).*1) as H.
  { unfold start, init_state. simpl. rewrite foldl_insert_is_Some, lookup_empty.
    split; [intros [[? ?]|?]; done|tauto]. }
  split; [done|]. intros Hv. apply classify_missing.
  apply eq_None_not_Some. by rewrite H.
Qed.

(** ** What the whole pass keeps *)

Lemma length_subst_seq_values sigma : forall vs,
  length (subst_seq_values sigma vs) = length vs.
Proof.
  induction sigma as [|[o w] sigma IH]; intros vs; [done|].
  unfold subst_seq_values in *. simpl. by rewrite IH, length_map.
Qed.

Lemma Step_signature p p' l :
  Step p p' l -> well_formed p = true ->
  p_inputs p' = p_inputs p /\
  length (p_outputs p') = length (p_outputs p) /\
  p_unique p <= p_unique p' /\
  p_nid p <= p_nid p'.
Proof.
  intros HS HWF. apply well_formed_WF in HWF. unfold p_nodes in HWF.
  destruct HS as [st ins bef n rest outs u i os s st' HK Hst
    | st ins bef n rest outs u i a b more o ty w st' Hk Hin Hout Hcase Hst
    | st ins bef n rest outs u i a b more o ty st1 Hk Hin Hout Ha Hb Hst
    | st ins bef n rest outs u i cond more gs st1 Hk Hin Hp Hz Hst
    | st ins bef n rest outs u i cond more gs ms rs bs st1 Hk Hin Hp Hz Hnz Hbl Hlen Hst];
    cbn [p_state p_inputs p_before p_after p_outputs p_unique p_nid] in *.
  - done.
  - by rewrite length_map.
  - rewrite length_map. split_and!; try done; lia.
  - destruct (Step_zeros_WF (<[u := Zero]> st1) ins bef n rest outs u i HWF)
      as (_ & -> & _).
    cbn [p_inputs p_outputs p_unique p_nid].
    rewrite length_subst_seq_values. split_and!; try done; lia.
  - by rewrite length_subst_seq_values.
Qed.

Lemma run_signature fuel : forall p q l,
  well_formed p = true -> run fuel p = Finished q l ->
  p_inputs q = p_inputs p /\
  length (p_outputs q) = length (p_outputs p) /\
  p_unique p <= p_unique q /\
  p_nid p <= p_nid q.
Proof.
  induction fuel as [|fuel IH]; intros p q l HWF Hrun; simpl in Hrun.
  - destruct (p_after p) as [|n rest] eqn:E; [|done].
    by injection Hrun as <- <-.
  - destruct (p_after p) as [|n rest] eqn:E.
    { by injection Hrun as <- <-. }
    destruct (visit p) as [[[[] p'] l1]|] eqn:Hv; [|done].
    pose proof (visit_Step _ _ _ HWF Hv) as HS.
    destruct (Step_WF _ _ _ HS HWF) as [HWF' _].
    destruct (Step_signature _ _ _ HS HWF) as (E1 & E2 & E3 & E4).
    destruct (run fuel p') as [q' l2| |] eqn:Hr; try done.
    injection Hrun as <- <-.
    destruct (IH _ _ _ HWF' Hr) as (F1 & F2 & F3 & F4).
    split_and!; [congruence|congruence|lia|lia].
Qed.

(** X12. When the pass completes on a well-formed graph, the graph has the
    inputs it had, with their types, and as many outputs as it had; the
    numbers the graph gives to the next value and to the next node have not
    decreased. *)
Theorem signature_preserved g p log :
  well_formed (start g) = true ->
  specializeAutogradZero g = Finished p log ->
  p_inputs p = g_inputs g /\
  length (p_outputs p) = length (g_outputs g) /\
  next_unique g <= p_unique p /\
  next_nid g <= p_nid p.
Proof.
  intros HWF Hrun. exact (run_signature _ _ _ _ HWF Hrun).
Qed.

Lemma well_formed_distinct p : well_formed p = true -> distinct p = true.
Proof. unfold well_formed. rewrite andb_true_iff. tauto. Qed.

(** X13. When the pass completes on a well-formed graph, in the graph it
    leaves, and in the graph after each single mutation of the traversal,
    no value has two definitions, no two nodes (nested ones included)
    share an identity, and every value number and node identity in use is
    below the number the graph hands out next. *)
Theorem identities_preserved g p log :
  well_formed (start g) = true ->
  specializeAutogradZero g = Finished p log ->
  distinct p = true /\ Forall (fun q => distinct q = true) log.
Proof.
  intros HWF Hrun. destruct (run_WF _ _ _ _ HWF Hrun) as (H1 & _ & H3).
  split; [by apply well_formed_distinct|].
  eapply Forall_impl; [exact H3|]. intros q. apply well_formed_distinct.
Qed.

Lemma from_graph_subst F0 i0 o w m :
  from_graph F0 i0 m -> from_graph F0 i0 (subst_node o w m).
Proof.
  unfold from_graph, created.
  rewrite subst_node_nid, subst_node_kind, subst_node_outputs. tauto.
Qed.

Lemma from_graph_subst_nodes F0 i0 o w ns :
  Forall (from_graph F0 i0) (flatten ns) ->
  Forall (from_graph F0 i0) (flatten (subst_nodes o w ns)).
Proof.
  intros H. rewrite flatten_subst. apply Forall_fmap.
  eapply Forall_impl; [exact H|]. intros m. apply from_graph_subst.
Qed.

Lemma from_graph_subst_seq F0 i0 sigma : forall ns,
  Forall (from_graph F0 i0) (flatten ns) ->
  Forall (from_graph F0 i0) (flatten (subst_seq_nodes sigma ns)).
Proof.
  induction sigma as [|[o w] sigma IH]; intros ns H; [done|].
  unfold subst_seq_nodes in *. simpl. apply IH. by apply from_graph_subst_nodes.
Qed.

Lemma Step_from_graph F0 i0 p p' l :
  Step p p' l -> well_formed p = true ->
  i0 <= p_nid p -> Forall (from_graph F0 i0) (flatten (p_nodes p)) ->
  i0 <= p_nid p' /\ Forall (from_graph F0 i0) (flatten (p_nodes p')).
Proof.
  intros HS HWF. apply well_formed_WF in HWF. unfold p_nodes in *.
  destruct HS as [st ins bef n rest outs u i os s st' HK Hst
    | st ins bef n rest outs u i a b more o ty w st' Hk Hin Hout Hcase Hst
    | st ins bef n rest outs u i a b more o ty st1 Hk Hin Hout Ha Hb Hst
    | st ins bef n rest outs u i cond more gs st1 Hk Hin Hp Hz Hst
    | st ins bef n rest outs u i cond more gs ms rs bs st1 Hk Hin Hp Hz Hnz Hbl Hlen Hst];
    cbn [p_state p_inputs p_before p_after p_outputs p_unique p_nid] in *;
    intros Hi; rewrite flatten_app, flatten_cons, Forall_app, Forall_cons, Forall_app;
    intros (Hbef & Hn & Hnest & Hrest).
  - split; [done|]. rewrite <- app_assoc. simpl.
    rewrite flatten_app, flatten_cons, Forall_app, Forall_cons, Forall_app. done.
  - split; [done|]. rewrite flatten_app, Forall_app.
    split; by apply from_graph_subst_nodes.
  - split; [lia|]. rewrite flatten_app, Forall_app.
    split; apply from_graph_subst_nodes; [|done].
    rewrite flatten_app, Forall_app. split; [done|].
    unfold flatten, cOne_node, add_node. simpl.
    rewrite !Forall_cons. split_and!; [| |constructor]; right; simpl; split; (lia || done).
  - destruct (Step_zeros_WF (<[u := Zero]> st1) ins bef n rest outs u i HWF)
      as (_ & -> & _).
    cbn [p_before p_after p_nid]. split; [lia|].
    rewrite flatten_app, flatten_cons, Forall_app, Forall_cons, Forall_app.
    split_and!; [done| |constructor|by apply from_graph_subst_seq].
    right. simpl. split; (lia || done).
  - split; [done|]. rewrite !flatten_app, !Forall_app.
    split_and!; [done| |by apply from_graph_subst_seq].
    unfold nested in Hnest. rewrite Hbl in Hnest. simpl in Hnest.
    rewrite flatten_app, Forall_app in Hnest. tauto.
Qed.

Lemma run_from_graph F0 i0 fuel : forall p q l,
  well_formed p = true -> run fuel p = Finished q l ->
  i0 <= p_nid p -> Forall (from_graph F0 i0) (flatten (p_nodes p)) ->
  Forall (from_graph F0 i0) (flatten (p_nodes q)).
Proof.
  induction fuel as [|fuel IH]; intros p q l HWF Hrun Hi HF; simpl in Hrun.
  - destruct (p_after p) as [|n rest] eqn:E; [|done].
    by injection Hrun as <- <-.
  - destruct (p_after p) as [|n rest] eqn:E.
    { by injection Hrun as <- <-. }
    destruct (visit p) as [[[[] p'] l1]|] eqn:Hv; [|done].
    pose proof (visit_Step _ _ _ HWF Hv) as HS.
    destruct (Step_WF _ _ _ HS HWF) as [HWF' _].
    destruct (Step_from_graph F0 i0 _ _ _ HS HWF Hi HF) as [Hi' HF'].
    destruct (run fuel p') as [q' l2| |] eqn:Hr; try done.
    injection Hrun as <- <-. by eapply IH.
Qed.

(** X14. When the pass completes on a well-formed graph, every node of the
    graph it leaves, nested ones included, is either a node of the input
    graph, with the kind and the outputs (values and types) it had there,
    or a node the pass allocated, and then it is a [prim::Constant], an
    [aten::add] or a [prim::AutogradZero] node. *)
Theorem nodes_kept_or_created g p log :
  well_formed (start g) = true ->
  specializeAutogradZero g = Finished p log ->
  forall m, m ∈ flatten (p_nodes p) ->
    from_graph (flatten (g_nodes g)) (next_nid g) m.
Proof.
  intros HWF Hrun.
  apply Forall_forall.
  eapply (run_from_graph _ _ _ _ _ _ HWF Hrun); [done|].
  unfold start, p_nodes. simpl. apply Forall_forall. intros m Hm.
  left. by exists m.
Qed.

Lemma replay_finished_classify ins ns st2 outs u i :
  Replay ins ns st2 ->
  exists st2a,
    (forall v, classify st2a v = classify st2 v) /\
    specializeAutogradZero (mkGraph ins ns outs u i) =
    Finished (mkPass st2a ins ns [] outs u i) [].
Proof.
  intros HR. unfold specializeAutogradZero, start. simpl.
  destruct (replay_run ins ns st2 HR [] outs u i (iterations ns - length ns))
    as (st2a & Hcl & Hrun).
  rewrite app_nil_r in Hrun.
  replace (length ns + (iterations ns - length ns)) with (iterations ns) in Hrun
    by (pose proof (length_le_iterations ns); lia).
  exists st2a. split; [done|]. rewrite Hrun. by destruct (iterations ns - length ns).
Qed.

(** X15. The pass looks at the nodes of the top level only.  On a graph
    whose top-level nodes are all of kinds the switch does not name, the
    pass completes without a single mutation, whatever the blocks of these
    nodes contain; it leaves the graph as it is, and at the end every
    output of a top-level node is classified [Unknown] and every other
    value reads as it did after the first loop. *)
Theorem inert_graph_untouched g :
  forallb inert (g_nodes g) = true ->
  exists st,
    specializeAutogradZero g =
      Finished (mkPass st (g_inputs g) (g_nodes g) [] (g_outputs g)
                       (next_unique g) (next_nid g)) [] /\
    forall v, classify st v =
      if decide (v ∈ defs (g_nodes g)) then Unknown
      else classify (init_state (g_inputs g)) v.
Proof.
  intros Hin. destruct g as [ins ns outs u i]. simpl in *.
  pose proof (Replay_inert ins ns [] (init_state ins) (Replay_nil ins) Hin) as HR.
  simpl in HR.
  destruct (replay_finished_classify ins ns _ outs u i HR) as (st & Hcl & Hrun).
  exists st. split; [done|]. intros v. rewrite Hcl. apply classify_foldl_insert.
Qed.

(** X16. The pass has run on a well-formed graph in which the first block
    of every conditional of the top level consists of nodes of the default
    case and returns only values that these nodes define.  Then a second
    run on the graph it produced ends with classifications that know no
    more than those of the first run: every value is classified as at the
    end of the first run, or [Unknown]. *)
Theorem second_run_knows_no_more g p1 log1 :
  canonical (start g) = true ->
  specializeAutogradZero g = Finished p1 log1 ->
  exists p2,
    specializeAutogradZero (graph_of p1) = Finished p2 [] /\
    forall v,
      classify (p_state p2) v = classify (p_state p1) v \/
      classify (p_state p2) v = Unknown.
Proof.
  intros Hc Hrun.
  destruct (run_Inv _ _ _ _ (Inv_start g Hc) Hrun) as [(_ & st2 & HR & Href) Hend].
  destruct p1 as [st1 ins bef aft outs u i]. unfold pending in Href. simpl in *.
  subst aft.
  unfold graph_of, p_nodes. simpl. rewrite app_nil_r.
  destruct (replay_finished_classify ins bef st2 outs u i HR) as (st2a & Hcl & Hrun2).
  eexists. split; [exact Hrun2|]. simpl.
  intros v. rewrite !Hcl. apply Href, not_elem_of_nil.
Qed.

(** ** The pass completes *)

Lemma shaped_subst o w n : shaped (subst_node o w n) = shaped n.
Proof.
  destruct n as [id k ins outs bs a]. unfold shaped. simpl.
  destruct k; try done.
  - by rewrite length_map.
  - by destruct ins.
  - rewrite length_map. destruct bs as [|[ms rs] bs]; simpl; [done|].
    by rewrite length_map.
Qed.

Lemma shaped_subst_nodes o w ns :
  forallb shaped (subst_nodes o w ns) = forallb shaped ns.
Proof.
  unfold subst_nodes. induction ns as [|n ns IH]; simpl; [done|].
  by rewrite shaped_subst, IH.
Qed.

Lemma shaped_subst_seq sigma : forall ns,
  forallb shaped (subst_seq_nodes sigma ns) = forallb shaped ns.
Proof.
  induction sigma as [|[o w] sigma IH]; intros ns; [done|].
  unfold subst_seq_nodes in *. simpl. by rewrite IH, shaped_subst_nodes.
Qed.

Lemma find_is_Some {A} (f : A -> bool) (l : list A) x :
  x ∈ l -> f x = true -> is_Some (find f l).
Proof.
  induction l as [|y l IH]; intros Hx Hf; simpl.
  - by apply elem_of_nil in Hx.
  - destruct (f y) eqn:E; [eauto|].
    apply elem_of_cons in Hx as [->|Hx]; [congruence|auto].
Qed.

Lemma producer_in_defined S0 ns v :
  v ∈ S0 ++ all_defs ns -> is_Some (producer_in S0 ns v).
Proof.
  intros Hv. unfold producer_in.
  destruct (decide (v ∈ S0)) as [HS|HS].
  - rewrite bool_decide_eq_true_2 by done. eauto.
  - rewrite bool_decide_eq_false_2 by done.
    apply elem_of_app in Hv as [?|Hv]; [done|].
    apply defs_elem in Hv as (m & Hm & Hvm).
    destruct (find_is_Some (fun m => bool_decide (v ∈ out_values m)) (flatten ns) m Hm)
      as [m' ->]; [by apply bool_decide_eq_true_2|eauto].
Qed.

(** On a well-formed graph the iteration at a node of the expected shape
    does not throw. *)
Lemma visit_total p n rest :
  well_formed p = true -> p_after p = n :: rest -> shaped n = true ->
  exists p' l, visit p = Some (tt, p', l).
Proof.
  intros HWF Hafter Hsh. apply well_formed_WF in HWF.
  destruct p as [st ins bef aft outs u i]. unfold p_nodes in HWF. simpl in *. subst aft.
  assert (forall os s,
            Kept (classify st) (producer (mkPass st ins bef (n :: rest) outs u i)) n os s ->
            exists p' l, visit (mkPass st ins bef (n :: rest) outs u i) = Some (tt, p', l))
    as Hkept.
  { intros os s HK. destruct (visit_kept _ _ _ _ _ _ _ _ _ _ HK) as (st' & Hv & _).
    eauto. }
  unfold shaped in Hsh. destruct (kind n) eqn:Hk.
  - apply andb_true_iff in Hsh as [Hi Ho].
    apply bool_decide_eq_true in Hi, Ho.
    destruct (inputs n) as [|a [|b more]] eqn:Hin; simpl in Hi; try lia.
    destruct (outputs n) as [|[o ty] [|? ?]] eqn:Hout; simpl in Ho; try lia.
    destruct (decide (classify st a = Zero)) as [Ha|Ha].
    { destruct (visit_forward st ins bef n rest outs u i a b more o ty b Hk Hin Hout)
        as (st' & Hv & _); [by left|eauto]. }
    destruct (decide (classify st b = Zero)) as [Hb|Hb].
    { destruct (visit_forward st ins bef n rest outs u i a b more o ty a Hk Hin Hout)
        as (st' & Hv & _); [by right|eauto]. }
    destruct (decide (classify st a = Nonzero /\ classify st b = Nonzero))
      as [[Ha' Hb']|Hab].
    { destruct (visit_add st ins bef n rest outs u i a b more o ty Hk Hin Hout Ha' Hb')
        as (st1 & _ & Hv).
      { intros m Hm. by eapply WF_nids_fresh. }
      simpl in Hv. eauto. }
    eapply Hkept. by eapply Kept_AutogradAdd.
  - apply bool_decide_eq_true in Hsh.
    destruct (outputs n) as [|[o ty] [|? ?]] eqn:Hout; simpl in Hsh; try lia.
    eapply Hkept. by eapply Kept_AutogradZero.
  - destruct (inputs n) as [|x xs] eqn:Hin.
    + eapply Hkept. by eapply Kept_counter.
    + apply bool_decide_eq_true in Hsh.
      destruct (outputs n) as [|[o ty] [|? ?]] eqn:Hout; simpl in Hsh; try lia.
      eapply Hkept. eapply Kept_profile; eauto. by rewrite Hin.
  - destruct (outputs n) as [|[o [f| | | | |]] [|? ?]] eqn:Hout; try done.
    eapply Hkept. eapply Kept_guard; eauto.
  - destruct (outputs n) as [|[o [f| | | | |]] [|? ?]] eqn:Hout; try done.
    eapply Hkept. eapply Kept_guard; eauto.
  - apply andb_true_iff in Hsh as [Hi Hb]. apply bool_decide_eq_true in Hi.
    destruct (inputs n) as [|cond more] eqn:Hin; simpl in Hi; [lia|].
    destruct (blocks n) as [|[ms rs] bs] eqn:Hbl; [done|].
    apply bool_decide_eq_true in Hb. simpl in Hb.
    assert (cond ∈ ins.*1 ++ defs bef) as Hsc.
    { eapply WF_input_scope; [exact HWF|]. rewrite Hin. by left. }
    destruct (producer_in_defined ins.*1 (bef ++ n :: rest) cond) as [[k gs] Hp].
    { rewrite all_defs_app. rewrite elem_of_app in Hsc. rewrite !elem_of_app.
      destruct Hsc as [?|Hd]; [tauto|]. apply defs_all_defs in Hd. tauto. }
    destruct (decide (k = prim_AutogradAnyNonZero)) as [->|Hne].
    2:{ eapply Hkept. by eapply Kept_If_other. }
    destruct (decide (Forall (fun v => classify st v = Zero) gs)) as [Hz|Hz].
    { destruct (visit_zeros st ins bef n rest outs u i cond more gs Hk Hin Hp Hz)
        as (st1 & _ & Hv). simpl in Hv. eauto. }
    destruct (decide (Forall (fun v => classify st v = Nonzero) gs)) as [Hnz|Hnz].
    2:{ eapply Hkept. by eapply Kept_If_mixed. }
    destruct (WF_hoist_all st ins bef n rest outs u i ms rs bs HWF Hbl) as [HWF' _].
    destruct (visit_hoist st ins bef n rest outs u i cond more gs ms rs bs
                Hk Hin Hp Hz Hnz Hbl HWF') as (st1 & _ & Hv).
    simpl in Hv. rewrite bool_decide_eq_true_2 in Hv by done. eauto.
  - eapply Hkept. by eapply Kept_other; rewrite Hk.
  - eapply Hkept. by eapply Kept_other; rewrite Hk.
  - eapply Hkept. by eapply Kept_other; rewrite Hk.
  - eapply Hkept. by eapply Kept_other; rewrite Hk.
  - eapply Hkept. by eapply Kept_other; rewrite Hk.
Qed.

Lemma Step_shaped p p' l :
  Step p p' l -> well_formed p = true ->
  forallb shaped (p_after p) = true -> forallb shaped (p_after p') = true.
Proof.
  intros HS HWF. apply well_formed_WF in HWF. unfold p_nodes in HWF.
  destruct HS as [st ins bef n rest outs u i os s st' HK Hst
    | st ins bef n rest outs u i a b more o ty w st' Hk Hin Hout Hcase Hst
    | st ins bef n rest outs u i a b more o ty st1 Hk Hin Hout Ha Hb Hst
    | st ins bef n rest outs u i cond more gs st1 Hk Hin Hp Hz Hst
    | st ins bef n rest outs u i cond more gs ms rs bs st1 Hk Hin Hp Hz Hnz Hbl Hlen Hst];
    cbn [p_state p_inputs p_before p_after p_outputs p_unique p_nid] in *;
    cbn [forallb]; rewrite andb_true_iff; intros [Hn Hrest].
  - done.
  - by rewrite shaped_subst_nodes.
  - by rewrite shaped_subst_nodes.
  - destruct (Step_zeros_WF (<[u := Zero]> st1) ins bef n rest outs u i HWF)
      as (_ & -> & _).
    cbn [p_after forallb]. by rewrite shaped_subst_seq, Hrest.
  - by rewrite shaped_subst_seq.
Qed.

Lemma run_total fuel : forall p,
  well_formed p = true -> forallb shaped (p_after p) = true ->
  iterations (p_after p) <= fuel ->
  exists q l, run fuel p = Finished q l.
Proof.
  induction fuel as [|fuel IH]; intros p HWF Hsh Hfuel; simpl.
  - destruct (p_after p) as [|n rest] eqn:E; [eauto|].
    rewrite iterations_cons in Hfuel. pose proof (weight_pos n). lia.
  - destruct (p_after p) as [|n rest] eqn:E; [eauto|].
    assert (shaped n = true) as Hn.
    { simpl in Hsh. apply andb_true_iff in Hsh. tauto. }
    destruct (visit_total p n rest HWF E Hn) as (p' & l & Hv). rewrite Hv.
    pose proof (visit_Step _ _ _ HWF Hv) as HS.
    destruct (Step_WF _ _ _ HS HWF) as [HWF' _].
    pose proof (Step_iterations _ _ _ HS HWF) as Hlt.
    assert (forallb shaped (p_after p') = true) as Hsh'.
    { apply (Step_shaped _ _ _ HS HWF). by rewrite E. }
    rewrite E in Hlt.
    destruct (IH p' HWF' Hsh') as (q & l' & ->); [lia|]. eauto.
Qed.

(** X17. On a well-formed graph whose top-level nodes have the operands,
    outputs and blocks that the cases of the switch read, the pass throws
    no exception and its loop ends: it completes with a graph. *)
Theorem pass_completes g :
  well_formed (start g) = true ->
  forallb shaped (g_nodes g) = true ->
  exists p log, specializeAutogradZero g = Finished p log /\ p_after p = [].
Proof.
  intros HWF Hsh.
  destruct (run_total (iterations (g_nodes g)) (start g) HWF Hsh) as (q & l & Hrun);
    [simpl; lia|].
  exists q, l. split; [done|].
  by destruct (run_WF _ _ _ _ HWF Hrun) as (_ & H & _).
Qed.

Lemma signature_preserved_witness :
  exists p log,
    specializeAutogradZero ex_graph = Finished p log /\
    p_inputs p = ex_inputs /\
    length (p_outputs p) = 1.
Proof.
  destruct (specializeAutogradZero ex_graph) as [p log| |] eqn:Hrun;
    [|vm_compute in Hrun; discriminate Hrun|vm_compute in Hrun; discriminate Hrun].
  destruct (signature_preserved ex_graph p log) as (Hi & Ho & _).
  - vm_compute. reflexivity.
  - exact Hrun.
  - exists p, log. split; [reflexivity|]. split; [exact Hi|exact Ho].
Defined.

Lemma identities_preserved_witness :
  exists p log,
    specializeAutogradZero ex_graph = Finished p log /\
    distinct p = true /\ Forall (fun q => distinct q = true) log.
Proof.
  destruct (specializeAutogradZero ex_graph) as [p log| |] eqn:Hrun;
    [|vm_compute in Hrun; discriminate Hrun|vm_compute in Hrun; discriminate Hrun].
  exists p, log. split; [reflexivity|].
  apply (identities_preserved ex_graph p log).
  - vm_compute. reflexivity.
  - exact Hrun.
Defined.

Lemma nodes_kept_or_created_witness :
  exists p log,
    specializeAutogradZero ex_graph = Finished p log /\
    forall m, m ∈ flatten (p_nodes p) ->
      from_graph (flatten (g_nodes ex_graph)) (next_nid ex_graph) m.
Proof.
  destruct (specializeAutogradZero ex_graph) as [p log| |] eqn:Hrun;
    [|vm_compute in Hrun; discriminate Hrun|vm_compute in Hrun; discriminate Hrun].
  exists p, log. split; [reflexivity|].
  apply (nodes_kept_or_created ex_graph p log).
  - vm_compute. reflexivity.
  - exact Hrun.
Defined.

Lemma inert_graph_untouched_witness :
  exists st,
    specializeAutogradZero ex_inert_graph =
      Finished (mkPass st (g_inputs ex_inert_graph) (g_nodes ex_inert_graph) []
                       (g_outputs ex_inert_graph) (next_unique ex_inert_graph)
                       (next_nid ex_inert_graph)) [] /\
    classify st 6 = Nonzero.
Proof.
  destruct (inert_graph_untouched ex_inert_graph) as (st & Hrun & Hcl).
  - reflexivity.
  - exists st. split; [exact Hrun|]. rewrite Hcl. vm_compute. reflexivity.
Defined.

Lemma second_run_knows_no_more_witness :
  exists p1 log1 p2,
    specializeAutogradZero ex_graph = Finished p1 log1 /\
    specializeAutogradZero (graph_of p1) = Finished p2 [] /\
    forall v,
      classify (p_state p2) v = classify (p_state p1) v \/
      classify (p_state p2) v = Unknown.
Proof.
  destruct (specializeAutogradZero ex_graph) as [p1 log1| |] eqn:Hrun;
    [|vm_compute in Hrun; discriminate Hrun|vm_compute in Hrun; discriminate Hrun].
  destruct (second_run_knows_no_more ex_graph p1 log1) as (p2 & H2 & Hcl).
  - vm_compute. reflexivity.
  - exact Hrun.
  - exists p1, log1, p2. split; [reflexivity|]. split; [exact H2|exact Hcl].
Defined.

Lemma pass_completes_witness :
  exists p log, specializeAutogradZero ex_graph = Finished p log /\ p_after p = [].
Proof.
  apply (pass_completes ex_graph).
  - vm_compute. reflexivity.
  - reflexivity.
Defined.

(** * The pass, iteration by iteration *)

(** ** The loop and its iterations *)

Lemma visit_end p : p_after p = [] -> visit p = None.
Proof. intros H. unfold visit, bind, current. by rewrite H. Qed.

Lemma run_step fuel p q log n rest :
  p_after p = n :: rest -> run fuel p = Finished q log ->
  exists fuel' p' l l',
    fuel = S fuel' /\ visit p = Some (tt, p', l) /\
    run fuel' p' = Finished q l' /\ log = l ++ l'.
Proof.
  intros Hafter Hrun. destruct fuel as [|fuel]; simpl in Hrun; rewrite Hafter in Hrun;
    [done|].
  destruct (visit p) as [[[[] p'] l]|] eqn:Hv; [|done].
  destruct (run fuel p') as [q' l'| |] eqn:Hr; try done.
  injection Hrun as <- <-. by exists fuel, p', l, l'.
Qed.

Lemma run_iterate fuel : forall p q log,
  run fuel p = Finished q log -> (exists j, iterate j p = Some q) /\ p_after q = [].
Proof.
  induction fuel as [|fuel IH]; intros p q log Hrun.
  - simpl in Hrun. destruct (p_after p) eqn:E; [|done].
    injection Hrun as <- <-. split; [by exists 0|done].
  - destruct (p_after p) as [|n rest] eqn:E.
    { simpl in Hrun. rewrite E in Hrun. injection Hrun as <- <-.
      split; [by exists 0|done]. }
    destruct (run_step _ _ _ _ _ _ E Hrun) as (f & p' & l & l' & Hf & Hv & Hr & _).
    injection Hf as <-. destruct (IH _ _ _ Hr) as [[j Hj] Hq].
    split; [|done]. exists (S j). simpl. by rewrite Hv.
Qed.

Lemma iterate_run k : forall fuel p0 q log p,
  run fuel p0 = Finished q log -> iterate k p0 = Some p ->
  exists fuel' l0 l1, run fuel' p = Finished q l1 /\ log = l0 ++ l1.
Proof.
  induction k as [|k IH]; intros fuel p0 q log p Hrun Hit; simpl in Hit.
  - injection Hit as <-. by exists fuel, [], log.
  - destruct (visit p0) as [[[[] p0'] l]|] eqn:Hv; [|done].
    destruct (p_after p0) as [|n rest] eqn:E.
    { by rewrite (visit_end _ E) in Hv. }
    destruct (run_step _ _ _ _ _ _ E Hrun) as (f & p' & l' & l'' & _ & Hv' & Hr & ->).
    rewrite Hv in Hv'. injection Hv' as <- <-.
    destruct (IH _ _ _ _ _ Hr Hit) as (fuel' & l0 & l1 & Hr' & ->).
    exists fuel', (l ++ l0), l1. split; [done|]. by rewrite <- app_assoc.
Qed.

Lemma iterate_snoc k : forall p0 p p' l,
  iterate k p0 = Some p -> visit p = Some (tt, p', l) -> iterate (S k) p0 = Some p'.
Proof.
  induction k as [|k IH]; intros p0 p p' l Hit Hv.
  - simpl in Hit. injection Hit as <-. simpl. by rewrite Hv.
  - simpl in Hit. destruct (visit p0) as [[[[] p0'] l0]|] eqn:Hv0; [|done].
    change (iterate (S (S k)) p0) with
      (match visit p0 with
       | Some (_, p1, _) => iterate (S k) p1
       | None => None
       end).
    rewrite Hv0. by eapply IH.
Qed.

Lemma iterate_WF k : forall p0 p,
  well_formed p0 = true -> iterate k p0 = Some p -> well_formed p = true.
Proof.
  induction k as [|k IH]; intros p0 p HWF Hit; simpl in Hit.
  - by injection Hit as <-.
  - destruct (visit p0) as [[[[] p0'] l]|] eqn:Hv; [|done].
    pose proof (visit_Step _ _ _ HWF Hv) as HS.
    destruct (Step_WF _ _ _ HS HWF) as [HWF' _]. by eapply IH.
Qed.

(** ** What an iteration leaves behind *)

(** The nodes before the iterator stay as they are, and a node or value
    that appears was allocated by the iteration. *)
Lemma Step_grows p p' l :
  Step p p' l -> well_formed p = true ->
  (exists ext, p_before p' = p_before p ++ ext) /\
  (forall x, x ∈ nids (p_nodes p') -> x ∈ nids (p_nodes p) \/ p_nid p <= x) /\
  (forall v, v ∈ all_defs (p_nodes p') -> v ∈ all_defs (p_nodes p) \/ p_unique p <= v).
Proof.
  intros HS HWF. apply well_formed_WF in HWF. unfold p_nodes in *.
  destruct HS as [st ins bef n rest outs u i os s st' HK Hst
    | st ins bef n rest outs u i a b more o ty w st' Hk Hin Hout Hcase Hst
    | st ins bef n rest outs u i a b more o ty st1 Hk Hin Hout Ha Hb Hst
    | st ins bef n rest outs u i cond more gs st1 Hk Hin Hp Hz Hst
    | st ins bef n rest outs u i cond more gs ms rs bs st1 Hk Hin Hp Hz Hnz Hbl Hlen Hst];
    cbn [p_state p_inputs p_before p_after p_outputs p_unique p_nid] in *.
  - split; [by exists [n]|]. rewrite <- app_assoc. simpl. split; intros; by left.
  - destruct (Step_forward_WF ins bef n rest outs u i a b more o ty w HWF Hin Hout)
      as (Hbef & _).
    { destruct Hcase as [[_ ->]|(_ & _ & ->)]; auto. }
    rewrite Hbef. split; [exists []; by rewrite app_nil_r|].
    rewrite !nids_app, nids_subst, nids_cons, !all_defs_app, all_defs_subst, all_defs_cons.
    split; intros x Hx; left; set_solver.
  - pose proof (Step_add_WF st1 ins bef n rest outs u i a b more o ty HWF Hin Hout) as Hl.
    unfold add_log in Hl. rewrite !Forall_cons in Hl.
    destruct Hl as (_ & _ & _ & _ & _ & E6 & _).
    apply well_formed_WF in E6. unfold p_nodes in E6. simpl in E6.
    assert (o ∈ out_values n) as Ho by (unfold out_values; rewrite Hout; set_solver).
    destruct (WF_before_unused _ _ _ _ _ _ _ _ (S u) E6 Ho) as [Hbef _].
    rewrite Hbef. split; [by eexists|].
    rewrite !nids_app, nids_subst, nids_cons, !all_defs_app, all_defs_subst, all_defs_cons.
    unfold nids, all_defs, defs, flatten, cOne_node, add_node. simpl.
    split; intros x Hx.
    + rewrite ?elem_of_app, ?elem_of_cons, ?elem_of_nil in Hx.
      destruct_or!; first [done | right; lia | left; set_solver].
    + rewrite ?elem_of_app, ?elem_of_cons, ?elem_of_nil in Hx.
      destruct_or!; first [done | right; lia | left; set_solver].
  - destruct (Step_zeros_WF (<[u := Zero]> st1) ins bef n rest outs u i HWF)
      as (_ & -> & _).
    cbn [p_before p_after]. split; [exists []; by rewrite app_nil_r|].
    rewrite !nids_app, !nids_cons, nids_subst_seq, !all_defs_app, !all_defs_cons,
      all_defs_subst_seq.
    unfold nested, zero_node, out_values. simpl.
    split; intros x Hx.
    + rewrite ?elem_of_app, ?elem_of_cons, ?elem_of_nil in Hx.
      destruct_or!; first [done | right; lia | left; set_solver].
    + rewrite ?elem_of_app, ?elem_of_cons, ?elem_of_nil in Hx.
      destruct_or!; first [done | right; lia | left; set_solver].
  - split; [by exists ms|].
    rewrite !nids_app, nids_cons, nids_subst_seq, !all_defs_app, all_defs_cons,
      all_defs_subst_seq.
    unfold nested. rewrite Hbl. simpl. rewrite nids_app, all_defs_app.
    split; intros x Hx; left; set_solver.
Qed.

(** From a state of the loop to the end of the pass: the nodes before the
    iterator are the beginning of the final graph, and a node identity or
    value number that the graph has handed out and that is not in the graph
    does not come back. *)
Lemma run_grows fuel : forall p q l,
  well_formed p = true -> run fuel p = Finished q l ->
  well_formed q = true /\
  p_inputs q = p_inputs p /\
  (exists ext, p_nodes q = p_before p ++ ext) /\
  (forall x, x < p_nid p -> x ∉ nids (p_nodes p) -> x ∉ nids (p_nodes q)) /\
  (forall v, v < p_unique p -> v ∉ all_defs (p_nodes p) -> v ∉ all_defs (p_nodes q)).
Proof.
  induction fuel as [|fuel IH]; intros p q l HWF Hrun.
  - simpl in Hrun. destruct (p_after p) eqn:E; [|done]. injection Hrun as <- <-.
    split_and!; try done. exists []. unfold p_nodes. by rewrite E.
  - destruct (p_after p) as [|n rest] eqn:E.
    { simpl in Hrun. rewrite E in Hrun. injection Hrun as <- <-.
      split_and!; try done. exists []. unfold p_nodes. by rewrite E. }
    destruct (run_step _ _ _ _ _ _ E Hrun) as (f & p' & l1 & l2 & Hf & Hv & Hr & _).
    injection Hf as <-.
    pose proof (visit_Step _ _ _ HWF Hv) as HS.
    destruct (Step_WF _ _ _ HS HWF) as [HWF' _].
    destruct (Step_signature _ _ _ HS HWF) as (Hi & _ & Hu & Hn).
    destruct (Step_grows _ _ _ HS HWF) as ([ext Hext] & Hnids & Hdefs).
    destruct (IH _ _ _ HWF' Hr) as (HWFq & Hiq & [ext' Hext'] & Hx & Hd).
    split_and!; [done|congruence| | |].
    + exists (ext ++ ext'). by rewrite Hext', Hext, <- app_assoc.
    + intros x Hlt Hnot. apply Hx; [lia|]. intros Hin.
      destruct (Hnids x Hin); [done|lia].
    + intros v Hlt Hnot. apply Hd; [lia|]. intros Hin.
      destruct (Hdefs v Hin); [done|lia].
Qed.

Lemma final_unused q v :
  well_formed q = true ->
  v ∉ (p_inputs q).*1 -> v ∉ all_defs (p_nodes q) -> v ∉ p_uses q.
Proof.
  intros HWF Hi Hd Hu. apply well_formed_scoped in HWF. unfold scoped in HWF.
  destruct (scoped_seq_uses _ _ _ HWF v Hu); done.
Qed.

Lemma WF_current S0 bef n rest outs u i :
  WF S0 (bef ++ n :: rest) outs u i ->
  nid n < i /\
  forall o, o ∈ out_values n ->
    o < u /\ (o ∉ S0) /\ (o ∉ all_defs (nested n)) /\ (o ∉ all_defs bef) /\
    (o ∉ all_defs rest).
Proof.
  intros HWF. split; [eapply WF_nids_fresh; [exact HWF|set_solver]|].
  intros o Ho. pose proof (WF_output_fresh _ _ _ _ _ _ _ _ HWF Ho) as Hfresh.
  rewrite all_defs_app, !not_elem_of_app in Hfresh.
  split_and!; try tauto.
  destruct HWF as (_ & _ & _ & H4 & _). apply H4.
  rewrite all_defs_app, all_defs_cons. set_solver.
Qed.

(** The visited node is in the graph after the iteration, or neither it
    nor its outputs are. *)
Lemma Step_removed p p' l m tl :
  Step p p' l -> well_formed p = true -> p_after p = m :: tl ->
  nid m ∉ nids (p_nodes p') ->
  nid m < p_nid p' /\
  forall o, o ∈ out_values m ->
    o < p_unique p' /\ (o ∉ (p_inputs p').*1) /\ (o ∉ all_defs (p_nodes p')).
Proof.
  intros HS HWF Hafter Hgone.
  apply well_formed_WF in HWF. unfold p_nodes in *.
  destruct HS as [st ins bef n rest outs u i os s st' HK Hst
    | st ins bef n rest outs u i a b more o ty w st' Hk Hin Hout Hcase Hst
    | st ins bef n rest outs u i a b more o ty st1 Hk Hin Hout Ha Hb Hst
    | st ins bef n rest outs u i cond more gs st1 Hk Hin Hp Hz Hst
    | st ins bef n rest outs u i cond more gs ms rs bs st1 Hk Hin Hp Hz Hnz Hbl Hlen Hst];
    cbn [p_state p_inputs p_before p_after p_outputs p_unique p_nid] in *;
    injection Hafter as <- <-;
    destruct (WF_current _ _ _ _ _ _ _ HWF) as [Hlt Hfacts].
  - exfalso. apply Hgone. rewrite <- app_assoc. simpl. rewrite nids_app, nids_cons.
    set_solver.
  - split; [done|]. intros x Hx. destruct (Hfacts x Hx) as (H1 & H2 & H3 & H4 & H5).
    split_and!; try done.
    rewrite all_defs_app, !all_defs_subst. set_solver.
  - split; [lia|]. intros x Hx. destruct (Hfacts x Hx) as (H1 & H2 & H3 & H4 & H5).
    split_and!; [lia|done|].
    rewrite all_defs_app, !all_defs_subst, all_defs_app.
    unfold all_defs at 2, defs, flatten, cOne_node, add_node. simpl. intros Hin'.
    rewrite ?elem_of_app, ?elem_of_cons, ?elem_of_nil in Hin'.
    destruct_or!; first [done | lia].
  - destruct (Step_zeros_WF (<[u := Zero]> st1) ins bef n rest outs u i HWF)
      as (_ & Heq & _).
    rewrite Heq in *. cbn [p_inputs p_before p_after p_unique p_nid] in *.
    split; [lia|]. intros x Hx. destruct (Hfacts x Hx) as (H1 & H2 & H3 & H4 & H5).
    split_and!; [lia|done|].
    rewrite all_defs_app, all_defs_cons, all_defs_subst_seq.
    unfold nested, zero_node, out_values. simpl. intros Hin'.
    rewrite ?elem_of_app, ?elem_of_cons, ?elem_of_nil in Hin'.
    destruct_or!; first [done | lia].
  - split; [done|]. intros x Hx. destruct (Hfacts x Hx) as (H1 & H2 & H3 & H4 & H5).
    split_and!; try done.
    rewrite !all_defs_app, all_defs_subst_seq.
    unfold nested in H3. rewrite Hbl in H3. simpl in H3. rewrite all_defs_app in H3.
    set_solver.
Qed.

(** The iteration that the pass performs at a state its loop reaches, and
    the rest of the pass. *)
Lemma pass_at g q log k p n rest :
  well_formed (start g) = true ->
  specializeAutogradZero g = Finished q log ->
  iterate k (start g) = Some p ->
  p_after p = n :: rest ->
  well_formed p = true /\
  exists p' l l0 l1 fuel,
    visit p = Some (tt, p', l) /\
    Step p p' l /\
    well_formed p' = true /\
    iterate (S k) (start g) = Some p' /\
    run fuel p' = Finished q l1 /\
    log = l0 ++ l ++ l1.
Proof.
  intros HWF Hrun Hit Hafter.
  pose proof (iterate_WF _ _ _ HWF Hit) as HWFp. split; [done|].
  destruct (iterate_run _ _ _ _ _ _ Hrun Hit) as (fuel' & l0 & l1 & Hr & ->).
  destruct (run_step _ _ _ _ _ _ Hafter Hr) as (f & p' & l & l' & _ & Hv & Hr' & ->).
  pose proof (visit_Step _ _ _ HWFp Hv) as HS.
  destruct (Step_WF _ _ _ HS HWFp) as [HWF' _].
  exists p', l, l0, l', f. split_and!; try done. by eapply iterate_snoc.
Qed.

(** The end of the pass, seen from a state of its loop. *)
Lemma pass_after fuel p q l :
  well_formed p = true -> run fuel p = Finished q l ->
  (exists j, iterate j p = Some q) /\
  p_after q = [] /\
  (exists ext, p_nodes q = p_before p ++ ext) /\
  (forall x, x < p_nid p -> x ∉ nids (p_nodes p) -> x ∉ nids (p_nodes q)) /\
  (forall v, v < p_unique p -> v ∉ (p_inputs p).*1 -> v ∉ all_defs (p_nodes p) ->
     (v ∉ all_defs (p_nodes q)) /\ (v ∉ p_uses q)).
Proof.
  intros HWF Hrun.
  destruct (run_iterate _ _ _ _ Hrun) as [Hj Hend].
  destruct (run_grows _ _ _ _ HWF Hrun) as (HWFq & Hi & Hext & Hx & Hd).
  split_and!; try done.
  intros v Hlt Hin Hdef. pose proof (Hd v Hlt Hdef) as Hq. split; [done|].
  apply final_unused; [done|by rewrite Hi|done].
Qed.

Lemma pass_goes_on g q log k p n rest p' l :
  well_formed (start g) = true ->
  specializeAutogradZero g = Finished q log ->
  iterate k (start g) = Some p ->
  p_after p = n :: rest ->
  visit p = Some (tt, p', l) ->
  well_formed p = true /\
  iterate (S k) (start g) = Some p' /\
  (exists l0 l1, log = l0 ++ l ++ l1) /\
  (exists j, iterate j p' = Some q) /\
  p_after q = [] /\
  (exists ext, p_nodes q = p_before p' ++ ext).
Proof.
  intros HWF Hrun Hit Hafter Hv.
  destruct (pass_at _ _ _ _ _ _ _ HWF Hrun Hit Hafter)
    as (HWFp & p'' & l' & l0 & l1 & fuel & Hv' & HS & HWF' & Hit' & Hr & Hlog).
  rewrite Hv in Hv'. injection Hv' as <- <-.
  destruct (pass_after _ _ _ _ HWF' Hr) as (Hj & Hend & Hext & _).
  split_and!; try done. by exists l0, l1.
Qed.

Lemma pass_removes g q log k p n rest p' l :
  well_formed (start g) = true ->
  specializeAutogradZero g = Finished q log ->
  iterate k (start g) = Some p ->
  p_after p = n :: rest ->
  visit p = Some (tt, p', l) ->
  nid n ∉ nids (p_nodes p') ->
  (nid n ∉ nids (p_nodes q)) /\
  forall o, o ∈ out_values n -> (o ∉ all_defs (p_nodes q)) /\ (o ∉ p_uses q).
Proof.
  intros HWF Hrun Hit Hafter Hv Hgone.
  destruct (pass_at _ _ _ _ _ _ _ HWF Hrun Hit Hafter)
    as (HWFp & p'' & l' & l0 & l1 & fuel & Hv' & HS & HWF' & Hit' & Hr & Hlog).
  rewrite Hv in Hv'. injection Hv' as <- <-.
  destruct (Step_removed _ _ _ _ _ HS HWFp Hafter Hgone) as [Hnid Houts].
  destruct (pass_after _ _ _ _ HWF' Hr) as (_ & _ & _ & Hx & Hd).
  split; [by apply Hx|].
  intros o Ho. destruct (Houts o Ho) as (H1 & H2 & H3). by apply Hd.
Qed.

(** * The rewrites of the pass *)

(** C3, as the code has it. The loop of the pass, run on a well-formed
    graph, reaches after [k] iterations a [prim::AutogradAdd] node [n] with
    operands [a] and [b] and output [o]; [a] is classified [Zero] at that
    moment (then [w = b]), or [a] is not and [b] is classified [Zero] (then
    [w = a]).  Then the next iteration of the loop makes every use of [o]
    in the graph a use of [w], deletes [n], leaves the nodes before [n] as
    they are and changes no classification.  And when the pass completes,
    the mutations of this iteration are part of its mutations, and in the
    graph it leaves [n] does not exist, [o] is neither defined nor used,
    and the nodes that were before [n] are the first nodes. *)
Theorem AutogradAdd_zero_operand_forwarded g k p n rest a b more o ty w :
  well_formed (start g) = true ->
  iterate k (start g) = Some p ->
  p_after p = n :: rest ->
  kind n = prim_AutogradAdd ->
  inputs n = a :: b :: more ->
  outputs n = [(o, ty)] ->
  (classify (p_state p) a = Zero /\ w = b) \/
  (classify (p_state p) a <> Zero /\ classify (p_state p) b = Zero /\ w = a) ->
  exists p' l,
    visit p = Some (tt, p', l) /\
    iterate (S k) (start g) = Some p' /\
    p_before p' = p_before p /\
    p_after p' = subst_nodes o w rest /\
    p_outputs p' = map (subst_value o w) (p_outputs p) /\
    p_uses p' = map (subst_value o w) (uses (p_before p ++ rest) ++ p_outputs p) /\
    (o ∉ p_uses p') /\
    (nid n ∉ nids (p_nodes p')) /\
    (forall v, classify (p_state p') v = classify (p_state p) v) /\
    forall q log, specializeAutogradZero g = Finished q log ->
      (exists l0 l1, log = l0 ++ l ++ l1) /\
      (exists j, iterate j p' = Some q) /\
      p_after q = [] /\
      (exists ext, p_nodes q = p_before p ++ ext) /\
      (nid n ∉ nids (p_nodes q)) /\
      (o ∉ all_defs (p_nodes q)) /\
      (o ∉ p_uses q).
Proof.
  intros HWF Hit Hafter Hk Hin Hout Hcase.
  pose proof (iterate_WF _ _ _ HWF Hit) as HWFp.
  destruct (iteration_forwards_zero_operand p n rest a b more o ty w
              HWFp Hafter Hk Hin Hout Hcase)
    as (p' & l & Hv & _ & Hb & Ha & Ho & Hu & Hunused & Hgone & Hcl).
  exists p', l. split_and!; try done; [by eapply iterate_snoc|].
  intros q log Hrun.
  destruct (pass_goes_on _ _ _ _ _ _ _ _ _ HWF Hrun Hit Hafter Hv)
    as (_ & _ & Hlog & Hj & Hend & Hext).
  destruct (pass_removes _ _ _ _ _ _ _ _ _ HWF Hrun Hit Hafter Hv Hgone) as [Hnid Houts].
  destruct (Houts o) as [Hd Hus]; [unfold out_values; rewrite Hout; set_solver|].
  rewrite Hb in Hext. split_and!; done.
Qed.

(** C4, as the code has it. The loop of the pass, run on a well-formed
    graph, reaches after [k] iterations a [prim::AutogradAdd] node [n] with
    operands [a] and [b] and output [o] of type [ty], both operands
    classified [Nonzero] at that moment.  Then the next iteration of the
    loop puts, just before the place of [n], a constant 1 and an
    [aten::add] node whose inputs are exactly [a], [b] and that constant
    and whose output has the type [ty]; it classifies the new output
    [Nonzero] and changes no other classification, makes every use of [o]
    a use of the new output and deletes [n].  And when the pass completes,
    the mutations of this iteration are part of its mutations, and in the
    graph it leaves the nodes that were before [n], the constant and the
    [aten::add] node are the first nodes, [n] does not exist, and [o] is
    neither defined nor used. *)
Theorem AutogradAdd_both_Nonzero_downgraded g k p n rest a b more o ty :
  well_formed (start g) = true ->
  iterate k (start g) = Some p ->
  p_after p = n :: rest ->
  kind n = prim_AutogradAdd ->
  inputs n = a :: b :: more ->
  outputs n = [(o, ty)] ->
  classify (p_state p) a = Nonzero ->
  classify (p_state p) b = Nonzero ->
  let u := p_unique p in
  let i := p_nid p in
  let cOne := mkNode i prim_Constant [] [(u, IntType)] [] (Some 1%Z) in
  let add := mkNode (S i) aten_add [a; b; u] [(S u, ty)] [] None in
  exists p' l,
    visit p = Some (tt, p', l) /\
    iterate (S k) (start g) = Some p' /\
    p_before p' = p_before p ++ [cOne; add] /\
    p_after p' = subst_nodes o (S u) rest /\
    p_outputs p' = map (subst_value o (S u)) (p_outputs p) /\
    classify (p_state p') (S u) = Nonzero /\
    (forall v, v <> S u -> classify (p_state p') v = classify (p_state p) v) /\
    (o ∉ p_uses p') /\
    (nid n ∉ nids (p_nodes p')) /\
    forall q log, specializeAutogradZero g = Finished q log ->
      (exists l0 l1, log = l0 ++ l ++ l1) /\
      (exists j, iterate j p' = Some q) /\
      p_after q = [] /\
      (exists ext, p_nodes q = p_before p ++ [cOne; add] ++ ext) /\
      (nid n ∉ nids (p_nodes q)) /\
      (o ∉ all_defs (p_nodes q)) /\
      (o ∉ p_uses q).
Proof.
  intros HWF Hit Hafter Hk Hin Hout Hca Hcb u i cOne add.
  pose proof (iterate_WF _ _ _ HWF Hit) as HWFp.
  destruct (iteration_downgrades_add p n rest a b more o ty
              HWFp Hafter Hk Hin Hout Hca Hcb)
    as (p' & l & Hv & _ & Hb & Ha & Ho & Hnew & Hcl & Hunused & Hgone).
  exists p', l. split_and!; try done; [by eapply iterate_snoc|].
  intros q log Hrun.
  destruct (pass_goes_on _ _ _ _ _ _ _ _ _ HWF Hrun Hit Hafter Hv)
    as (_ & _ & Hlog & Hj & Hend & [ext Hext]).
  destruct (pass_removes _ _ _ _ _ _ _ _ _ HWF Hrun Hit Hafter Hv Hgone) as [Hnid Houts].
  destruct (Houts o) as [Hd Hus]; [unfold out_values; rewrite Hout; set_solver|].
  split_and!; try done.
  exists ext. rewrite Hext, Hb. by rewrite <- app_assoc.
Qed.

(** C5, as the code has it. The loop of the pass reaches after [k]
    iterations a [prim::AutogradAdd] node [n] with operands [a] and [b] and
    output [o]; at that moment neither operand is classified [Zero] and
    they are not both classified [Nonzero].  Then the next iteration of
    the loop performs no mutation and leaves the graph as it is, classifies
    [o] [Unknown] and changes no other classification.  And when the pass
    completes on a well-formed graph, the nodes that were before [n] and
    then [n] itself, as it was, are the first nodes of the graph it
    leaves. *)
Theorem AutogradAdd_mixed_kept g k p n rest a b more o ty :
  iterate k (start g) = Some p ->
  p_after p = n :: rest ->
  kind n = prim_AutogradAdd ->
  inputs n = a :: b :: more ->
  outputs n = [(o, ty)] ->
  classify (p_state p) a <> Zero ->
  classify (p_state p) b <> Zero ->
  ~ (classify (p_state p) a = Nonzero /\ classify (p_state p) b = Nonzero) ->
  exists p',
    visit p = Some (tt, p', []) /\
    iterate (S k) (start g) = Some p' /\
    graph_of p' = graph_of p /\
    p_before p' = p_before p ++ [n] /\
    p_after p' = rest /\
    classify (p_state p') o = Unknown /\
    (forall v, v <> o -> classify (p_state p') v = classify (p_state p) v) /\
    forall q log,
      well_formed (start g) = true ->
      specializeAutogradZero g = Finished q log ->
      (exists j, iterate j p' = Some q) /\
      p_after q = [] /\
      (exists ext, p_nodes q = p_before p ++ n :: ext).
Proof.
  intros Hit Hafter Hk Hin Hout Hca Hcb Hab.
  destruct (iteration_keeps_mixed_add p n rest a b more o ty
              Hafter Hk Hin Hout Hca Hcb Hab)
    as (p' & Hv & Hg & Hb & Ha & Ho & Hcl).
  exists p'. split_and!; try done; [by eapply iterate_snoc|].
  intros q log HWF Hrun.
  destruct (pass_goes_on _ _ _ _ _ _ _ _ _ HWF Hrun Hit Hafter Hv)
    as (_ & _ & _ & Hj & Hend & [ext Hext]).
  split_and!; try done.
  exists ext. rewrite Hext, Hb. by rewrite <- app_assoc.
Qed.

(** C10, as the code has it. The loop of the pass reaches after [k]
    iterations a [prim::If] node [n] whose condition is defined by a node
    of another kind than [prim::AutogradAnyNonZero].  Then the next
    iteration of the loop performs no mutation and leaves the graph, the
    conditional and its blocks included, as it is, classifies every output
    of [n] [Unknown] and changes no other classification.  And when the
    pass completes on a well-formed graph, the nodes that were before [n]
    and then [n] itself, as it was, are the first nodes of the graph it
    leaves. *)
Theorem If_of_other_condition_kept g k p n rest cond more c gs :
  iterate k (start g) = Some p ->
  p_after p = n :: rest ->
  kind n = prim_If ->
  inputs n = cond :: more ->
  producer p cond = Some (c, gs) ->
  c <> prim_AutogradAnyNonZero ->
  exists p',
    visit p = Some (tt, p', []) /\
    iterate (S k) (start g) = Some p' /\
    graph_of p' = graph_of p /\
    p_before p' = p_before p ++ [n] /\
    p_after p' = rest /\
    (forall o, o ∈ out_values n -> classify (p_state p') o = Unknown) /\
    (forall v, v ∉ out_values n -> classify (p_state p') v = classify (p_state p) v) /\
    forall q log,
      well_formed (start g) = true ->
      specializeAutogradZero g = Finished q log ->
      (exists j, iterate j p' = Some q) /\
      p_after q = [] /\
      (exists ext, p_nodes q = p_before p ++ n :: ext).
Proof.
  intros Hit Hafter Hk Hin Hp Hne.
  destruct (iteration_keeps_other_conditional p n rest cond more c gs
              Hafter Hk Hin Hp Hne)
    as (p' & Hv & Hg & Hb & Ha & Ho & Hcl).
  exists p'. split_and!; try done; [by eapply iterate_snoc|].
  intros q log HWF Hrun.
  destruct (pass_goes_on _ _ _ _ _ _ _ _ _ HWF Hrun Hit Hafter Hv)
    as (_ & _ & _ & Hj & Hend & [ext Hext]).
  split_and!; try done.
  exists ext. rewrite Hext, Hb. by rewrite <- app_assoc.
Qed.

(** C6, as the code has it. The loop of the pass, run on a well-formed
    graph, reaches after [k] iterations a [prim::If] node [n] whose
    condition is defined by a [prim::AutogradAnyNonZero] node all of whose
    operands are classified [Zero] at that moment.  Then the next iteration
    of the loop puts one new [prim::AutogradZero] node at the place of [n],
    classifies the output of that node [Zero] and changes no other
    classification, makes every use of every output of [n] a use of that
    output, and deletes [n].  And when the pass completes, the mutations of
    this iteration are part of its mutations, and in the graph it leaves
    the nodes that were before [n] and then the new node are the first
    nodes, [n] does not exist, and no output of [n] is defined or used. *)
Theorem If_all_Zero_collapsed g k p n rest cond more gs :
  well_formed (start g) = true ->
  iterate k (start g) = Some p ->
  p_after p = n :: rest ->
  kind n = prim_If ->
  inputs n = cond :: more ->
  producer p cond = Some (prim_AutogradAnyNonZero, gs) ->
  Forall (fun v => classify (p_state p) v = Zero) gs ->
  let u := p_unique p in
  let i := p_nid p in
  let sigma := map (fun o => (o, u)) (out_values n) in
  exists p' l tz,
    let zero := mkNode i prim_AutogradZero [] [(u, tz)] [] None in
    visit p = Some (tt, p', l) /\
    iterate (S k) (start g) = Some p' /\
    p_before p' = p_before p /\
    p_after p' = zero :: subst_seq_nodes sigma rest /\
    p_outputs p' = subst_seq_values sigma (p_outputs p) /\
    classify (p_state p') u = Zero /\
    (forall v, v <> u -> classify (p_state p') v = classify (p_state p) v) /\
    (forall o, o ∈ out_values n -> o ∉ p_uses p') /\
    (nid n ∉ nids (p_nodes p')) /\
    forall q log, specializeAutogradZero g = Finished q log ->
      (exists l0 l1, log = l0 ++ l ++ l1) /\
      (exists j, iterate j p' = Some q) /\
      p_after q = [] /\
      (exists ext, p_nodes q = p_before p ++ zero :: ext) /\
      (nid n ∉ nids (p_nodes q)) /\
      (forall o, o ∈ out_values n -> (o ∉ all_defs (p_nodes q)) /\ (o ∉ p_uses q)).
Proof.
  intros HWF Hit Hafter Hk Hin Hp Hz u i sigma.
  pose proof (iterate_WF _ _ _ HWF Hit) as HWFp.
  destruct (iteration_collapses_conditional p n rest cond more gs
              HWFp Hafter Hk Hin Hp Hz)
    as (p' & l & Hv & _ & Hb & Ha & Ho & Hnew & Hcl & Hunused & Hgone).
  pose proof (iterate_snoc _ _ _ _ _ Hit Hv) as Hit'.
  exists p', l, TensorType_get. simpl. split_and!; try done.
  intros q log Hrun.
  destruct (pass_goes_on _ _ _ _ _ _ _ _ _ HWF Hrun Hit Hafter Hv)
    as (_ & _ & Hlog & Hj & Hend & _).
  destruct (pass_removes _ _ _ _ _ _ _ _ _ HWF Hrun Hit Hafter Hv Hgone) as [Hnid Houts].
  destruct (kept_summary p' _ _ [u] Zero Ha) as (p'' & Hv' & _ & Hb' & _).
  { by eapply Kept_AutogradZero. }
  destruct (pass_goes_on _ _ _ _ _ _ _ _ _ HWF Hrun Hit' Ha Hv')
    as (_ & _ & _ & _ & _ & [ext Hext]).
  split_and!; try done.
  exists ext. rewrite Hext, Hb', Hb. by rewrite <- app_assoc.
Qed.

(** C7, as the code has it. The loop of the pass, run on a well-formed
    graph, reaches after [k] iterations a [prim::If] node [n] whose
    condition is defined by a [prim::AutogradAnyNonZero] node that has at
    least one operand, all operands classified [Nonzero] at that moment,
    and whose first block has the nodes [ms] and a return value for each
    output of [n].  Then the next iteration of the loop moves the nodes
    [ms], in their order, to just before the place of [n], makes every use
    of the output at each position a use of the return value at that
    position, classifies these return values [Nonzero] and changes no
    other classification, and deletes [n].  And when the pass completes,
    the mutations of this iteration are part of its mutations, and in the
    graph it leaves the nodes that were before [n] and then the nodes
    [ms], as they were, are the first nodes, [n] does not exist, and no
    output of [n] is defined or used. *)
Theorem If_all_Nonzero_inlined g k p n rest cond more gs ms rs bs :
  well_formed (start g) = true ->
  iterate k (start g) = Some p ->
  p_after p = n :: rest ->
  kind n = prim_If ->
  inputs n = cond :: more ->
  producer p cond = Some (prim_AutogradAnyNonZero, gs) ->
  gs <> [] ->
  Forall (fun v => classify (p_state p) v = Nonzero) gs ->
  blocks n = mkBlock ms rs :: bs ->
  length (outputs n) <= length rs ->
  let sigma := zip (out_values n) rs in
  exists p' l,
    visit p = Some (tt, p', l) /\
    iterate (S k) (start g) = Some p' /\
    p_before p' = p_before p ++ ms /\
    p_after p' = subst_seq_nodes sigma rest /\
    p_outputs p' = subst_seq_values sigma (p_outputs p) /\
    (forall r, r ∈ sigma.*2 -> classify (p_state p') r = Nonzero) /\
    (forall v, v ∉ sigma.*2 -> classify (p_state p') v = classify (p_state p) v) /\
    (forall o, o ∈ out_values n -> o ∉ p_uses p') /\
    (nid n ∉ nids (p_nodes p')) /\
    forall q log, specializeAutogradZero g = Finished q log ->
      (exists l0 l1, log = l0 ++ l ++ l1) /\
      (exists j, iterate j p' = Some q) /\
      p_after q = [] /\
      (exists ext, p_nodes q = p_before p ++ ms ++ ext) /\
      (nid n ∉ nids (p_nodes q)) /\
      (forall o, o ∈ out_values n -> (o ∉ all_defs (p_nodes q)) /\ (o ∉ p_uses q)).
Proof.
  intros HWF Hit Hafter Hk Hin Hp Hgs Hnz Hbl Hlen sigma.
  pose proof (iterate_WF _ _ _ HWF Hit) as HWFp.
  destruct (iteration_inlines_conditional p n rest cond more gs ms rs bs
              HWFp Hafter Hk Hin Hp Hgs Hnz Hbl Hlen)
    as (p' & l & Hv & _ & Hb & Ha & Ho & Hnew & Hcl & Hunused & Hgone).
  exists p', l. split_and!; try done; [by eapply iterate_snoc|].
  intros q log Hrun.
  destruct (pass_goes_on _ _ _ _ _ _ _ _ _ HWF Hrun Hit Hafter Hv)
    as (_ & _ & Hlog & Hj & Hend & [ext Hext]).
  destruct (pass_removes _ _ _ _ _ _ _ _ _ HWF Hrun Hit Hafter Hv Hgone) as [Hnid Houts].
  split_and!; try done.
  exists ext. rewrite Hext, Hb. by rewrite <- app_assoc.
Qed.

(** ** Where the statements of the spec fail *)

(** C3 as the spec states it fails for a guarded add that the loop does not
    visit: the add of the [Zero] input 0 in the first block of a
    conditional whose guard is [Nonzero] is hoisted by the inlining of the
    conditional and stepped over; it is in the graph the pass leaves, and
    its output is used. *)
Lemma AutogradAdd_zero_operand_counterexample :
  let test := mkNode 0 prim_AutogradAnyNonZero [1] [(4, BoolType)] [] None in
  let add := mkNode 2 prim_AutogradAdd [0; 1] [(6, TensorType None)] [] None in
  let cond := mkNode 1 prim_If [4] [(5, TensorType None)]
                [mkBlock [add] [6]; mkBlock [] [0]] None in
  let g := mkGraph ex_inputs [test; cond] [5] 7 3 in
  well_formed (start g) = true /\
  classify (p_state (start g)) 0 = Zero /\
  exists q log,
    specializeAutogradZero g = Finished q log /\
    classify (p_state q) 0 = Zero /\
    p_nodes q = [test; add] /\
    p_outputs q = [6].
Proof.
  simpl. split_and!; [vm_compute; reflexivity|reflexivity|].
  eexists _, _. split_and!; [vm_compute; reflexivity|reflexivity..].
Qed.

(** C4 as the spec states it fails for a guarded add that the loop does not
    visit: the add of the [Nonzero] inputs 1 and 2 in the first block of a
    conditional whose guard is [Nonzero] is hoisted and stepped over; the
    pass leaves it as it is and creates no ordinary add. *)
Lemma AutogradAdd_both_Nonzero_counterexample :
  let test := mkNode 0 prim_AutogradAnyNonZero [1] [(4, BoolType)] [] None in
  let add := mkNode 2 prim_AutogradAdd [1; 2] [(6, TensorType None)] [] None in
  let cond := mkNode 1 prim_If [4] [(5, TensorType None)]
                [mkBlock [add] [6]; mkBlock [] [0]] None in
  let g := mkGraph ex_inputs [test; cond] [5] 7 3 in
  well_formed (start g) = true /\
  exists q log,
    specializeAutogradZero g = Finished q log /\
    classify (p_state q) 1 = Nonzero /\
    classify (p_state q) 2 = Nonzero /\
    p_nodes q = [test; add].
Proof.
  simpl. split; [vm_compute; reflexivity|].
  eexists _, _. split_and!; [vm_compute; reflexivity|reflexivity..].
Qed.

(** C5 as the spec states it fails for a guarded add that the loop does not
    visit: the add of the [Nonzero] input 1 and the [Unknown] input 3 in the
    first block of a conditional whose guard is [Nonzero] is hoisted and
    stepped over, and its output, a return value of the block, is
    classified [Nonzero], not [Unknown]. *)
Lemma AutogradAdd_mixed_counterexample :
  let test := mkNode 0 prim_AutogradAnyNonZero [1] [(4, BoolType)] [] None in
  let add := mkNode 2 prim_AutogradAdd [1; 3] [(6, TensorType None)] [] None in
  let cond := mkNode 1 prim_If [4] [(5, TensorType None)]
                [mkBlock [add] [6]; mkBlock [] [0]] None in
  let g := mkGraph ex_inputs [test; cond] [5] 7 3 in
  well_formed (start g) = true /\
  exists q log,
    specializeAutogradZero g = Finished q log /\
    classify (p_state q) 1 = Nonzero /\
    classify (p_state q) 3 = Unknown /\
    p_nodes q = [test; add] /\
    classify (p_state q) 6 = Nonzero.
Proof.
  simpl. split; [vm_compute; reflexivity|].
  eexists _, _. split_and!; [vm_compute; reflexivity|reflexivity..].
Qed.

(** C6 as the spec states it fails for a conditional that the loop does not
    visit: a conditional on an any-nonzero test of the [Zero] input 0 that
    is in the first block of a conditional the pass keeps is not collapsed;
    the pass mutates nothing. *)
Lemma If_all_Zero_counterexample :
  let test := mkNode 0 prim_AutogradAnyNonZero [0] [(4, BoolType)] [] None in
  let outer_test := mkNode 1 prim_AutogradAnyNonZero [0; 1] [(5, BoolType)] [] None in
  let inner := mkNode 3 prim_If [4] [(6, TensorType None)]
                 [mkBlock [] [1]; mkBlock [] [0]] None in
  let outer := mkNode 2 prim_If [5] [(7, TensorType None)]
                 [mkBlock [inner] [6]; mkBlock [] [0]] None in
  let g := mkGraph ex_inputs [test; outer_test; outer] [7] 8 4 in
  well_formed (start g) = true /\
  exists q,
    specializeAutogradZero g = Finished q [] /\
    classify (p_state q) 0 = Zero /\
    p_nodes q = [test; outer_test; outer].
Proof.
  simpl. split; [vm_compute; reflexivity|].
  eexists. split_and!; [vm_compute; reflexivity|reflexivity..].
Qed.

(** C7 as the spec states it fails in three ways.  When the test has no
    operand, its operands are all [Nonzero] and all [Zero] at once, and the
    pass collapses the conditional to a [prim::AutogradZero] node instead
    of inlining its first block.  A conditional that the loop does not
    visit, here one in the first block of a conditional the pass keeps, is
    not inlined.  And when the first block returns fewer values than the
    conditional has outputs, the pass throws. *)
Lemma If_all_Nonzero_counterexample :
  let test0 := mkNode 0 prim_AutogradAnyNonZero [] [(4, BoolType)] [] None in
  let body := mkNode 2 (other_kind "aten::neg") [1] [(6, TensorType None)] [] None in
  let cond0 := mkNode 1 prim_If [4] [(5, TensorType None)]
                 [mkBlock [body] [6]; mkBlock [] [0]] None in
  let g0 := mkGraph ex_inputs [test0; cond0] [5] 7 3 in
  let test := mkNode 0 prim_AutogradAnyNonZero [1] [(4, BoolType)] [] None in
  let outer_test := mkNode 1 prim_AutogradAnyNonZero [0; 1] [(5, BoolType)] [] None in
  let inner := mkNode 3 prim_If [4] [(6, TensorType None)]
                 [mkBlock [] [1]; mkBlock [] [0]] None in
  let outer := mkNode 2 prim_If [5] [(7, TensorType None)]
                 [mkBlock [inner] [6]; mkBlock [] [0]] None in
  let g1 := mkGraph ex_inputs [test; outer_test; outer] [7] 8 4 in
  let short := mkNode 1 prim_If [4] [(5, TensorType None)]
                 [mkBlock [body] []; mkBlock [] []] None in
  let g2 := mkGraph ex_inputs [test; short] [5] 7 3 in
  (well_formed (start g0) = true /\
   exists q log,
     specializeAutogradZero g0 = Finished q log /\
     map kind (p_nodes q) = [prim_AutogradAnyNonZero; prim_AutogradZero]) /\
  (well_formed (start g1) = true /\
   exists q,
     specializeAutogradZero g1 = Finished q [] /\
     classify (p_state q) 1 = Nonzero /\
     p_nodes q = [test; outer_test; outer]) /\
  (well_formed (start g2) = true /\
   classify (p_state (start g2)) 1 = Nonzero /\
   specializeAutogradZero g2 = Raised).
Proof.
  simpl. split_and!.
  - vm_compute. reflexivity.
  - eexists _, _. split; [vm_compute; reflexivity|reflexivity].
  - vm_compute. reflexivity.
  - eexists. split_and!; [vm_compute; reflexivity|reflexivity..].
  - vm_compute. reflexivity.
  - reflexivity.
  - vm_compute. reflexivity.
Qed.

(** C10 as the spec states it fails for a conditional that the loop does
    not visit: a conditional on a comparison in the first block of a
    conditional whose guard is [Nonzero] is hoisted and stepped over, and
    its output, a return value of the block, is classified [Nonzero], not
    [Unknown]. *)
Lemma If_of_other_condition_counterexample :
  let gt := mkNode 0 (other_kind "aten::gt") [1; 2] [(7, BoolType)] [] None in
  let test := mkNode 1 prim_AutogradAnyNonZero [1] [(4, BoolType)] [] None in
  let inner := mkNode 3 prim_If [7] [(6, TensorType None)]
                 [mkBlock [] [1]; mkBlock [] [2]] None in
  let cond := mkNode 2 prim_If [4] [(5, TensorType None)]
                [mkBlock [inner] [6]; mkBlock [] [0]] None in
  let g := mkGraph ex_inputs [gt; test; cond] [5] 8 4 in
  well_formed (start g) = true /\
  producer (start g) 7 = Some (other_kind "aten::gt", [1; 2]) /\
  exists q log,
    specializeAutogradZero g = Finished q log /\
    p_nodes q = [gt; test; inner] /\
    classify (p_state q) 6 = Nonzero.
Proof.
  simpl. split_and!; [vm_compute; reflexivity|reflexivity|].
  eexists _, _. split_and!; [vm_compute; reflexivity|reflexivity..].
Qed.


(** ** The rewrites at concrete graphs *)

Lemma AutogradAdd_zero_operand_forwarded_witness :
  exists q log,
    specializeAutogradZero ex_graph = Finished q log /\
    (1 ∉ nids (p_nodes q)) /\ (9 ∉ p_uses q).
Proof.
  destruct (specializeAutogradZero ex_graph) as [q log| |] eqn:Hrun;
    [|vm_compute in Hrun; discriminate Hrun|vm_compute in Hrun; discriminate Hrun].
  destruct (iterate 3 (start ex_graph)) as [p|] eqn:Hit;
    [|vm_compute in Hit; discriminate Hit].
  pose proof Hit as E. vm_compute in E. injection E as <-.
  assert (well_formed (start ex_graph) = true) as HWF by (vm_compute; reflexivity).
  destruct (AutogradAdd_zero_operand_forwarded ex_graph 3 _
              (mkNode 1 prim_AutogradAdd [11; 0] [(9, TensorType None)] [] None) []
              11 0 [] 9 (TensorType None) 11 HWF Hit)
    as (p' & l & _ & _ & _ & _ & _ & _ & _ & _ & _ & Hfin).
  - reflexivity.
  - reflexivity.
  - reflexivity.
  - reflexivity.
  - right. split_and!; [intros H; vm_compute in H; discriminate H|reflexivity..].
  - destruct (Hfin q log Hrun) as (_ & _ & _ & _ & Hnid & _ & Hus).
    exists q, log. split; [reflexivity|]. split; [exact Hnid|exact Hus].
Defined.

Lemma AutogradAdd_both_Nonzero_downgraded_witness :
  exists q log ext,
    specializeAutogradZero ex_graph = Finished q log /\
    p_nodes q =
      [ex_test prim_AutogradAnyNonZero [1; 2]; ex_neg] ++
      [mkNode 6 prim_Constant [] [(10, IntType)] [] (Some 1%Z);
       mkNode 7 aten_add [6; 2; 10] [(11, TensorType None)] [] None] ++ ext /\
    (0 ∉ nids (p_nodes q)).
Proof.
  destruct (specializeAutogradZero ex_graph) as [q log| |] eqn:Hrun;
    [|vm_compute in Hrun; discriminate Hrun|vm_compute in Hrun; discriminate Hrun].
  destruct (iterate 2 (start ex_graph)) as [p|] eqn:Hit;
    [|vm_compute in Hit; discriminate Hit].
  pose proof Hit as E. vm_compute in E. injection E as <-.
  assert (well_formed (start ex_graph) = true) as HWF by (vm_compute; reflexivity).
  destruct (AutogradAdd_both_Nonzero_downgraded ex_graph 2 _
              (mkNode 0 prim_AutogradAdd [6; 2] [(8, TensorType None)] [] None)
              [mkNode 1 prim_AutogradAdd [8; 0] [(9, TensorType None)] [] None]
              6 2 [] 8 (TensorType None) HWF Hit)
    as (p' & l & _ & _ & _ & _ & _ & _ & _ & _ & _ & Hfin).
  - reflexivity.
  - reflexivity.
  - reflexivity.
  - reflexivity.
  - reflexivity.
  - reflexivity.
  - destruct (Hfin q log Hrun) as (_ & _ & _ & [ext Hext] & Hnid & _).
    exists q, log, ext. split; [reflexivity|]. split; [exact Hext|exact Hnid].
Defined.

Lemma AutogradAdd_mixed_kept_witness :
  exists q log p' ext,
    specializeAutogradZero ex_kept_graph = Finished q log /\
    iterate 6 (start ex_kept_graph) = Some p' /\
    classify (p_state p') 10 = Unknown /\
    p_nodes q =
      [ex_test prim_AutogradAnyNonZero [0];
       mkNode 7 prim_AutogradZero [] [(11, TensorType None)] [] None;
       mkNode 0 (other_kind "aten::gt") [1; 2] [(8, BoolType)] [] None;
       mkNode 1 prim_If [8] [(9, TensorType None)] [mkBlock [] [1]; mkBlock [] [2]] None] ++
      mkNode 6 prim_AutogradAdd [9; 3] [(10, TensorType None)] [] None :: ext.
Proof.
  destruct (specializeAutogradZero ex_kept_graph) as [q log| |] eqn:Hrun;
    [|vm_compute in Hrun; discriminate Hrun|vm_compute in Hrun; discriminate Hrun].
  destruct (iterate 5 (start ex_kept_graph)) as [p|] eqn:Hit;
    [|vm_compute in Hit; discriminate Hit].
  pose proof Hit as E. vm_compute in E. injection E as <-.
  destruct (AutogradAdd_mixed_kept ex_kept_graph 5 _
              (mkNode 6 prim_AutogradAdd [9; 3] [(10, TensorType None)] [] None) []
              9 3 [] 10 (TensorType None) Hit)
    as (p' & _ & Hit' & _ & _ & _ & Ho & _ & Hfin).
  - reflexivity.
  - reflexivity.
  - reflexivity.
  - reflexivity.
  - intros H. vm_compute in H. discriminate H.
  - intros H. vm_compute in H. discriminate H.
  - intros [H _]. vm_compute in H. discriminate H.
  - destruct (Hfin q log) as (_ & _ & [ext Hext]);
      [vm_compute; reflexivity|exact Hrun|].
    exists q, log, p', ext. split; [reflexivity|].
    split; [exact Hit'|]. split; [exact Ho|exact Hext].
Defined.

Lemma If_of_other_condition_kept_witness :
  exists q log p' ext,
    specializeAutogradZero ex_kept_graph = Finished q log /\
    iterate 5 (start ex_kept_graph) = Some p' /\
    classify (p_state p') 9 = Unknown /\
    p_nodes q =
      [ex_test prim_AutogradAnyNonZero [0];
       mkNode 7 prim_AutogradZero [] [(11, TensorType None)] [] None;
       mkNode 0 (other_kind "aten::gt") [1; 2] [(8, BoolType)] [] None] ++
      mkNode 1 prim_If [8] [(9, TensorType None)] [mkBlock [] [1]; mkBlock [] [2]] None ::
      ext.
Proof.
  destruct (specializeAutogradZero ex_kept_graph) as [q log| |] eqn:Hrun;
    [|vm_compute in Hrun; discriminate Hrun|vm_compute in Hrun; discriminate Hrun].
  destruct (iterate 4 (start ex_kept_graph)) as [p|] eqn:Hit;
    [|vm_compute in Hit; discriminate Hit].
  pose proof Hit as E. vm_compute in E. injection E as <-.
  destruct (If_of_other_condition_kept ex_kept_graph 4 _
              (mkNode 1 prim_If [8] [(9, TensorType None)]
                 [mkBlock [] [1]; mkBlock [] [2]] None)
              [mkNode 6 prim_AutogradAdd [9; 3] [(10, TensorType None)] [] None]
              8 [] (other_kind "aten::gt") [1; 2] Hit)
    as (p' & _ & Hit' & _ & _ & _ & Ho & _ & Hfin).
  - reflexivity.
  - reflexivity.
  - reflexivity.
  - reflexivity.
  - discriminate.
  - destruct (Hfin q log) as (_ & _ & [ext Hext]);
      [vm_compute; reflexivity|exact Hrun|].
    exists q, log, p', ext. split; [reflexivity|]. split; [exact Hit'|].
    split; [|exact Hext]. apply Ho. vm_compute. left.
Defined.

Lemma If_all_Zero_collapsed_witness :
  exists q log tz ext,
    specializeAutogradZero ex_kept_graph = Finished q log /\
    p_nodes q =
      [ex_test prim_AutogradAnyNonZero [0]] ++
      mkNode 7 prim_AutogradZero [] [(11, tz)] [] None :: ext /\
    (3 ∉ nids (p_nodes q)) /\ (5 ∉ p_uses q).
Proof.
  destruct (specializeAutogradZero ex_kept_graph) as [q log| |] eqn:Hrun;
    [|vm_compute in Hrun; discriminate Hrun|vm_compute in Hrun; discriminate Hrun].
  destruct (iterate 1 (start ex_kept_graph)) as [p|] eqn:Hit;
    [|vm_compute in Hit; discriminate Hit].
  pose proof Hit as E. vm_compute in E. injection E as <-.
  assert (well_formed (start ex_kept_graph) = true) as HWF by (vm_compute; reflexivity).
  destruct (If_all_Zero_collapsed ex_kept_graph 1 _ ex_cond
              [mkNode 0 (other_kind "aten::gt") [1; 2] [(8, BoolType)] [] None;
               mkNode 1 prim_If [8] [(9, TensorType None)]
                 [mkBlock [] [1]; mkBlock [] [2]] None;
               mkNode 6 prim_AutogradAdd [9; 3] [(10, TensorType None)] [] None]
              4 [] [0] HWF Hit)
    as (p' & l & tz & _ & _ & _ & _ & _ & _ & _ & _ & _ & Hfin).
  - reflexivity.
  - reflexivity.
  - reflexivity.
  - reflexivity.
  - repeat constructor.
  - destruct (Hfin q log Hrun) as (_ & _ & _ & [ext Hext] & Hnid & Houts).
    exists q, log, tz, ext. split; [reflexivity|]. split; [exact Hext|].
    split; [exact Hnid|]. apply (Houts 5). vm_compute. left.
Defined.

Lemma If_all_Nonzero_inlined_witness :
  exists q log ext,
    specializeAutogradZero ex_graph = Finished q log /\
    p_nodes q = [ex_test prim_AutogradAnyNonZero [1; 2]] ++ [ex_neg] ++ ext /\
    (3 ∉ nids (p_nodes q)) /\ (5 ∉ p_uses q).
Proof.
  destruct (specializeAutogradZero ex_graph) as [q log| |] eqn:Hrun;
    [|vm_compute in Hrun; discriminate Hrun|vm_compute in Hrun; discriminate Hrun].
  destruct (iterate 1 (start ex_graph)) as [p|] eqn:Hit;
    [|vm_compute in Hit; discriminate Hit].
  pose proof Hit as E. vm_compute in E. injection E as <-.
  assert (well_formed (start ex_graph) = true) as HWF by (vm_compute; reflexivity).
  destruct (If_all_Nonzero_inlined ex_graph 1 _ ex_cond
              [mkNode 0 prim_AutogradAdd [5; 2] [(8, TensorType None)] [] None;
               mkNode 1 prim_AutogradAdd [8; 0] [(9, TensorType None)] [] None]
              4 [] [1; 2] [ex_neg] [6]
              [mkBlock [mkNode 5 prim_AutogradZero [] [(7, TensorType None)] [] None] [7]]
              HWF Hit)
    as (p' & l & _ & _ & _ & _ & _ & _ & _ & _ & _ & Hfin).
  - reflexivity.
  - reflexivity.
  - reflexivity.
  - reflexivity.
  - discriminate.
  - repeat constructor.
  - reflexivity.
  - simpl. lia.
  - destruct (Hfin q log Hrun) as (_ & _ & _ & [ext Hext] & Hnid & Houts).
    exists q, log, ext. split; [reflexivity|]. split; [exact Hext|].
    split; [exact Hnid|]. apply (Houts 5). vm_compute. left.
Defined.
